(** * diskimgcreator: partition file names, size tokens and the image size

    A shallow embedding of [src/diskimgcreator.py] and of
    [src/diskimgmounter.py].  The first part is the parsing core:
    [_parse_size], [_try_get_partitions_long_format],
    [_try_get_partitions_short_format], [PartitionCollection.get_total_size]
    and [PartitionCollection.from_directory].  The second part is the code
    that acts on the system: the printing functions, [Partfs], [Losetup],
    [Mount], the methods of [Partition] and [Imagefile], [_try_dd],
    [_try_parted], [_try_mkfs], [try_create_image] and [main], and the
    [try_mount_image] and [main] of the mounter.

    Conventions of the model.
    - A Python [str] is a [list ascii]; a character is one of the 256 code
      points below U+0100 (code points above are outside the model).
    - [re.match] is a backtracking matcher over the constructs the five
      patterns of the source use; quantifiers are greedy, alternatives are
      tried left to right, [.] excludes the newline and [$] also matches
      just before a final newline, as the [re] module does.
    - A Python [float] is an IEEE 754 binary64 number; only non-negative
      values arise, kept as [m * 2^e] or infinity, and every operation
      rounds to nearest, ties to even.
    - An exception is a value of [exn]; a call returns [Ok v] or [Raise e].
    - [glob.glob] is the environment: [from_directory] takes its result.
    - In the second part a call to the system is a node of a tree of
      calls; a world answers the calls, and a property of a procedure is
      stated for its runs in every world.  An exception there is a value
      of [exception], which holds those of the first part. *)

From Stdlib Require Import List String Ascii ZArith Lia Bool.
From Stdlib Require Import Permutation Sorted DecimalString.
Import ListNotations.
Open Scope string_scope.
Open Scope list_scope.
Open Scope Z_scope.

(** * The program *)

(** ** Strings *)

Definition str := list ascii.

Coercion list_ascii_of_string : string >-> list.

Fixpoint str_eqb (a b : str) : bool :=
  match a, b with
  | [], [] => true
  | x :: a', y :: b' => Ascii.eqb x y && str_eqb a' b'
  | _, _ => false
  end.

Definition code (c : ascii) : nat := nat_of_ascii c.

Definition in_range (lo hi : nat) (c : ascii) : bool :=
  (Nat.leb lo (code c) && Nat.leb (code c) hi)%bool.

(** [str.lower] on the code points of the model: A-Z and the upper-case
    letters of Latin-1 (U+00C0..U+00DE without the multiplication sign). *)
Definition lower_char (c : ascii) : ascii :=
  if in_range 65 90 c then ascii_of_nat (code c + 32)
  else if (in_range 192 222 c && negb (Nat.eqb (code c) 215))%bool
       then ascii_of_nat (code c + 32)
       else c.

Definition lower (s : str) : str := map lower_char s.

(** Lexicographic order on code points, the order of [sorted] on [str]. *)
Fixpoint str_leb (a b : str) : bool :=
  match a, b with
  | [], _ => true
  | _ :: _, [] => false
  | x :: a', y :: b' =>
      if Nat.ltb (code x) (code y) then true
      else if Nat.ltb (code y) (code x) then false
      else str_leb a' b'
  end.

Fixpoint insert_sorted (x : str) (l : list str) : list str :=
  match l with
  | [] => [x]
  | y :: l' => if str_leb x y then x :: l else y :: insert_sorted x l'
  end.

Definition sorted (l : list str) : list str :=
  fold_right insert_sorted [] l.

(** ** Exceptions and results *)

Inductive exn : Type :=
| PartitionSizeParseException (size : option str)
| PartitionsNotFoundException
| PartitionParseException (filename : str)
| ValueError
| OverflowError
| IndexError
| TypeError.

Inductive result (A : Type) : Type :=
| Ok (a : A)
| Raise (e : exn).

Arguments Ok {A} a.

Arguments Raise {A} e.

Definition bind {A B} (r : result A) (f : A -> result B) : result B :=
  match r with
  | Ok a => f a
  | Raise e => Raise e
  end.

Notation "x <- r ;; k" := (bind r (fun x => k))
  (at level 61, r at next level, right associativity).

(** ** Regular expressions

    The constructs of the patterns in the source.  Every [*] and [+] there
    is applied to a single character class. *)

Inductive regex : Type :=
| Lit (l : str)
| Cls (p : ascii -> bool)
| Star (p : ascii -> bool)
| Plus (p : ascii -> bool)
| Opt (r : regex)
| Seq (r1 r2 : regex)
| Alt (r1 r2 : regex)
| Group (name : string) (r : regex)
| Bos
| Eos.

Infix "+++" := Seq (at level 60, right associativity).

Definition groups := list (string * str).

Definition newline : ascii := ascii_of_nat 10.

Definition is_char (a : string) (c : ascii) : bool :=
  match a with
  | String x EmptyString => Ascii.eqb c x
  | _ => false
  end.

(** [.] *)
Definition dot (c : ascii) : bool := negb (Ascii.eqb c newline).

(** [\d] *)
Definition digit (c : ascii) : bool := in_range 48 57 c.

(** [[_ ]] *)
Definition sep (c : ascii) : bool := (is_char "_" c || is_char " " c)%bool.

(** [[^_ ]] *)
Definition not_sep (c : ascii) : bool := negb (sep c).

(** [[^_\. ]] *)
Definition not_sep_dot (c : ascii) : bool :=
  negb (is_char "_" c || is_char "." c || is_char " " c)%bool.

(** [[^ ]] *)
Definition not_space (c : ascii) : bool := negb (is_char " " c).

(** [[^ $]] *)
Definition not_space_dollar (c : ascii) : bool :=
  negb (is_char " " c || is_char "$" c)%bool.

(** [[\d\.]] *)
Definition digit_or_dot (c : ascii) : bool := (digit c || is_char "." c)%bool.

Fixpoint strip_prefix (l s : str) : option str :=
  match l, s with
  | [], _ => Some s
  | x :: l', c :: s' => if Ascii.eqb x c then strip_prefix l' s' else None
  | _ :: _, [] => None
  end.

(** The text consumed between the input [s] and its suffix [s']. *)
Definition captured (s s' : str) : str :=
  firstn (List.length s - List.length s') s.

(** Greedy repetition of a class: the longest run first, then shorter ones. *)
Fixpoint star {A} (p : ascii -> bool) (s : str) (k : str -> option A)
  : option A :=
  match s with
  | c :: s' =>
      if p c then
        match star p s' k with
        | Some o => Some o
        | None => k s
        end
      else k s
  | [] => k s
  end.

Section Matcher.

(** The whole subject string, for [^]. *)
Variable whole : str.

Fixpoint exec (r : regex) (s : str) (g : groups)
         (k : str -> groups -> option groups) : option groups :=
  match r with
  | Lit l =>
      match strip_prefix l s with
      | Some s' => k s' g
      | None => None
      end
  | Cls p =>
      match s with
      | c :: s' => if p c then k s' g else None
      | [] => None
      end
  | Star p => star p s (fun s' => k s' g)
  | Plus p =>
      match s with
      | c :: s' => if p c then star p s' (fun s'' => k s'' g) else None
      | [] => None
      end
  | Opt r1 =>
      match exec r1 s g k with
      | Some o => Some o
      | None => k s g
      end
  | Seq r1 r2 => exec r1 s g (fun s' g' => exec r2 s' g' k)
  | Alt r1 r2 =>
      match exec r1 s g k with
      | Some o => Some o
      | None => exec r2 s g k
      end
  | Group name r1 =>
      exec r1 s g (fun s' g' => k s' ((name, captured s s') :: g'))
  | Bos => if Nat.eqb (List.length s) (List.length whole) then k s g else None
  | Eos =>
      match s with
      | [] => k s g
      | [c] => if Ascii.eqb c newline then k s g else None
      | _ => None
      end
  end.

End Matcher.

(** [re.match(pattern, s)]: anchored at the start, any suffix may remain. *)
Definition re_match (r : regex) (s : str) : option groups :=
  exec s r s [] (fun _ g => Some g).

(** [m.group(name)]: [None] when the group took no part in the match. *)
Fixpoint group (m : groups) (name : string) : option str :=
  match m with
  | [] => None
  | (n, v) :: m' => if String.eqb n name then Some v else group m' name
  end.

(** Truth value of an optional string: [None] and [""] are false. *)
Definition truthy (o : option str) : bool :=
  match o with
  | Some (_ :: _) => true
  | _ => false
  end.

(** Formatting inside an f-string. *)
Definition fmt (o : option str) : str :=
  match o with
  | Some s => s
  | None => "None"
  end.

(** ** Floating point (binary64) *)

Inductive float : Type :=
| Finite (m e : Z)
| Inf.

(** The binary64 number nearest to [n / d] ([0 <= n], [0 < d]), ties to
    even; infinity from [2^1024] on. *)
Definition round_double (n d : Z) : float :=
  if n =? 0 then Finite 0 0
  else
    let l0 := Z.log2 n - Z.log2 d in
    let below :=
      if 0 <=? l0 then n <? d * 2 ^ l0 else n * 2 ^ (- l0) <? d in
    let l := if below then l0 - 1 else l0 in
    let e := Z.max (l - 52) (-1074) in
    let num := if 0 <=? e then n else n * 2 ^ (- e) in
    let den := if 0 <=? e then d * 2 ^ e else d in
    let q := num / den in
    let r := num mod den in
    let q' :=
      if ((den <? 2 * r) || ((2 * r =? den) && Z.odd q))%bool
      then q + 1 else q in
    if ((971 <? e) || ((e =? 971) && (2 ^ 53 <=? q')))%bool
    then Inf else Finite q' e.

Definition digit_value (c : ascii) : Z := Z.of_nat (code c) - 48.

Fixpoint digits_value (acc : Z) (s : str) : Z :=
  match s with
  | [] => acc
  | c :: s' => digits_value (10 * acc + digit_value c) s'
  end.

Fixpoint split_at_dot (s : str) : str * option str :=
  match s with
  | [] => ([], None)
  | c :: s' =>
      if is_char "." c then ([], Some s')
      else let (a, b) := split_at_dot s' in (c :: a, b)
  end.

(** [float(s)] for a string of digits and dots, the only strings the
    pattern of [_parse_size] hands over: a decimal with at most one dot
    and at least one digit, else [ValueError]. *)
Definition float_of_str (s : str) : result float :=
  let (ip, rest) := split_at_dot s in
  let fp := match rest with Some f => f | None => [] end in
  if (forallb digit ip && forallb digit fp
      && negb (Nat.eqb (List.length ip + List.length fp) 0))%bool
  then Ok (round_double (digits_value 0 (ip ++ fp))
                        (10 ^ Z.of_nat (List.length fp)))
  else Raise ValueError.

(** [x * k] for a float [x] and an integer [0 < k < 2^53]. *)
Definition float_mul (x : float) (k : Z) : float :=
  match x with
  | Inf => Inf
  | Finite m e =>
      if 0 <=? e then round_double (m * k * 2 ^ e) 1
      else round_double (m * k) (2 ^ (- e))
  end.

(** [int(x)] *)
Definition int_of_float (x : float) : result Z :=
  match x with
  | Inf => Raise OverflowError
  | Finite m e => Ok (if 0 <=? e then m * 2 ^ e else m / 2 ^ (- e))
  end.

(** ** [_parse_size] *)

Definition units : list (str * Z) :=
  [ ("" : str, 1000 ^ 2);
    ("s" : str, 512);
    ("b" : str, 1);
    ("kb" : str, 1000);
    ("mb" : str, 1000 ^ 2);
    ("gb" : str, 1000 ^ 3);
    ("tb" : str, 1000 ^ 4);
    ("kib" : str, 1024);
    ("mib" : str, 1024 ^ 2);
    ("gib" : str, 1024 ^ 3);
    ("tib" : str, 1024 ^ 4) ].

Fixpoint lookup (d : list (str * Z)) (key : str) : option Z :=
  match d with
  | [] => None
  | (k, v) :: d' => if str_eqb k key then Some v else lookup d' key
  end.

(** The pattern of [_parse_size], as written in the source, and its
    syntax tree. *)
Definition size_pattern_source : string := "^([\d\.]+)(.*)$".

Definition size_pattern : regex :=
  Bos +++ Group "1" (Plus digit_or_dot) +++ Group "2" (Star dot) +++ Eos.

(** [re.match] on [None] is a [TypeError]; [float] on a malformed number
    is a [ValueError]; [int] on infinity is an [OverflowError]. *)
Definition _parse_size (size : str) : result Z :=
  match re_match size_pattern size with
  | Some m =>
      num <- float_of_str (fmt (group m "1")) ;;
      let unit := lower (fmt (group m "2")) in
      match lookup units unit with
      | Some mult => int_of_float (float_mul num mult)
      | None => Raise (PartitionSizeParseException None)
      end
  | None => Raise (PartitionSizeParseException None)
  end.

Definition _parse_size_opt (size : option str) : result Z :=
  match size with
  | Some s => _parse_size s
  | None => Raise TypeError
  end.

(** ** Partitions *)

Record Partition : Type := mkPartition {
  filename : str;
  parted : str;
  fstype : option str
}.

Record PartitionCollection : Type := mkCollection {
  _partitions : list Partition
}.

(** The two patterns of [_try_get_partitions_long_format]. *)
Definition long_format_source : string :=
  ".*partition(\d\d?).*-- parted (?P<parted>.*)(\.tar|\.tar\.gz)?$".

Definition tar_suffix (name : string) : regex :=
  Opt (Group name (Alt (Lit ".tar") (Lit ".tar.gz"))).

Definition long_format : regex :=
  Star dot +++ Lit "partition" +++ Group "1" (Cls digit +++ Opt (Cls digit))
  +++ Star dot +++ Lit "-- parted " +++ Group "parted" (Star dot)
  +++ tar_suffix "3" +++ Eos.

Definition long_format_fstype_source : string :=
  ".* (?P<fstype>[^ ]+) (?P<partition_start>[^ ]+) (?P<partition_end>[^ ]+)$".

Definition long_format_fstype : regex :=
  Star dot +++ Lit " " +++ Group "fstype" (Plus not_space)
  +++ Lit " " +++ Group "partition_start" (Plus not_space)
  +++ Lit " " +++ Group "partition_end" (Plus not_space) +++ Eos.

(** The loop of [_try_get_partitions_long_format]; [partitions] is the
    list appended to. *)
Fixpoint long_loop (files : list str) (partitions : list Partition)
  : result (list Partition) :=
  match files with
  | [] => Ok partitions
  | fname :: rest =>
      match re_match long_format fname with
      | None => Raise (PartitionParseException fname)
      | Some m =>
          match group m "parted" with
          | None => Raise TypeError
          | Some parted =>
              match re_match long_format_fstype parted with
              | None => Raise (PartitionParseException fname)
              | Some m' =>
                  let fstype := group m' "fstype" in
                  long_loop rest
                    (partitions ++ [mkPartition fname parted fstype])
              end
          end
      end
  end.

Definition _try_get_partitions_long_format (files : list str)
  : result (list Partition) :=
  match files with
  | [] => Raise IndexError
  | f0 :: _ =>
      match re_match long_format f0 with
      | Some _ => long_loop files []
      | None => Ok []
      end
  end.

(** The pattern of [_try_get_partitions_short_format]. *)
Definition short_format_source : string :=
  ".*partition(\d\d?)[_ ](?P<msdos>msdos[_ ])?(?P<partition_end>[^_ ]+)[_ ](?P<fstype>[^_\. ]+)(\.tar|\.tar\.gz)?$".

Definition short_format : regex :=
  Star dot +++ Lit "partition" +++ Group "1" (Cls digit +++ Opt (Cls digit))
  +++ Cls sep +++ Opt (Group "msdos" (Lit "msdos" +++ Cls sep))
  +++ Group "partition_end" (Plus not_sep) +++ Cls sep
  +++ Group "fstype" (Plus not_sep_dot) +++ tar_suffix "5" +++ Eos.

Definition first_partition_start : str := "1MiB".

(** The loop of [_try_get_partitions_short_format]: [i] is the index of
    [enumerate], [partition_end] the variable carried from one file to the
    next, [partitions] the list appended to. *)
Fixpoint short_loop (last_index i : Z) (files : list str)
         (partition_end : option str) (partitions : list Partition)
  : result (list Partition) :=
  match files with
  | [] => Ok partitions
  | fname :: rest =>
      match re_match short_format fname with
      | None => Raise (PartitionParseException fname)
      | Some m =>
          let fstype := group m "fstype" in
          let partition_start := partition_end in
          let partition_end := group m "partition_end" in
          let partition_end :=
            if last_index =? i then Some ("100%" : str) else partition_end in
          let parted : str :=
            if i =? 0 then
              let table_type : str :=
                if truthy (group m "msdos") then "msdos" else "gpt" in
              "unit s mklabel " ++ table_type ++ " mkpart primary "
                ++ fmt fstype ++ " " ++ fmt partition_start ++ " "
                ++ fmt partition_end ++ " set 1 boot on"
            else
              "mkpart primary " ++ fmt fstype ++ " "
                ++ fmt partition_start ++ " " ++ fmt partition_end in
          short_loop last_index (i + 1) rest partition_end
            (partitions ++ [mkPartition fname parted fstype])
      end
  end.

Definition _try_get_partitions_short_format (files : list str)
  : result (list Partition) :=
  match files with
  | [] => Raise IndexError
  | f0 :: _ =>
      match re_match short_format f0 with
      | Some _ =>
          short_loop (Z.of_nat (List.length files) - 1) 0 files
            (Some first_partition_start) []
      | None => Ok []
      end
  end.

(** The two patterns of [get_total_size]. *)
Definition total_long_format_source : string :=
  ".* -- dd (?P<size_all>[^ $]+)".

Definition total_long_format : regex :=
  Star dot +++ Lit " -- dd " +++ Group "size_all" (Plus not_space_dollar).

Definition total_short_format_source : string :=
  ".*partition(\d\d?)[_ ](?P<partition_end>[^_ ]+)".

Definition total_short_format : regex :=
  Star dot +++ Lit "partition" +++ Group "1" (Cls digit +++ Opt (Cls digit))
  +++ Cls sep +++ Group "partition_end" (Plus not_sep).

(** [self._partitions[0]] and [self._partitions[-1]] *)
Definition first_of {A} (l : list A) : result A :=
  match l with
  | [] => Raise IndexError
  | x :: _ => Ok x
  end.

Definition last_of {A} (l : list A) : result A :=
  match rev l with
  | [] => Raise IndexError
  | x :: _ => Ok x
  end.

Definition get_total_size (self : PartitionCollection) : result Z :=
  p0 <- first_of (_partitions self) ;;
  match re_match total_long_format (filename p0) with
  | Some m => _parse_size_opt (group m "size_all")
  | None =>
      pl <- last_of (_partitions self) ;;
      match re_match total_short_format (filename pl) with
      | Some m => _parse_size_opt (group m "partition_end")
      | None => Raise (PartitionSizeParseException None)
      end
  end.

Definition get_parted (self : PartitionCollection) : list str :=
  map parted (_partitions self).

Definition get_fstypes (self : PartitionCollection) : list (option str) :=
  map fstype (_partitions self).

(** [from_directory]: [listing] is what [glob.glob] returned for the
    directory.  [a or b] evaluates [b] only when [a] is an empty list. *)
Definition from_directory (listing : list str) : result PartitionCollection :=
  let partition_filenames := sorted listing in
  long <- _try_get_partitions_long_format partition_filenames ;;
  partitions <-
    match long with
    | [] => _try_get_partitions_short_format partition_filenames
    | _ :: _ => Ok long
    end ;;
  if Nat.eqb (List.length partitions) 0
  then Raise PartitionsNotFoundException
  else Ok (mkCollection partitions).

(** ** Module state

    The one module-level variable of the source is [VERBOSE], written by
    [_set_verbose] and read by the printing functions.  A call is a
    function from the state before to a value and the state after. *)

Record Globals : Type := mkGlobals { VERBOSE : bool }.

Definition Py (A : Type) : Type := Globals -> A * Globals.

Definition ret {A} (a : A) : Py A := fun g => (a, g).

Definition and_then {A B} (c : Py A) (k : A -> Py B) : Py B :=
  fun g => let (a, g') := c g in k a g'.

Definition _set_verbose (val : bool) : Py unit :=
  fun _ => (tt, mkGlobals val).

Definition _is_verbose : Py bool := fun g => (VERBOSE g, g).

(** A call of [PartitionCollection.from_directory]: no statement on its
    path names [VERBOSE]. *)
Definition call_from_directory (listing : list str)
  : Py (result PartitionCollection) :=
  ret (from_directory listing).

(** ** The operating system

    Everything the program asks of the system is a call: tests on the
    file system, commands, output, the random name.  A program is the
    tree of its calls, each followed by what is done with the answer. *)

Inductive stream : Type := stdout | stderr.

Record CompletedProcess : Type := mkCompleted {
  returncode : Z;
  stdout_text : str;
  stderr_text : str
}.

Inductive os_call : Type :=
| os_path_exists (path : str)
| os_path_isdir (path : str)
| os_mkdir (path : str)
| os_rmdir (path : str)
| os_listdir (path : str)
| glob_glob (pathname : str)
| subprocess_run (args : list str) (cwd : option str) (capture_output : bool)
| print (file : stream) (text : str)
| uuid4_hex.

(** The answer to a call.  [None] stands for the call raising [OSError]:
    [os.mkdir], [os.rmdir] and [os.listdir] on a path they cannot act on,
    [subprocess.run] on a program it cannot start.  [os.path.exists],
    [os.path.isdir] and [glob.glob] report an error as [False] or as no
    name; writes to the standard streams are taken to succeed. *)
Definition answer (c : os_call) : Type :=
  match c with
  | os_path_exists _ | os_path_isdir _ => bool
  | os_mkdir _ | os_rmdir _ => option unit
  | os_listdir _ => option (list str)
  | glob_glob _ => list str
  | subprocess_run _ _ _ => option CompletedProcess
  | print _ _ => unit
  | uuid4_hex => str
  end.

Inductive io (A : Type) : Type :=
| Ret (a : A)
| Call (c : os_call) (k : answer c -> io A).

Arguments Ret {A} a.

Arguments Call {A} c k.

Fixpoint io_bind {A B} (p : io A) (f : A -> io B) : io B :=
  match p with
  | Ret a => f a
  | Call c k => Call c (fun x => io_bind (k x) f)
  end.

(** ** Exceptions of the whole program *)

Inductive exception : Type :=
| Exn (e : exn)
| UnknownFilesystemException (fstype : option str)
| ImageFileExistsException (imagefile : str)
| PartfsMountInUseException (mountdir : str)
| CalledProcessError (code : Z) (cmd : list str)
| OSError
| SystemExit (code : Z).

Inductive outcome (A : Type) : Type :=
| Returned (a : A)
| Raised (e : exception).

Arguments Returned {A} a.

Arguments Raised {A} e.

(** A procedure: from the module state before to a tree of calls that
    ends with a value or an exception and the module state after. *)
Definition Proc (A : Type) : Type := Globals -> io (outcome A * Globals).

Definition pure {A} (a : A) : Proc A := fun gl => Ret (Returned a, gl).

Definition raise {A} (e : exception) : Proc A := fun gl => Ret (Raised e, gl).

Definition then_ {A B} (m : Proc A) (f : A -> Proc B) : Proc B :=
  fun gl =>
    io_bind (m gl)
      (fun x =>
         match fst x with
         | Returned a => f a (snd x)
         | Raised e => Ret (Raised e, snd x)
         end).

Declare Scope proc_scope.

Delimit Scope proc_scope with proc.

Bind Scope proc_scope with Proc.

Notation "x <- m ;; k" := (then_ m (fun x => k))
  (at level 61, m at next level, right associativity) : proc_scope.

Notation "m ;; k" := (then_ m (fun _ => k))
  (at level 61, right associativity) : proc_scope.

(** A call whose answer is returned as it is. *)
Definition call (c : os_call) : Proc (answer c) :=
  fun gl => Call c (fun a => Ret (Returned a, gl)).

(** A call that raises [OSError] when the system refuses. *)
Definition call_or_raise {A} (c : os_call) (get : answer c -> option A)
  : Proc A :=
  fun gl =>
    Call c (fun a =>
              match get a with
              | Some v => Ret (Returned v, gl)
              | None => Ret (Raised OSError, gl)
              end).

Definition path_exists (path : str) : Proc bool :=
  call (os_path_exists path).

Definition path_isdir (path : str) : Proc bool :=
  call (os_path_isdir path).

Definition mkdir (path : str) : Proc unit :=
  call_or_raise (os_mkdir path) (fun a => a).

Definition rmdir (path : str) : Proc unit :=
  call_or_raise (os_rmdir path) (fun a => a).

Definition listdir (path : str) : Proc (list str) :=
  call_or_raise (os_listdir path) (fun a => a).

Definition glob (pathname : str) : Proc (list str) :=
  call (glob_glob pathname).

Definition write (file : stream) (text : str) : Proc unit :=
  call (print file text).

Definition uuid4 : Proc str := call uuid4_hex.

(** Code of the first part: no call, no change of the module state. *)
Definition lift {A} (r : result A) : Proc A :=
  match r with
  | Ok a => pure a
  | Raise e => raise (Exn e)
  end.

(** Code on the module state alone. *)
Definition lift_py {A} (c : Py A) : Proc A :=
  fun gl => let (a, gl') := c gl in Ret (Returned a, gl').

(** [try: body / except ...: handler]: [handler e] is [None] when no
    [except] clause takes [e]. *)
Definition try_except {A} (body : Proc A)
           (handler : exception -> option (Proc A)) : Proc A :=
  fun gl =>
    io_bind (body gl)
      (fun x =>
         match fst x with
         | Returned a => Ret (Returned a, snd x)
         | Raised e =>
             match handler e with
             | Some h => h (snd x)
             | None => Ret (Raised e, snd x)
             end
         end).

(** [except subprocess.CalledProcessError as err: ...] *)
Definition except_CalledProcessError {A} (h : exception -> Proc A)
  : exception -> option (Proc A) :=
  fun err =>
    match err with
    | CalledProcessError _ _ => Some (h err)
    | _ => None
    end.

(** [with manager as v: body].  [enter] gives the manager after
    [__enter__] and the value bound to [v]; [leave] is its [__exit__],
    called whether the body returned or raised.  No [__exit__] of the
    source returns a true value, so an exception of the body goes on
    after it, unless [__exit__] raises one itself. *)
Definition with_ {S R A} (enter : Proc (S * R)) (leave : S -> Proc unit)
           (body : R -> Proc A) : Proc A :=
  fun gl =>
    io_bind (enter gl)
      (fun x =>
         match fst x with
         | Raised e => Ret (Raised e, snd x)
         | Returned (self, v) =>
             io_bind (body v (snd x))
               (fun y =>
                  io_bind (leave self (snd y))
                    (fun z =>
                       match fst z with
                       | Raised e => Ret (Raised e, snd z)
                       | Returned _ => Ret (fst y, snd z)
                       end))
         end).

(** [for x in l: body] *)
Fixpoint for_each {X} (l : list X) (body : X -> Proc unit) : Proc unit :=
  match l with
  | [] => pure tt
  | x :: l' => then_ (body x) (fun _ => for_each l' body)
  end.

(** [subprocess.run(args, check=True)] *)
Definition subprocess_run_check (args : list str) : Proc unit :=
  then_ (call_or_raise (subprocess_run args None false) (fun a => a))
        (fun done =>
           if returncode done =? 0 then pure tt
           else raise (CalledProcessError (returncode done) args)).

(** [subprocess.run(args, check=True, cwd=cwd)] *)
Definition subprocess_run_check_cwd (args : list str) (cwd : str)
  : Proc unit :=
  then_ (call_or_raise (subprocess_run args (Some cwd) false) (fun a => a))
        (fun done =>
           if returncode done =? 0 then pure tt
           else raise (CalledProcessError (returncode done) args)).

(** [subprocess.run(args, text=True, capture_output=True)] *)
Definition subprocess_run_capture (args : list str) : Proc CompletedProcess :=
  call_or_raise (subprocess_run args None true) (fun a => a).

(** [exit(code)] *)
Definition exit {A} (code : Z) : Proc A := raise (SystemExit code).

(** ** Strings of the second part *)

(** [str(n)] of an [int]. *)
Definition str_of_int (n : Z) : str :=
  list_ascii_of_string (NilZero.string_of_int (Z.to_int n)).

(** [str.isspace] on the code points of the model. *)
Definition isspace (c : ascii) : bool :=
  (in_range 9 13 c || in_range 28 32 c
   || Nat.eqb (code c) 133 || Nat.eqb (code c) 160)%bool.

Fixpoint lstrip (s : str) : str :=
  match s with
  | c :: s' => if isspace c then lstrip s' else s
  | [] => []
  end.

Definition strip (s : str) : str := rev (lstrip (rev (lstrip s))).

Definition startswith (s prefix : str) : bool :=
  match strip_prefix prefix s with
  | Some _ => true
  | None => false
  end.

Definition endswith (s suffix : str) : bool :=
  startswith (rev s) (rev suffix).

(** [sep.join(l)] *)
Fixpoint join (sep : str) (l : list str) : str :=
  match l with
  | [] => []
  | [x] => x
  | x :: l' => x ++ sep ++ join sep l'
  end.

(** [os.path.join(a, b)] of [posixpath]. *)
Definition os_path_join (a b : str) : str :=
  if startswith b "/" then b
  else match a with
       | [] => b
       | _ :: _ => if endswith a "/" then a ++ b else a ++ "/" ++ b
       end.

Definition ESC : str := [ascii_of_nat 27].

Definition CRED : str := ESC ++ "[91m".

Definition CGREEN : str := ESC ++ "[32m".

Definition CBLUE2 : str := ESC ++ "[94m".

Definition CEND : str := ESC ++ "[0m".

(** ** Messages *)

Definition print_error (err : str) : Proc unit :=
  write stderr (CRED ++ "Error: " ++ err ++ CEND).

Definition print_ok (ok : str) : Proc unit :=
  fun gl =>
    if VERBOSE gl then write stdout (CGREEN ++ ok ++ CEND) gl
    else pure tt gl.

Definition print_notice (notice : str) : Proc unit :=
  fun gl =>
    if VERBOSE gl then write stdout (CBLUE2 ++ notice ++ CEND) gl
    else pure tt gl.

(** ** The mounts *)

Record Partfs : Type := mkPartfs {
  Partfs_diskimage : str;
  Partfs_mountdir : str
}.

Definition Partfs_init (diskimage mountdir : str) : Proc Partfs :=
  (there <- path_exists mountdir ;;
   (if negb there then mkdir mountdir
    else pure tt) ;;
   names <- listdir mountdir ;;
   match names with
   | _ :: _ => raise (PartfsMountInUseException mountdir)
   | [] => pure (mkPartfs diskimage mountdir)
   end)%proc.

Definition Partfs_enter (self : Partfs) : Proc (list str) :=
  (isdir <- path_isdir (Partfs_mountdir self) ;;
   (if negb isdir
    then mkdir (Partfs_mountdir self)
    else pure tt) ;;
   try_except
     (subprocess_run_check
        ["partfs" : str; "-o" : str; "dev=" ++ Partfs_diskimage self;
         Partfs_mountdir self])
     (except_CalledProcessError
        (fun err => print_error "Partfs failed." ;; raise err)) ;;
   print_ok ("Partfs " ++ Partfs_mountdir self ++ " mounted.") ;;
   found <- glob (os_path_join (Partfs_mountdir self) "p[0-9]*") ;;
   pure (sorted found))%proc.

Definition Partfs_exit (self : Partfs) : Proc unit :=
  (try_except
     (subprocess_run_check
        ["fusermount" : str; "-u" : str; Partfs_mountdir self])
     (except_CalledProcessError
        (fun err => print_error "Unmount failed." ;; raise err)) ;;
   rmdir (Partfs_mountdir self) ;;
   print_ok ("Partfs " ++ Partfs_mountdir self ++ " unmounted."))%proc.

(** [device] is [None] until [__enter__] has found one. *)
Record Losetup : Type := mkLosetup {
  Losetup_diskimage : str;
  device : option str
}.

Definition Losetup_init (diskimage : str) : Losetup :=
  mkLosetup diskimage None.

Definition no_unused_loop_device : str :=
  "losetup: cannot find an unused loop device: No such device".

(** [__enter__] returns the object, with its [device], and the value
    bound by [with].  A [device] still [None] cannot be an argument of
    [subprocess.run], which raises [TypeError]. *)
Definition Losetup_enter (self : Losetup) : Proc (Losetup * list str) :=
  (losetup_f <- subprocess_run_capture ["losetup" : str; "-f" : str] ;;
   dev <-
     (if returncode losetup_f =? 0
      then pure (Some (strip (stdout_text losetup_f)))
      else if startswith (stderr_text losetup_f) no_unused_loop_device
           then subprocess_run_check
                  ["mknod" : str; "/dev/loop0" : str; "b" : str; "7" : str;
                   "0" : str] ;;
                pure (Some ("/dev/loop0" : str))
           else (if returncode losetup_f =? 0 then pure tt
                 else raise (CalledProcessError (returncode losetup_f)
                               ["losetup" : str; "-f" : str])) ;;
                pure None) ;;
   match dev with
   | None => raise (Exn TypeError)
   | Some d =>
       try_except
         (subprocess_run_check
            ["losetup" : str; "-P" : str; d; Losetup_diskimage self])
         (except_CalledProcessError
            (fun err =>
               print_error ("Losetup " ++ fmt dev ++ " failed.") ;;
               raise err)) ;;
       print_ok ("Losetup " ++ fmt dev ++ " created.") ;;
       found <- glob (os_path_join d "p[0-9]*") ;;
       pure (mkLosetup (Losetup_diskimage self) dev, found)
   end)%proc.

Definition Losetup_exit (self : Losetup) : Proc unit :=
  ((if truthy (device self)
    then try_except
           (subprocess_run_check
              ["losetup" : str; "-d" : str; fmt (device self)])
           (except_CalledProcessError
              (fun err =>
                 print_error ("Losetup failed to free device: "
                              ++ fmt (device self)) ;;
                 raise err))
    else pure tt) ;;
   print_ok ("Losetup " ++ fmt (device self) ++ " freed."))%proc.

Record Mount : Type := mkMount {
  Mount_source : str;
  Mount_target : str
}.

Definition Mount_enter (self : Mount) : Proc str :=
  (isdir <- path_isdir (Mount_target self) ;;
   (if negb isdir
    then mkdir (Mount_target self)
    else pure tt) ;;
   try_except
     (subprocess_run_check
        ["mount" : str; Mount_source self; Mount_target self])
     (except_CalledProcessError
        (fun err => print_error "Mount failed." ;; raise err)) ;;
   print_ok ("Mount " ++ Mount_target self ++ " created.") ;;
   pure (Mount_target self))%proc.

Definition Mount_exit (self : Mount) : Proc unit :=
  (try_except
     (subprocess_run_check ["umount" : str; Mount_target self])
     (except_CalledProcessError
        (fun err =>
           print_error ("Unmount failed to free target: "
                        ++ Mount_target self) ;;
           raise err)) ;;
   rmdir (Mount_target self) ;;
   print_ok ("Mount " ++ Mount_target self ++ " freed."))%proc.

(** [with Mount(source, target) as mntdir: body] *)
Definition with_Mount {A} (source target : str) (body : str -> Proc A)
  : Proc A :=
  with_ (mntdir <- Mount_enter (mkMount source target) ;;
         pure (mkMount source target, mntdir))%proc
        Mount_exit body.

(** ** Methods of [Partition] *)

Definition option_str_eqb (o : option str) (s : str) : bool :=
  match o with
  | Some x => str_eqb x s
  | None => false
  end.

Definition is_mountable (self : Partition) : bool :=
  if option_str_eqb (fstype self) "linux-swap" then false else true.

Definition try_copy_to (self : Partition) (to_dir : str) : Proc unit :=
  (isdir <- path_isdir (filename self) ;;
   if isdir then
     print_notice ("Copy -rp files from '" ++ filename self ++ "' to '"
                   ++ to_dir ++ "'...") ;;
     try_except
       (subprocess_run_check
          ["cp" : str; "-rp" : str; filename self; to_dir])
       (except_CalledProcessError
          (fun err => print_error "Copying files failed." ;; raise err)) ;;
     print_ok ("Copying from '" ++ filename self ++ "' succeeded.")
   else if endswith (filename self) ".tar" then
     print_notice ("Untar files from '" ++ filename self ++ "' to '"
                   ++ to_dir ++ "'...") ;;
     try_except
       (subprocess_run_check
          ["tar" : str; "--same-owner" : str; "-xf" : str; filename self;
           "-C" : str; to_dir])
       (except_CalledProcessError
          (fun err => print_error "Untar failed." ;; raise err)) ;;
     print_ok ("Untar from '" ++ filename self ++ "' succeeded.")
   else if endswith (filename self) ".tar.gz" then
     print_notice ("Untar gzip files from '" ++ filename self ++ "' to '"
                   ++ to_dir ++ "'...") ;;
     try_except
       (subprocess_run_check
          ["tar" : str; "--same-owner" : str; "-xzf" : str; filename self;
           "-C" : str; to_dir])
       (except_CalledProcessError
          (fun err => print_error "Untar failed." ;; raise err)) ;;
     print_ok ("Untar from '" ++ filename self ++ "' succeeded.")
   else pure tt)%proc.

(** ** The commands on the image file *)

Definition _try_dd (imagefile : str) (size : Z) (ovewrite : bool)
  : Proc unit :=
  (there <- path_exists imagefile ;;
   if (there && negb ovewrite)%bool
   then raise (ImageFileExistsException imagefile)
   else
     print_notice ("Executing DD, allocating " ++ str_of_int size
                   ++ " bytes...") ;;
     try_except
       (subprocess_run_check
          ["dd" : str; "if=/dev/null" : str; "of=" ++ imagefile;
           "bs=1" : str; "count=0" : str; "seek=" ++ str_of_int size])
       (except_CalledProcessError
          (fun err => print_error "DD failed." ;; raise err)) ;;
     print_ok "DD succeeded.")%proc.

Definition _try_parted (imagefile : str) (parted : list str) : Proc unit :=
  (print_notice "Executing parted script:" ;;
   print_notice (join [newline] parted) ;;
   try_except
     (subprocess_run_check
        (["parted" : str; "--script" : str; imagefile; "--" : str]
           ++ parted ++ ["print" : str]))
     (except_CalledProcessError
        (fun err => print_error "Parted failed." ;; raise err)) ;;
   print_ok "Parted succeeded.")%proc.

(** The dictionary [cmds] of [_try_mkfs]. *)
Definition cmds (dirname : str) : list (str * list str) :=
  [("fat32" : str, ["mkfs.fat" : str; "-F" : str; "32" : str; dirname]);
   ("ext4" : str, ["mkfs.ext4" : str; "-F" : str; dirname]);
   ("ext2" : str, ["mkfs.ext2" : str; dirname]);
   ("linux-swap" : str, ["mkswap" : str; dirname])].

Fixpoint dict_get {V} (d : list (str * V)) (key : option str) : option V :=
  match d with
  | [] => None
  | (k, v) :: d' => if option_str_eqb key k then Some v else dict_get d' key
  end.

Definition _try_mkfs (dirname : str) (fstype : option str) : Proc unit :=
  match dict_get (cmds dirname) fstype with
  | None => raise (UnknownFilesystemException fstype)
  | Some cmd =>
      (print_notice ("Executing mkfs " ++ fmt fstype ++ " for " ++ dirname
                     ++ "...") ;;
       try_except
         (subprocess_run_check cmd)
         (except_CalledProcessError
            (fun err => print_error "Mkfs failed." ;; raise err)) ;;
       print_ok "Mkfs succeeded.")%proc
  end.

(** ** The image file *)

Record Imagefile : Type := mkImagefile { Imagefile_filename : str }.

Definition make_empty (self : Imagefile) (total_size : Z) (overwrite : bool)
  : Proc unit :=
  _try_dd (Imagefile_filename self) total_size overwrite.

Definition Imagefile_partition (self : Imagefile)
           (partitions : PartitionCollection) : Proc unit :=
  _try_parted (Imagefile_filename self) (get_parted partitions).

Record ImagefileMounted : Type := mkImagefileMounted {
  Mounted_imagefile : Imagefile;
  Mounted_partitions : PartitionCollection;
  Mounted_use_partfs : bool;
  Mounted_partfs_mount_dir : str
}.

(** The object behind [self._mount]. *)
Inductive mount_object : Type :=
| a_Partfs (m : Partfs)
| a_Losetup (m : Losetup).

(** [__enter__]: the mount it made, and the pairs of [zip]. *)
Definition ImagefileMounted_enter (self : ImagefileMounted)
  : Proc (mount_object * list (Partition * str)) :=
  (if Mounted_use_partfs self
   then
     _mount <- Partfs_init (Imagefile_filename (Mounted_imagefile self))
                           (Mounted_partfs_mount_dir self) ;;
     _partition_dirs <- Partfs_enter _mount ;;
     pure (a_Partfs _mount,
           combine (_partitions (Mounted_partitions self)) _partition_dirs)
   else
     entered <- Losetup_enter
                  (Losetup_init (Imagefile_filename (Mounted_imagefile self))) ;;
     pure (a_Losetup (fst entered),
           combine (_partitions (Mounted_partitions self)) (snd entered)))%proc.

(** [__exit__] of the object behind [self._mount]. *)
Definition mount_object_exit (_mount : mount_object) : Proc unit :=
  match _mount with
  | a_Partfs m => Partfs_exit m
  | a_Losetup m => Losetup_exit m
  end.

Definition ImagefileMounted_exit (_mount : mount_object) : Proc unit :=
  mount_object_exit _mount.

Definition Imagefile_mount (self : Imagefile)
           (partitions : PartitionCollection) (use_partfs : bool)
           (partfs_mount_dir : str) : ImagefileMounted :=
  mkImagefileMounted self partitions use_partfs partfs_mount_dir.

(** ** The creator *)

(** [PartitionCollection.from_directory(from_dir)], with its [glob]. *)
Definition from_directory_of (from_dir : str) : Proc PartitionCollection :=
  (listing <- glob (os_path_join from_dir "partition[0-9][0-9]?*") ;;
   lift (from_directory listing))%proc.

Definition try_create_image (rootdir imagefilename : str) (overwrite : bool)
           (use_partfs : bool) (partfs_mount_dir mount_root_dir : str)
  : Proc unit :=
  (write stdout ("Partitions directory: " ++ rootdir) ;;
   write stdout ("Image file to create: " ++ imagefilename) ;;
   partitions <- from_directory_of rootdir ;;
   total_size <- lift (get_total_size partitions) ;;
   let imagefile := mkImagefile imagefilename in
   make_empty imagefile total_size overwrite ;;
   Imagefile_partition imagefile partitions ;;
   with_ (ImagefileMounted_enter
            (Imagefile_mount imagefile partitions use_partfs partfs_mount_dir))
         ImagefileMounted_exit
         (fun partition_dirs =>
            for_each partition_dirs
              (fun pd =>
                 _try_mkfs (snd pd) (fstype (fst pd)) ;;
                 if is_mountable (fst pd)
                 then with_Mount (snd pd) mount_root_dir
                        (fun mntdir => try_copy_to (fst pd) mntdir)
                 else pure tt)))%proc.

(** [subprocess.list2cmdline] *)
Definition quote_char : ascii := ascii_of_nat 34.

Definition backslash : ascii := ascii_of_nat 92.

Fixpoint quote_arg (arg : str) (bs_buf : str) (needquote : bool) : str :=
  match arg with
  | [] => bs_buf ++ (if needquote then bs_buf ++ [quote_char] else [])
  | c :: arg' =>
      if Ascii.eqb c backslash then quote_arg arg' (c :: bs_buf) needquote
      else if Ascii.eqb c quote_char
           then bs_buf ++ bs_buf ++ [backslash; quote_char]
                  ++ quote_arg arg' [] needquote
           else bs_buf ++ c :: quote_arg arg' [] needquote
  end.

Definition list2cmdline_arg (arg : str) : str :=
  let needquote :=
    (existsb (is_char " ") arg || existsb (Ascii.eqb (ascii_of_nat 9)) arg
     || match arg with [] => true | _ :: _ => false end)%bool in
  (if needquote then [quote_char] else []) ++ quote_arg arg [] needquote.

Definition list2cmdline (seq : list str) : str :=
  join " " (map list2cmdline_arg seq).

(** ** The command line

    [args] is what [parse_cli_arguments] returned. *)
Record Namespace : Type := mkNamespace {
  args_imagefile : str;
  args_partitions_dir : str;
  args_force : bool;
  args_use_partfs : bool;
  args_verbose : bool
}.

Definition default_mount_root_dir : str := "/mnt/_temp_fs".

Definition main (args : Namespace) : Proc unit :=
  (lift_py (_set_verbose (args_verbose args)) ;;
   isdir <- path_isdir (args_partitions_dir args) ;;
   (if negb isdir
    then print_error ("Directory '" ++ args_partitions_dir args
                      ++ "' does not exist") ;;
         exit 1
    else pure tt) ;;
   try_except
     (hex <- uuid4 ;;
      try_create_image (args_partitions_dir args) (args_imagefile args)
        (args_force args) (args_use_partfs args)
        ("/mnt/_tmp_partfs" ++ hex) default_mount_root_dir)
     (fun err =>
        match err with
        | ImageFileExistsException imagefile =>
            Some (print_error ("Image file '" ++ imagefile
                               ++ "' already exists, use `-f` to overwrite"))
        | Exn PartitionsNotFoundException =>
            Some (print_error ("Directory '" ++ args_partitions_dir args
                               ++ "' does not contain partitions.") ;;
                  exit 1)
        | Exn (PartitionSizeParseException size) =>
            Some (print_error ("Unable to parse disk size " ++ fmt size) ;;
                  exit 1)
        | Exn (PartitionParseException filename) =>
            Some (print_error ("Unable to parse partition file name: "
                               ++ filename) ;;
                  exit 1)
        | CalledProcessError code cmd =>
            Some (print_error ("Return code: " ++ str_of_int code
                               ++ ", Command: " ++ list2cmdline cmd) ;;
                  exit 1)
        | _ => None
        end))%proc.

(** ** The mounter ([diskimgmounter.py]) *)

(** [l[i]]: a negative index counts from the end; [None] stands for
    [IndexError]. *)
Definition py_index {A} (l : list A) (i : Z) : option A :=
  let n := Z.of_nat (List.length l) in
  if ((0 <=? i) && (i <? n))%bool then nth_error l (Z.to_nat i)
  else if ((- n <=? i) && (i <? 0))%bool then nth_error l (Z.to_nat (n + i))
       else None.

(** [range(0, stop)] *)
Definition range (stop : nat) : list Z := map Z.of_nat (seq 0 stop).

Module diskimgmounter.

(** The loop of [try_mount_image], with the [yield] at its end: [block]
    is the body of the [with] statement that uses the generator.
    [cm.enter_context(Mount(part, mntdir))] followed by the rest is
    [with Mount(part, mntdir)] around the rest: an [ExitStack] leaves its
    managers last first, each of them whatever the ones before did, and
    the last exception raised goes on, as with nested [with]
    statements. *)
Fixpoint mount_each {A} (partfs : list str) (mount_root_dir : str)
         (partitions : list Z) (block : Proc A) : Proc A :=
  match partitions with
  | [] => block
  | pindex :: rest =>
      match py_index partfs (pindex - 1) with
      | None => mount_each partfs mount_root_dir rest block
      | Some part =>
          let mntdir := mount_root_dir ++ "/p" ++ str_of_int pindex in
          (there <- path_exists mntdir ;;
           (if negb there then mkdir mntdir else pure tt) ;;
           with_Mount part mntdir
             (fun _ => mount_each partfs mount_root_dir rest block))%proc
      end
  end.

(** [cm.enter_context(Partfs(...))] or [cm.enter_context(Losetup(...))]:
    the object, and the value of its [__enter__]. *)
Definition enter_image (imagefilename : str) (use_partfs : bool)
           (partfs_mount_dir : str) : Proc (mount_object * list str) :=
  (if use_partfs
   then m <- Partfs_init imagefilename partfs_mount_dir ;;
        dirs <- Partfs_enter m ;;
        pure (a_Partfs m, dirs)
   else entered <- Losetup_enter (Losetup_init imagefilename) ;;
        pure (a_Losetup (fst entered), snd entered))%proc.

Definition try_mount_image {A} (imagefilename : str) (partitions : list Z)
           (mount_root_dir : str) (use_partfs : bool)
           (partfs_mount_dir : str) (block : Proc A) : Proc A :=
  (there <- path_exists mount_root_dir ;;
   (if negb there then mkdir mount_root_dir else pure tt) ;;
   with_ (enter_image imagefilename use_partfs partfs_mount_dir)
         mount_object_exit
         (fun partfs =>
            mount_each partfs mount_root_dir
              match partitions with
              | [] => range (List.length partfs)
              | _ :: _ => partitions
              end
              block))%proc.

(** What [parse_cli_arguments] returned. *)
Record Namespace : Type := mkNamespace {
  args_imagefile : str;
  args_cmd : list str;
  args_partitions : list Z;
  args_use_partfs : bool;
  args_verbose : bool
}.

Definition mount_root_dir : str := "/mnt".

Definition main (args : Namespace) : Proc unit :=
  (lift_py (_set_verbose (args_verbose args)) ;;
   try_except
     (hex <- uuid4 ;;
      try_mount_image (args_imagefile args) (args_partitions args)
        mount_root_dir (args_use_partfs args) ("/mnt/_tmp_partfs" ++ hex)
        (try_except
           (subprocess_run_check_cwd (args_cmd args) mount_root_dir)
           (except_CalledProcessError
              (fun err =>
                 print_error "Execution of your script failed." ;;
                 raise err))))
     (except_CalledProcessError (fun err => exit 1)))%proc.

End diskimgmounter.

(** ** Runs

    A world answers every call from its state.  A run of a procedure in
    a world gives the outcome, the module state, the calls made with
    their answers, in order, and the state the world is left in. *)

Record World : Type := mkWorld {
  state : Type;
  respond : forall c : os_call, state -> answer c * state
}.

Inductive event : Type := Ev (c : os_call) (a : answer c).

Fixpoint interp (W : World) {A} (p : io A) (s : state W)
  : A * list event * state W :=
  match p with
  | Ret a => (a, [], s)
  | Call c k =>
      let r := interp W (k (fst (respond W c s))) (snd (respond W c s)) in
      (fst (fst r), Ev c (fst (respond W c s)) :: snd (fst r), snd r)
  end.

Definition run (W : World) {A} (m : Proc A) (gl : Globals) (s : state W)
  : (outcome A * Globals) * list event * state W :=
  interp W (m gl) s.

Definition outcome_of {W : World} {A}
           (r : (outcome A * Globals) * list event * state W) : outcome A :=
  fst (fst (fst r)).

Definition globals_of {W : World} {A}
           (r : (outcome A * Globals) * list event * state W) : Globals :=
  snd (fst (fst r)).

Definition trace_of {W : World} {A}
           (r : (outcome A * Globals) * list event * state W) : list event :=
  snd (fst r).

(** The command of an event, when it is a [subprocess.run]. *)
Definition argv (e : event) : option (list str) :=
  match e with
  | Ev (subprocess_run args _ _) _ => Some args
  | Ev _ _ => None
  end.

Fixpoint commands (t : list event) : list (list str) :=
  match t with
  | [] => []
  | e :: t' =>
      match argv e with
      | Some args => args :: commands t'
      | None => commands t'
      end
  end.

(** The command of the event ran and exited with status 0. *)
Definition succeeded (e : event) : bool :=
  match e with
  | Ev c a =>
      match c return answer c -> bool with
      | subprocess_run _ _ _ =>
          fun a => match a with
                   | Some done => returncode done =? 0
                   | None => false
                   end
      | _ => fun _ => false
      end a
  end.

(** What is written to a stream. *)
Fixpoint written (file : stream) (t : list event) : list str :=
  match t with
  | [] => []
  | Ev (print f text) _ :: t' =>
      match f, file with
      | stdout, stdout | stderr, stderr => text :: written file t'
      | _, _ => written file t'
      end
  | _ :: t' => written file t'
  end.

(** Every procedure satisfies [Q] in every world: [Q] is told the
    outcome and the calls. *)
Definition sat {A} (m : Proc A) (Q : outcome A -> list event -> Prop)
  : Prop :=
  forall (W : World) (gl : Globals) (s : state W),
    Q (outcome_of (run W m gl s)) (trace_of (run W m gl s)).

(** * Vocabulary of the properties *)

(** What a successful match looks like, without the order of the search:
    [matches whole r s s' g g'] reads "[r] consumes [s] down to [s'] and
    turns the groups [g] into [g']". *)
Inductive matches (whole : str)
  : regex -> str -> str -> groups -> groups -> Prop :=
| M_Lit l s s' g :
    s = l ++ s' -> matches whole (Lit l) s s' g g
| M_Cls p c s s' g :
    s = c :: s' -> p c = true -> matches whole (Cls p) s s' g g
| M_Star p a s s' g :
    s = a ++ s' -> forallb p a = true -> matches whole (Star p) s s' g g
| M_Plus p c a s s' g :
    s = c :: a ++ s' -> p c = true -> forallb p a = true ->
    matches whole (Plus p) s s' g g
| M_OptSome r s s' g g' :
    matches whole r s s' g g' -> matches whole (Opt r) s s' g g'
| M_OptNone r s g :
    matches whole (Opt r) s s g g
| M_Seq r1 r2 s s1 s2 g g1 g2 :
    matches whole r1 s s1 g g1 -> matches whole r2 s1 s2 g1 g2 ->
    matches whole (Seq r1 r2) s s2 g g2
| M_AltL r1 r2 s s' g g' :
    matches whole r1 s s' g g' -> matches whole (Alt r1 r2) s s' g g'
| M_AltR r1 r2 s s' g g' :
    matches whole r2 s s' g g' -> matches whole (Alt r1 r2) s s' g g'
| M_Group name r s s' g g' :
    matches whole r s s' g g' ->
    matches whole (Group name r) s s' g ((name, captured s s') :: g')
| M_Bos s g :
    List.length s = List.length whole -> matches whole Bos s s g g
| M_Eos s g :
    s = [] \/ s = [newline] -> matches whole Eos s s g g.

Definition str_le (a b : str) : Prop := str_leb a b = true.

(** A character of a unit: neither a digit, nor a dot, nor a newline. *)
Definition unit_char (c : ascii) : bool :=
  (dot c && negb (digit_or_dot c))%bool.

Definition not_p (c : ascii) : bool := negb (is_char "p" c).

(** The truncation of [number * mult] in exact decimal arithmetic. *)
Definition exact_truncation (number : str) (mult : Z) : Z :=
  let (ip, rest) := split_at_dot number in
  let fp := match rest with Some f => f | None => [] end in
  digits_value 0 (ip ++ fp) * mult / 10 ^ Z.of_nat (List.length fp).

(** The descriptor the builder gives file number [i] of [n], in closed
    form: [ms] are the matches of the files against [short_format]. *)
Definition start_token (ms : list groups) (i : nat) : option str :=
  match i with
  | O => Some first_partition_start
  | S j => group (nth j ms []) "partition_end"
  end.

Definition end_token (n : nat) (ms : list groups) (i : nat) : option str :=
  if Nat.eqb (S i) n then Some ("100%" : str)
  else group (nth i ms []) "partition_end".

Definition table_type (m : groups) : str :=
  match group m "msdos" with
  | Some _ => "msdos"
  | None => "gpt"
  end.

Definition short_fragment (n : nat) (ms : list groups) (i : nat) : str :=
  let m := nth i ms [] in
  match i with
  | O =>
      "unit s mklabel " ++ table_type m ++ " mkpart primary "
        ++ fmt (group m "fstype") ++ " " ++ fmt (start_token ms i) ++ " "
        ++ fmt (end_token n ms i) ++ " set 1 boot on"
  | S _ =>
      "mkpart primary " ++ fmt (group m "fstype") ++ " "
        ++ fmt (start_token ms i) ++ " " ++ fmt (end_token n ms i)
  end.

Definition short_descriptor (files : list str) (ms : list groups) (i : nat)
  : Partition :=
  mkPartition (nth i files []) (short_fragment (List.length files) ms i)
              (group (nth i ms []) "fstype").

Inductive format : Type := LongFormat | ShortFormat.

Definition pattern_of (fm : format) : regex :=
  match fm with
  | LongFormat => long_format
  | ShortFormat => short_format
  end.

(** The format the first file selects: long before short. *)
Definition selected_format (files : list str) : option format :=
  match files with
  | [] => None
  | f0 :: _ =>
      match re_match long_format f0, re_match short_format f0 with
      | Some _, _ => Some LongFormat
      | None, Some _ => Some ShortFormat
      | None, None => None
      end
  end.

(** The loop of the builder of a format, over a whole list of files. *)
Definition builder_loop (fm : format) (files : list str)
  : result (list Partition) :=
  match fm with
  | LongFormat => long_loop files []
  | ShortFormat =>
      short_loop (Z.of_nat (List.length files) - 1) 0 files
                 (Some first_partition_start) []
  end.

(** A file goes through the loop of a format without an exception. *)
Definition parses (fm : format) (f : str) : Prop :=
  match fm with
  | LongFormat =>
      exists m p m', re_match long_format f = Some m
                     /\ group m "parted" = Some p
                     /\ re_match long_format_fstype p = Some m'
  | ShortFormat => exists m, re_match short_format f = Some m
  end.

(** ** Example inputs *)

(** The example of the README: two files in short format. *)
Definition readme_short : list str :=
  ["partition01_8MiB_fat32" : str; "partition02_16GiB_ext4" : str].

Definition readme_short_matches : list groups :=
  Eval vm_compute in
    map (fun f => match re_match short_format f with
                  | Some m => m
                  | None => []
                  end) readme_short.

(** The example of the README: two files in long format, 256MiB. *)
Definition readme_long : list str :=
  ["partition01 -- dd 256MiB -- parted mklabel msdos mkpart primary fat32 1 8MiB"
   : str;
   "partition02 -- parted mkpart primary ext4 8MiB 100%" : str].

(** A short-format set whose second file is written in long format. *)
Definition mixed_set : list str :=
  ["partition01_8MiB_fat32" : str;
   "partition02 -- parted mkpart primary ext4 8MiB 100%" : str].

(** Two short-format files in a directory whose name holds [ -- dd 1GiB]:
    the last file declares the end 16GiB, the image size is 1GiB. *)
Definition dd_in_path : list str :=
  ["img -- dd 1GiB x/partition01_8MiB_fat32" : str;
   "img -- dd 1GiB x/partition02_16GiB_ext4" : str].

(** ** More vocabulary of the names and sizes *)

(** The longest prefix of a class, and what is left. *)
Fixpoint span (p : ascii -> bool) (s : str) : str * str :=
  match s with
  | [] => ([], [])
  | c :: s' =>
      if p c then let (a, b) := span p s' in (c :: a, b) else ([], s)
  end.

(** [_parse_size] read as a scanner: the leading digits and dots, then the
    unit up to the end of the line, then at most one final newline. *)
Definition parse_size_by_spans (size : str) : result Z :=
  let (number, rest) := span digit_or_dot size in
  let (unit_text, tail) := span dot rest in
  match number, tail with
  | _ :: _, [] | _ :: _, [_] =>
      num <- float_of_str number ;;
      match lookup units (lower unit_text) with
      | Some mult => int_of_float (float_mul num mult)
      | None => Raise (PartitionSizeParseException None)
      end
  | _, _ => Raise (PartitionSizeParseException None)
  end.

(** What a descriptor of the long format holds. *)
Definition long_descriptor (p : Partition) : Prop :=
  exists before tail pre fs st en,
    filename p = before ++ "-- parted " ++ parted p ++ tail
    /\ (tail = [] \/ tail = [newline])
    /\ parted p = pre ++ " " ++ fs ++ " " ++ st ++ " " ++ en
    /\ fs <> [] /\ forallb not_space fs = true
    /\ st <> [] /\ forallb not_space st = true
    /\ en <> [] /\ forallb not_space en = true
    /\ fstype p = Some fs.






(** ** Vocabulary of the runs *)

(** A command that could not be started, or exited with another status
    than 0. *)
Definition system_failure (e : exception) : Prop :=
  match e with
  | CalledProcessError code _ => code <> 0
  | OSError => True
  | _ => False
  end.

(** The outcome is a return, or an exception among [allowed]. *)
Definition raises_only {A} (allowed : exception -> Prop) (o : outcome A)
  : Prop :=
  match o with
  | Returned _ => True
  | Raised e => allowed e
  end.

(** The exceptions [try_create_image] can end with. *)
Definition creation_failure (imagefilename : str) (overwrite : bool)
           (use_partfs : bool) (partfs_mount_dir : str) (e : exception)
  : Prop :=
  match e with
  | Exn IndexError | Exn PartitionsNotFoundException
  | Exn (PartitionParseException _) | Exn (PartitionSizeParseException None)
  | Exn ValueError | Exn OverflowError => True
  | Exn (PartitionSizeParseException (Some _)) | Exn TypeError => False
  | UnknownFilesystemException fstype =>
      dict_get (cmds []) fstype = None
  | ImageFileExistsException imagefile =>
      imagefile = imagefilename /\ overwrite = false
  | PartfsMountInUseException mountdir =>
      mountdir = partfs_mount_dir /\ use_partfs = true
  | CalledProcessError code _ => code <> 0
  | OSError => True
  | SystemExit _ => False
  end.

(** The exceptions [main] lets through, and its one exit status. *)
Definition main_failure (e : exception) : Prop :=
  match e with
  | SystemExit code => code = 1
  | Exn IndexError | Exn ValueError | Exn OverflowError => True
  | UnknownFilesystemException fstype => dict_get (cmds []) fstype = None
  | PartfsMountInUseException _ => True
  | OSError => True
  | _ => False
  end.

(** The body of the loop of [try_create_image]. *)
Definition create_partition (mount_root_dir : str) (pd : Partition * str)
  : Proc unit :=
  (_try_mkfs (snd pd) (fstype (fst pd)) ;;
   if is_mountable (fst pd)
   then with_Mount (snd pd) mount_root_dir
          (fun mntdir => try_copy_to (fst pd) mntdir)
   else pure tt)%proc.

(** The answer to the first [glob.glob] of a run, and to its first
    [os.path.exists]. *)
Fixpoint first_glob (t : list event) : option (list str) :=
  match t with
  | [] => None
  | Ev c a :: t' =>
      match c return answer c -> option (list str) with
      | glob_glob _ => fun found => Some found
      | _ => fun _ => first_glob t'
      end a
  end.

Fixpoint first_exists (t : list event) : option bool :=
  match t with
  | [] => None
  | Ev c a :: t' =>
      match c return answer c -> option bool with
      | os_path_exists _ => fun there => Some there
      | _ => fun _ => first_exists t'
      end a
  end.

(** The image size the listed names resolve to. *)
Definition resolved_size (listing : list str) : result Z :=
  bind (from_directory listing) get_total_size.

Definition dd_command (imagefile : str) (size : Z) : list str :=
  ["dd" : str; "if=/dev/null" : str; "of=" ++ imagefile; "bs=1" : str;
   "count=0" : str; "seek=" ++ str_of_int size].


(** Every command of the run exited with status 0, the query for a free
    loop device apart, which is run without [check]. *)
Definition checked (e : event) : Prop :=
  match argv e with
  | None => True
  | Some args =>
      succeeded e = true \/ args = ["losetup" : str; "-f" : str]
  end.

Definition all_succeeded (t : list event) : Prop := Forall checked t.






(** What [__exit__] of the mounted image runs. *)
Definition detach_commands (m : mount_object) : list (list str) :=
  match m with
  | a_Partfs m => [["fusermount" : str; "-u" : str; Partfs_mountdir m]]
  | a_Losetup m =>
      match device m with
      | Some (c :: dev) => [["losetup" : str; "-d" : str; c :: dev]]
      | _ => []
      end
  end.

(** [try_create_image] from the mount on. *)
Definition fill_image (imagefile : Imagefile)
           (partitions : PartitionCollection) (use_partfs : bool)
           (partfs_mount_dir mount_root_dir : str) : Proc unit :=
  with_ (ImagefileMounted_enter
           (Imagefile_mount imagefile partitions use_partfs partfs_mount_dir))
        ImagefileMounted_exit
        (fun partition_dirs =>
           for_each partition_dirs (create_partition mount_root_dir)).

(** The arguments of a command the program runs on its own account,
    which it does with no working directory given. *)
Definition own_argv (e : event) : option (list str) :=
  match e with
  | Ev (subprocess_run args None _) _ => Some args
  | Ev _ _ => None
  end.

(** The command that undoes what a command did, when the command
    succeeded and is one of the three that attach: [mount], [partfs] and
    [losetup -P] on a device with a name. *)
Definition release_of (e : event) : option (list str) :=
  match own_argv e with
  | Some [m; _; target] =>
      if (str_eqb m "mount" && succeeded e)%bool
      then Some ["umount" : str; target]
      else None
  | Some [m; o; d; x] =>
      if (str_eqb m "partfs" && str_eqb o "-o" && succeeded e)%bool
      then Some ["fusermount" : str; "-u" : str; x]
      else if (str_eqb m "losetup" && str_eqb o "-P" && succeeded e)%bool
           then match d with
                | [] => None
                | _ :: _ => Some ["losetup" : str; "-d" : str; d]
                end
           else None
  | _ => None
  end.

(** Every command of [t] that attached is followed in [t] by the command
    that releases, on the same target, or that command is among
    [later]. *)
Fixpoint released_in (later : list (list str)) (t : list event) : Prop :=
  match t with
  | [] => True
  | e :: t' =>
      match release_of e with
      | Some cmd => In cmd (commands t' ++ later)
      | None => True
      end
      /\ released_in later t'
  end.

Definition released (t : list event) : Prop := released_in [] t.

(** No command of [t] attaches. *)
Definition quiet (t : list event) : Prop :=
  Forall (fun e => release_of e = None) t.


(** The numbers the loop goes through: those given, or all it can
    count. *)
Definition effective (partitions : list Z) (partfs : list str) : list Z :=
  match partitions with
  | [] => range (List.length partfs)
  | _ :: _ => partitions
  end.




(** The command of the user, run in the directory of the mounts. *)
Definition user_command (args : diskimgmounter.Namespace) : Proc unit :=
  try_except
    (subprocess_run_check_cwd (diskimgmounter.args_cmd args)
       diskimgmounter.mount_root_dir)
    (except_CalledProcessError
       (fun err =>
          then_ (print_error "Execution of your script failed.")
                (fun _ => raise err))).

(** ** Example worlds

    A world without state: the directory of the partitions holds the
    names [listing], the image file is there or not, no mount point
    exists yet, every command succeeds, and the mounted image shows two
    partitions. *)
Definition example_respond (listing : list str) (image_exists : bool)
           (c : os_call) (s : unit) : answer c * unit :=
  match c return answer c * unit with
  | os_path_exists path => ((image_exists && negb (startswith path "/mnt"))%bool, s)
  | os_path_isdir path => (negb (startswith path "/mnt"), s)
  | os_mkdir _ => (Some tt, s)
  | os_rmdir _ => (Some tt, s)
  | os_listdir _ => (Some [], s)
  | glob_glob pathname =>
      (if startswith pathname "/mnt"
       then [os_path_join (captured pathname "p[0-9]*") "p2";
             os_path_join (captured pathname "p[0-9]*") "p1"]
       else map (os_path_join ".") listing, s)
  | subprocess_run _ _ _ => (Some (mkCompleted 0 [] []), s)
  | print _ _ => (tt, s)
  | uuid4_hex => ("0f" : str, s)
  end.

Definition example_world (listing : list str) (image_exists : bool) : World :=
  mkWorld unit (example_respond listing image_exists).

Definition example_args : Namespace :=
  mkNamespace "disk.img" "." false true false.


(** * Properties *)

(** ** Strings and character classes *)

Lemma str_eqb_eq (a b : str) : str_eqb a b = true -> a = b.
Proof.
  revert b. induction a as [|x a IH]; intros [|y b]; simpl;
    try discriminate; auto.
  intros H. apply andb_true_iff in H as [H1 H2].
  apply Ascii.eqb_eq in H1. f_equal; auto.
Qed.

Lemma is_char_eq (a : ascii) (c : ascii) :
  is_char (String a EmptyString) c = true -> c = a.
Proof. simpl. apply Ascii.eqb_eq. Qed.

Lemma forallb_impl (p q : ascii -> bool) (s : str) :
  (forall c, p c = true -> q c = true) ->
  forallb p s = true -> forallb q s = true.
Proof.
  intros Hpq. induction s as [|c s IH]; simpl; [reflexivity|].
  intros H. apply andb_true_iff in H as [H1 H2].
  now rewrite (Hpq c H1), IH.
Qed.

Lemma not_sep_dot_not_sep (c : ascii) :
  not_sep_dot c = true -> not_sep c = true.
Proof.
  unfold not_sep_dot, not_sep, sep.
  destruct (is_char "_" c), (is_char "." c), (is_char " " c); auto.
Qed.

Lemma sep_cases (c : ascii) : sep c = true -> c = "_"%char \/ c = " "%char.
Proof.
  unfold sep. intros H. apply orb_true_iff in H as [H|H];
    apply is_char_eq in H; auto.
Qed.

Lemma sep_not_digit (c : ascii) : sep c = true -> digit c = false.
Proof. intros H. destruct (sep_cases c H); subst; reflexivity. Qed.

Lemma sep_not_p (c : ascii) : sep c = true -> not_p c = true.
Proof. intros H. destruct (sep_cases c H); subst; reflexivity. Qed.

Lemma sep_not_not_sep (c : ascii) : sep c = true -> not_sep c = false.
Proof. unfold not_sep. now intros ->. Qed.

Lemma digit_or_dot_not_p (c : ascii) : digit_or_dot c = true -> not_p c = true.
Proof.
  unfold not_p. simpl. destruct (Ascii.eqb c "p") eqn:E; [|reflexivity].
  apply Ascii.eqb_eq in E. subst c. discriminate.
Qed.

Lemma digit_not_p (c : ascii) : digit c = true -> not_p c = true.
Proof.
  intros H. apply digit_or_dot_not_p. unfold digit_or_dot. now rewrite H.
Qed.

Lemma digit_is_digit_or_dot (s : str) :
  forallb digit s = true -> forallb digit_or_dot s = true.
Proof.
  induction s as [|c s IH]; simpl; [reflexivity|].
  intros H. apply andb_true_iff in H as [H1 H2].
  unfold digit_or_dot at 1. now rewrite H1, IH.
Qed.

Lemma forallb_existsb_sep (s : str) :
  forallb not_sep s = true -> existsb sep s = false.
Proof.
  induction s as [|c s IH]; simpl; [reflexivity|].
  intros H. apply andb_true_iff in H as [H1 H2].
  unfold not_sep in H1. apply negb_true_iff in H1. now rewrite H1, IH.
Qed.

Lemma lower_char_unit (c : ascii) :
  unit_char (lower_char c) = true -> unit_char c = true.
Proof.
  destruct c as [[] [] [] [] [] [] [] []]; vm_compute; auto.
Qed.

Lemma lower_char_not_p (c : ascii) :
  not_p (lower_char c) = true -> not_p c = true.
Proof.
  destruct c as [[] [] [] [] [] [] [] []]; vm_compute; auto.
Qed.

Lemma last_default {A} (l : list A) (x a : A) :
  last (x :: l) a = last l x.
Proof.
  revert x a. induction l as [|y l IH]; intros x a; [reflexivity|].
  change (last (x :: y :: l) a) with (last (y :: l) a).
  now rewrite (IH y a), (IH y x).
Qed.

Lemma Forall2_last {A B} (R : A -> B -> Prop) (l : list A) (l' : list B)
      (a : A) (b : B) :
  Forall2 R (a :: l) (b :: l') -> R (last l a) (last l' b).
Proof.
  revert l' a b. induction l as [|x l IH]; intros l' a b H;
    inversion H as [|? ? ? ? Hab Hl]; subst.
  - inversion Hl; subst. exact Hab.
  - inversion Hl as [|? y ? l'' Hxy Hl']; subst.
    rewrite (last_default l x a), (last_default l'' y b).
    now apply IH.
Qed.

(** ** Sorting *)

Lemma code_inj (x y : ascii) : code x = code y -> x = y.
Proof.
  unfold code. intros H.
  rewrite <- (ascii_nat_embedding x), <- (ascii_nat_embedding y).
  now rewrite H.
Qed.

Lemma str_leb_total (a b : str) : str_leb a b = true \/ str_leb b a = true.
Proof.
  revert b. induction a as [|x a IH]; intros [|y b]; simpl; auto.
  destruct (Nat.ltb_spec (code x) (code y)); auto.
  destruct (Nat.ltb_spec (code y) (code x)); auto.
Qed.

Lemma str_leb_trans (a b c : str) :
  str_leb a b = true -> str_leb b c = true -> str_leb a c = true.
Proof.
  revert b c. induction a as [|x a IH]; intros [|y b] [|z c]; simpl; auto;
    try discriminate.
  destruct (Nat.ltb_spec (code x) (code y)),
           (Nat.ltb_spec (code y) (code z)),
           (Nat.ltb_spec (code x) (code z)); auto; try lia;
    destruct (Nat.ltb_spec (code y) (code x)); try discriminate; try lia;
    destruct (Nat.ltb_spec (code z) (code y)); try discriminate; try lia;
    destruct (Nat.ltb_spec (code z) (code x)); try lia.
  apply IH.
Qed.

Lemma str_leb_antisym (a b : str) :
  str_leb a b = true -> str_leb b a = true -> a = b.
Proof.
  revert b. induction a as [|x a IH]; intros [|y b]; simpl; auto;
    try discriminate.
  destruct (Nat.ltb_spec (code x) (code y)),
           (Nat.ltb_spec (code y) (code x)); try discriminate; try lia.
  intros H1 H2. f_equal; [apply code_inj; lia|now apply IH].
Qed.

Lemma insert_sorted_perm (x : str) (l : list str) :
  Permutation (x :: l) (insert_sorted x l).
Proof.
  induction l as [|y l IH]; simpl; [reflexivity|].
  destruct (str_leb x y); [reflexivity|].
  rewrite perm_swap. now constructor.
Qed.

Lemma sorted_perm (l : list str) : Permutation l (sorted l).
Proof.
  induction l as [|x l IH]; simpl; [constructor|].
  rewrite <- insert_sorted_perm. now constructor.
Qed.

Lemma insert_sorted_sorted (x : str) (l : list str) :
  StronglySorted str_le l -> StronglySorted str_le (insert_sorted x l).
Proof.
  induction 1 as [|y l Hl IH Hy]; simpl.
  - repeat constructor.
  - destruct (str_leb x y) eqn:E.
    + constructor; [now constructor|].
      constructor; [exact E|].
      eapply Forall_impl; [|exact Hy].
      intros z Hz. now apply str_leb_trans with y.
    + constructor; [exact IH|].
      rewrite <- insert_sorted_perm. constructor; [|exact Hy].
      destruct (str_leb_total x y) as [H|H]; [congruence|exact H].
Qed.

Lemma sorted_sorted (l : list str) : StronglySorted str_le (sorted l).
Proof.
  induction l as [|x l IH]; simpl; [constructor|].
  now apply insert_sorted_sorted.
Qed.

Lemma sorted_unique (l1 l2 : list str) :
  StronglySorted str_le l1 -> StronglySorted str_le l2 ->
  Permutation l1 l2 -> l1 = l2.
Proof.
  intros H1. revert l2.
  induction H1 as [|x l1 Hl1 IH Hx]; intros l2 H2 Hp.
  - now apply Permutation_nil in Hp.
  - destruct H2 as [|y l2 Hl2 Hy].
    + symmetry in Hp. now apply Permutation_nil in Hp.
    + assert (x = y) as ->.
      { assert (Hxin : In x (y :: l2))
          by (apply (Permutation_in _ Hp); now left).
        assert (Hyin : In y (x :: l1))
          by (apply (Permutation_in _ (Permutation_sym Hp)); now left).
        destruct Hxin as [->|Hxin]; [reflexivity|].
        destruct Hyin as [->|Hyin]; [reflexivity|].
        rewrite Forall_forall in Hx, Hy.
        apply str_leb_antisym; [now apply Hx|now apply Hy]. }
      f_equal. apply IH; [exact Hl2|].
      now apply Permutation_cons_inv in Hp.
Qed.

(** [sorted] does not depend on the order in which the names are listed. *)
Lemma sorted_permutation (l1 l2 : list str) :
  Permutation l1 l2 -> sorted l1 = sorted l2.
Proof.
  intros Hp. apply sorted_unique; try apply sorted_sorted.
  rewrite <- (sorted_perm l1), <- (sorted_perm l2). exact Hp.
Qed.

(** A sorted listing is what [sorted] returns, and [sorted] keeps it. *)
Lemma sorted_idempotent (l : list str) : sorted (sorted l) = sorted l.
Proof.
  apply sorted_permutation. symmetry. apply sorted_perm.
Qed.

(** ** The matcher *)

Lemma captured_app (a s : str) : captured (a ++ s) s = a.
Proof.
  unfold captured. rewrite length_app.
  replace (List.length a + List.length s - List.length s)%nat
    with (List.length a) by lia.
  rewrite firstn_app, Nat.sub_diag, firstn_all. simpl.
  apply app_nil_r.
Qed.

Lemma captured_prefix (a s s' : str) : s = a ++ s' -> captured s s' = a.
Proof. intros ->. apply captured_app. Qed.

Lemma strip_prefix_app (l s : str) : strip_prefix l (l ++ s) = Some s.
Proof.
  induction l as [|x l IH]; simpl; [reflexivity|].
  now rewrite Ascii.eqb_refl.
Qed.

Lemma strip_prefix_inv (l s s' : str) :
  strip_prefix l s = Some s' -> s = l ++ s'.
Proof.
  revert s. induction l as [|x l IH]; intros s H; simpl in H.
  - now inversion H.
  - destruct s as [|c s]; [discriminate|].
    destruct (Ascii.eqb x c) eqn:E; [|discriminate].
    apply Ascii.eqb_eq in E. subst c. simpl. f_equal. now apply IH.
Qed.

Section Star.

Context {A : Type} (p : ascii -> bool) (k : str -> option A).

(** A successful repetition consumed a run of the class. *)
Lemma star_inv (s : str) (o : A) :
  star p s k = Some o ->
  exists a b, s = a ++ b /\ forallb p a = true /\ k b = Some o.
Proof.
  induction s as [|c s IH]; simpl; intros H.
  - exists [], []. auto.
  - destruct (p c) eqn:Ec.
    + destruct (star p s k) as [o'|] eqn:Es.
      * inversion H; subst o'.
        destruct (IH eq_refl) as (a & b & -> & Ha & Hk).
        exists (c :: a), b. simpl. rewrite Ec, Ha. auto.
      * exists [], (c :: s). auto.
    + exists [], (c :: s). auto.
Qed.

(** No split of the input lets the continuation succeed. *)
Lemma star_none (s : str) :
  (forall a b, s = a ++ b -> forallb p a = true -> k b = None) ->
  star p s k = None.
Proof.
  induction s as [|c s IH]; simpl; intros H.
  - apply (H [] []); reflexivity.
  - destruct (p c) eqn:Ec.
    + rewrite IH.
      * apply (H [] (c :: s)); reflexivity.
      * intros a b -> Ha. apply (H (c :: a) b); [reflexivity|].
        simpl. now rewrite Ec, Ha.
    + apply (H [] (c :: s)); reflexivity.
Qed.

(** Greedy choice: the continuation succeeds after [a], and after no
    longer run. *)
Lemma star_pick (a b : str) (o : A) :
  forallb p a = true ->
  k b = Some o ->
  (forall x b', x <> [] -> b = x ++ b' -> forallb p x = true ->
                k b' = None) ->
  star p (a ++ b) k = Some o.
Proof.
  intros Ha Hk Hlater.
  assert (Hb : star p b k = Some o).
  { destruct b as [|c b]; simpl; [exact Hk|].
    destruct (p c) eqn:Ec; [|exact Hk].
    rewrite star_none; [exact Hk|].
    intros x b' -> Hx. apply (Hlater (c :: x) b').
    - discriminate.
    - reflexivity.
    - simpl. now rewrite Ec, Hx. }
  induction a as [|c a IH]; simpl; [exact Hb|].
  simpl in Ha. apply andb_true_iff in Ha as [Hc Ha].
  now rewrite Hc, (IH Ha).
Qed.

(** The run is maximal when the next character is outside the class. *)
Lemma star_max (a b : str) (o : A) :
  forallb p a = true ->
  match b with [] => True | c :: _ => p c = false end ->
  k b = Some o ->
  star p (a ++ b) k = Some o.
Proof.
  intros Ha Hb Hk. apply star_pick; auto.
  intros x b' Hx -> Hpx.
  destruct x as [|c x]; [congruence|].
  simpl in Hb, Hpx. rewrite Hb in Hpx. discriminate.
Qed.

End Star.

Lemma star_all {A} (p : ascii -> bool) (k : str -> option A) (s : str)
      (o : A) :
  forallb p s = true -> k [] = Some o -> star p s k = Some o.
Proof.
  intros Hs Hk. rewrite <- (app_nil_r s). now apply star_max.
Qed.

Lemma star_none_inv {A} (p : ascii -> bool) (k : str -> option A) (s : str) :
  star p s k = None ->
  forall a b, s = a ++ b -> forallb p a = true -> k b = None.
Proof.
  induction s as [|c s IH]; simpl; intros H a b Hs Ha.
  - destruct a; [|discriminate]. simpl in Hs. now subst b.
  - destruct a as [|c' a].
    + simpl in Hs. subst b.
      destruct (p c); [|exact H].
      destruct (star p s k); [discriminate|exact H].
    + inversion Hs; subst c' s. simpl in Ha.
      apply andb_true_iff in Ha as [Hc Ha]. rewrite Hc in H.
      destruct (star p (a ++ b) k) eqn:E; [discriminate|].
      now apply (IH eq_refl a b).
Qed.

(** The run a successful repetition consumed is the longest after which
    the continuation succeeds. *)
Lemma star_inv_greedy {A} (p : ascii -> bool) (k : str -> option A)
      (s : str) (o : A) :
  star p s k = Some o ->
  exists a b,
    s = a ++ b /\ forallb p a = true /\ k b = Some o
    /\ forall x b', x <> [] -> b = x ++ b' -> forallb p x = true ->
                    k b' = None.
Proof.
  induction s as [|c s IH]; simpl; intros H.
  - exists [], []. repeat split; auto.
    intros [|c x] b' Hx Hb _; [congruence|discriminate].
  - destruct (p c) eqn:Ec.
    + destruct (star p s k) as [o'|] eqn:Es.
      * inversion H; subst o'.
        destruct (IH eq_refl) as (a & b & -> & Ha & Hk & Hlater).
        exists (c :: a), b. simpl. rewrite Ec, Ha. auto.
      * exists [], (c :: s). repeat split; auto.
        intros [|c' x] b' Hx Hb Hpx; [congruence|].
        inversion Hb; subst c' s. simpl in Hpx.
        apply andb_true_iff in Hpx as [_ Hpx].
        now apply (star_none_inv p k _ Es x b').
    + exists [], (c :: s). repeat split; auto.
      intros [|c' x] b' Hx Hb Hpx; [congruence|].
      inversion Hb; subst c' s. simpl in Hpx. rewrite Ec in Hpx.
      discriminate.
Qed.

(** Soundness of the search. *)
Lemma exec_sound (whole : str) (r : regex) :
  forall s g k o,
    exec whole r s g k = Some o ->
    exists s' g', matches whole r s s' g g' /\ k s' g' = Some o.
Proof.
  induction r as [l|p|p|p|r IH|r1 IH1 r2 IH2|r1 IH1 r2 IH2|name r IH| |];
    intros s g k o H; simpl in H.
  - destruct (strip_prefix l s) as [s'|] eqn:E; [|discriminate].
    apply strip_prefix_inv in E.
    exists s', g. split; [now constructor|exact H].
  - destruct s as [|c s']; [discriminate|].
    destruct (p c) eqn:Ec; [|discriminate].
    exists s', g. split; [now econstructor|exact H].
  - apply star_inv in H as (a & b & -> & Ha & Hk).
    exists b, g. split; [now econstructor|exact Hk].
  - destruct s as [|c s']; [discriminate|].
    destruct (p c) eqn:Ec; [|discriminate].
    apply star_inv in H as (a & b & -> & Ha & Hk).
    exists b, g. split; [now econstructor|exact Hk].
  - destruct (exec whole r s g k) as [o'|] eqn:E.
    + inversion H; subst o'.
      apply IH in E as (s' & g' & Hm & Hk).
      exists s', g'. split; [now apply M_OptSome|exact Hk].
    + exists s, g. split; [apply M_OptNone|exact H].
  - apply IH1 in H as (s1 & g1 & Hm1 & H).
    apply IH2 in H as (s2 & g2 & Hm2 & H).
    exists s2, g2. split; [now apply M_Seq with s1 g1|exact H].
  - destruct (exec whole r1 s g k) as [o'|] eqn:E.
    + inversion H; subst o'.
      apply IH1 in E as (s' & g' & Hm & Hk).
      exists s', g'. split; [now apply M_AltL|exact Hk].
    + apply IH2 in H as (s' & g' & Hm & Hk).
      exists s', g'. split; [now apply M_AltR|exact Hk].
  - apply IH in H as (s' & g' & Hm & Hk).
    exists s', ((name, captured s s') :: g'). split; [now constructor|exact Hk].
  - destruct (Nat.eqb (List.length s) (List.length whole)) eqn:E; [|discriminate].
    apply Nat.eqb_eq in E.
    exists s, g. split; [now constructor|exact H].
  - exists s, g. split; [|destruct s as [|c [|? ?]]; try discriminate; auto].
    + constructor. destruct s as [|c [|? ?]]; try discriminate; auto.
      destruct (Ascii.eqb c newline) eqn:E; [|discriminate].
      apply Ascii.eqb_eq in E. subst c. auto.
    + destruct (Ascii.eqb c newline); [exact H|discriminate].
Qed.

Lemma re_match_sound (r : regex) (s : str) (m : groups) :
  re_match r s = Some m -> exists s', matches s r s s' [] m.
Proof.
  unfold re_match. intros H.
  apply exec_sound in H as (s' & g' & Hm & Hk).
  inversion Hk; subst. now exists s'.
Qed.

Lemma exec_seq_inv (w : str) (r1 r2 : regex) (s : str) (g : groups)
      (k : str -> groups -> option groups) (o : groups) :
  exec w (r1 +++ r2) s g k = Some o ->
  exists s1 g1, matches w r1 s s1 g g1 /\ exec w r2 s1 g1 k = Some o.
Proof. simpl. apply exec_sound. Qed.

(** Inversion of [matches] on a pattern given by its syntax tree. *)
Ltac inv_matches :=
  repeat match goal with
  | H : matches _ (Seq _ _) _ _ _ _ |- _ => inversion H; clear H; subst
  | H : matches _ (Group _ _) _ _ _ _ |- _ => inversion H; clear H; subst
  | H : matches _ (Lit _) _ _ _ _ |- _ => inversion H; clear H; subst
  | H : matches _ (Cls _) _ _ _ _ |- _ => inversion H; clear H; subst
  | H : matches _ (Star _) _ _ _ _ |- _ => inversion H; clear H; subst
  | H : matches _ (Plus _) _ _ _ _ |- _ => inversion H; clear H; subst
  | H : matches _ Eos _ _ _ _ |- _ => inversion H; clear H; subst
  | H : matches _ Bos _ _ _ _ |- _ => inversion H; clear H; subst
  | H : matches _ (Opt _) _ _ _ _ |- _ => inversion H; clear H; subst
  | H : matches _ (Alt _ _) _ _ _ _ |- _ => inversion H; clear H; subst
  end.

Ltac inv_seq :=
  repeat match goal with
  | H : matches _ (Seq _ _) _ _ _ _ |- _ => inversion H; clear H; subst
  end.

Lemma matches_seq (w : str) (r1 r2 : regex) (s s2 : str) (g g2 : groups) :
  matches w (r1 +++ r2) s s2 g g2 ->
  exists s1 g1, matches w r1 s s1 g g1 /\ matches w r2 s1 s2 g1 g2.
Proof. intros H. inversion H; subst. eauto. Qed.

Lemma matches_star (w : str) (p : ascii -> bool) (s s' : str)
      (g g' : groups) :
  matches w (Star p) s s' g g' ->
  exists a, s = a ++ s' /\ forallb p a = true /\ g' = g.
Proof. intros H. inversion H; subst. eauto. Qed.

Lemma matches_lit (w : str) (l : str) (s s' : str) (g g' : groups) :
  matches w (Lit l) s s' g g' -> s = l ++ s' /\ g' = g.
Proof. intros H. inversion H; subst. auto. Qed.

Lemma matches_cls (w : str) (p : ascii -> bool) (s s' : str)
      (g g' : groups) :
  matches w (Cls p) s s' g g' ->
  exists c, s = c :: s' /\ p c = true /\ g' = g.
Proof. intros H. inversion H; subst. eauto. Qed.

(** The digits after [partition]: one or two. *)
Lemma matches_index (w : str) (s s' : str) (g g' : groups) :
  matches w (Group "1" (Cls digit +++ Opt (Cls digit))) s s' g g' ->
  exists d ds,
    s = d :: ds ++ s' /\ digit d = true /\ forallb digit ds = true
    /\ (List.length ds <= 1)%nat /\ g' = ("1", d :: ds) :: g.
Proof.
  intros H. inv_matches.
  - exists c, [c0].
    rewrite (captured_prefix [c; c0] _ s') by reflexivity.
    simpl. rewrite andb_true_r. repeat split; auto.
  - exists c, [].
    rewrite (captured_prefix [c] _ s') by reflexivity.
    simpl. repeat split; auto.
Qed.

(** The marker: absent, or [msdos] and a separator. *)
Lemma matches_marker (w : str) (s s' : str) (g g' : groups) :
  matches w (Opt (Group "msdos" (Lit "msdos" +++ Cls sep))) s s' g g' ->
  (s = s' /\ g' = g)
  \/ exists c, sep c = true /\ s = "msdos" ++ c :: s'
               /\ g' = ("msdos", "msdos" ++ [c]) :: g.
Proof.
  intros H. inv_matches; [right|left; auto].
  exists c. rewrite (captured_prefix ("msdos" ++ [c]) _ s') by reflexivity.
  auto.
Qed.

(** A token: a non-empty run of a class, captured under a name. *)
Lemma matches_token (w : str) (name : string) (p : ascii -> bool)
      (s s' : str) (g g' : groups) :
  matches w (Group name (Plus p)) s s' g g' ->
  exists e, s = e ++ s' /\ e <> [] /\ forallb p e = true
            /\ g' = (name, e) :: g.
Proof.
  intros H. inv_matches. exists (c :: a).
  rewrite (captured_prefix (c :: a) _ s') by reflexivity.
  repeat split; auto; [discriminate|].
  simpl. apply andb_true_iff. auto.
Qed.

Lemma matches_star_group (w : str) (name : string) (p : ascii -> bool)
      (s s' : str) (g g' : groups) :
  matches w (Group name (Star p)) s s' g g' ->
  exists u, s = u ++ s' /\ forallb p u = true /\ g' = (name, u) :: g.
Proof.
  intros H. inv_matches. exists a.
  rewrite (captured_prefix a _ s') by reflexivity. auto.
Qed.

(** From the file-system type to the end of the name there is no
    separator, and the groups bound there are [fstype] and perhaps [5]. *)
Lemma matches_fstype_tail (w : str) (s s' : str) (g g' : groups) :
  matches w (Group "fstype" (Plus not_sep_dot) +++ tar_suffix "5" +++ Eos)
          s s' g g' ->
  forallb not_sep s = true
  /\ exists fs l, g' = l ++ ("fstype", fs) :: g
                  /\ (l = [] \/ exists x, l = [("5", x)]).
Proof.
  intros H. inv_seq.
  match goal with
  | H : matches _ (Group "fstype" _) _ _ _ _ |- _ =>
      apply matches_token in H as (fs & -> & Hne & Hfs & ->)
  end.
  apply (forallb_impl _ _ _ not_sep_dot_not_sep) in Hfs.
  unfold tar_suffix in *. inv_matches;
    match goal with
    | H : _ = [] \/ _ = [newline] |- _ => destruct H as [-> | ->]
    end;
    (split;
     [rewrite ?forallb_app, Hfs; reflexivity
     |exists fs; first [exists []; split; [reflexivity|now left]
                       |eexists [_]; split; [reflexivity|right; eauto]]]).
Qed.

(** ** Rounding to binary64 *)

(** The exponent [l] computed by [round_double] is the floor of the binary
    logarithm of [n / d]. *)
Lemma floor_log2_ratio (n d : Z) :
  0 < n -> 0 < d ->
  let l0 := Z.log2 n - Z.log2 d in
  let l := if (if 0 <=? l0 then n <? d * 2 ^ l0 else n * 2 ^ (- l0) <? d)
           then l0 - 1 else l0 in
  d * 2 ^ Z.max 0 l <= n * 2 ^ Z.max 0 (- l) < 2 * (d * 2 ^ Z.max 0 l).
Proof.
  intros Hn Hd l0 l.
  pose proof (Z.log2_spec n Hn) as [Hn1 Hn2].
  pose proof (Z.log2_spec d Hd) as [Hd1 Hd2].
  pose proof (Z.log2_nonneg n) as Ha. pose proof (Z.log2_nonneg d) as Hb.
  set (a := Z.log2 n) in *. set (b := Z.log2 d) in *.
  rewrite <- Z.add_1_r in Hn2, Hd2.
  rewrite Z.pow_add_r in Hn2, Hd2 by lia. change (2 ^ 1) with 2 in *.
  assert (Hpa : 0 < 2 ^ a) by (apply Z.pow_pos_nonneg; lia).
  assert (Hpb : 0 < 2 ^ b) by (apply Z.pow_pos_nonneg; lia).
  subst l. destruct (Z.leb_spec 0 l0) as [Hl0|Hl0].
  - (* a >= b *)
    assert (Hab : 2 ^ a = 2 ^ l0 * 2 ^ b).
    { rewrite <- Z.pow_add_r by lia. f_equal. subst l0. lia. }
    assert (Hpl : 0 < 2 ^ l0) by (apply Z.pow_pos_nonneg; lia).
    destruct (Z.ltb_spec n (d * 2 ^ l0)) as [Hlt|Hge].
    + destruct (Z.eq_dec l0 0) as [E|E].
      * rewrite E in *. change (0 - 1) with (-1).
        change (Z.max 0 (-1)) with 0. change (Z.max 0 (- -1)) with 1.
        change (2 ^ 0) with 1 in *. change (2 ^ 1) with 2. nia.
      * rewrite (Z.max_r 0 (l0 - 1)), (Z.max_l 0 (- (l0 - 1))) by lia.
        change (2 ^ 0) with 1.
        assert (Hs : 2 ^ l0 = 2 * 2 ^ (l0 - 1)).
        { replace l0 with (1 + (l0 - 1)) at 1 by lia.
          rewrite Z.pow_add_r by lia. reflexivity. }
        assert (Hp1 : 0 < 2 ^ (l0 - 1)) by (apply Z.pow_pos_nonneg; lia).
        nia.
    + rewrite (Z.max_r 0 l0), (Z.max_l 0 (- l0)) by lia.
      change (2 ^ 0) with 1. nia.
  - (* a < b *)
    assert (Hab : 2 ^ b = 2 ^ (- l0) * 2 ^ a).
    { rewrite <- Z.pow_add_r by lia. f_equal. subst l0. lia. }
    assert (Hpl : 0 < 2 ^ (- l0)) by (apply Z.pow_pos_nonneg; lia).
    destruct (Z.ltb_spec (n * 2 ^ (- l0)) d) as [Hlt|Hge].
    + rewrite (Z.max_l 0 (l0 - 1)), (Z.max_r 0 (- (l0 - 1))) by lia.
      change (2 ^ 0) with 1.
      replace (- (l0 - 1)) with (1 + - l0) by lia.
      rewrite Z.pow_add_r by lia. change (2 ^ 1) with 2. nia.
    + rewrite (Z.max_l 0 l0), (Z.max_r 0 (- l0)) by lia.
      change (2 ^ 0) with 1. nia.
Qed.

(** The result of [round_double] is within half a unit in the last place
    of [n / d], and has an even significand when it is exactly half way. *)
Lemma round_double_nearest (n d q e : Z) :
  0 < n -> 0 < d ->
  round_double n d = Finite q e ->
  -1074 <= e <= 971
  /\ 2 * Z.abs (n * 2 ^ Z.max 0 (- e) - q * (d * 2 ^ Z.max 0 e))
     <= d * 2 ^ Z.max 0 e
  /\ (2 * Z.abs (n * 2 ^ Z.max 0 (- e) - q * (d * 2 ^ Z.max 0 e))
      = d * 2 ^ Z.max 0 e -> Z.even q = true).
Proof.
  intros Hn Hd. unfold round_double.
  destruct (Z.eqb_spec n 0) as [?|_]; [lia|].
  set (l0 := Z.log2 n - Z.log2 d).
  set (l := if (if 0 <=? l0 then n <? d * 2 ^ l0 else n * 2 ^ (- l0) <? d)
            then l0 - 1 else l0).
  set (e0 := Z.max (l - 52) (-1074)).
  set (num := if 0 <=? e0 then n else n * 2 ^ (- e0)).
  set (den := if 0 <=? e0 then d * 2 ^ e0 else d).
  assert (Hnum : num = n * 2 ^ Z.max 0 (- e0)).
  { subst num. destruct (Z.leb_spec 0 e0).
    - rewrite Z.max_l by lia. simpl. lia.
    - rewrite Z.max_r by lia. reflexivity. }
  assert (Hden : den = d * 2 ^ Z.max 0 e0).
  { subst den. destruct (Z.leb_spec 0 e0).
    - rewrite Z.max_r by lia. reflexivity.
    - rewrite Z.max_l by lia. simpl. lia. }
  clearbody num den.
  assert (Hdp : 0 < den).
  { rewrite Hden. apply Z.mul_pos_pos; [lia|].
    apply Z.pow_pos_nonneg; lia. }
  assert (Hd0 : den <> 0) by lia.
  pose proof (Z.div_mod num den Hd0) as Hdm.
  pose proof (Z.mod_pos_bound num den Hdp) as Hr.
  set (q0 := num / den) in *. set (r := num mod den) in *.
  clearbody q0 r.
  destruct ((den <? 2 * r) || ((2 * r =? den) && Z.odd q0))%bool eqn:Hup;
    (destruct ((971 <? e0) || ((e0 =? 971) && (2 ^ 53 <=? _)))%bool eqn:Ho;
     [discriminate|]);
    intros H; injection H as Hq He; subst q e;
    rewrite <- Hnum, <- Hden;
    apply orb_false_iff in Ho as [Ho _]; apply Z.ltb_ge in Ho;
    (split; [subst e0; lia|]).
  - apply orb_true_iff in Hup as [Hup|Hup].
    + apply Z.ltb_lt in Hup. split; [lia|]. intros Habs. lia.
    + apply andb_true_iff in Hup as [Hup Hodd]. apply Z.eqb_eq in Hup.
      split; [lia|]. intros _.
      rewrite Z.even_add. rewrite <- Z.negb_odd, Hodd. reflexivity.
  - apply orb_false_iff in Hup as [Hup1 Hup2]. apply Z.ltb_ge in Hup1.
    split; [lia|]. intros Habs.
    assert (Heq : (2 * r =? den) = true) by (apply Z.eqb_eq; lia).
    rewrite Heq in Hup2. simpl in Hup2.
    now rewrite <- Z.negb_odd, Hup2.
Qed.

(** The result of [round_double] has a significand of at most 53 bits,
    and of exactly 53 bits above the smallest exponent. *)
Lemma round_double_precision (n d q e : Z) :
  0 < n -> 0 < d ->
  round_double n d = Finite q e ->
  0 <= q <= 2 ^ 53 /\ (-1074 < e -> 2 ^ 52 <= q).
Proof.
  intros Hn Hd. pose proof (floor_log2_ratio n d Hn Hd) as Hl.
  cbv zeta in Hl. unfold round_double.
  destruct (Z.eqb_spec n 0) as [?|_]; [lia|].
  set (l0 := Z.log2 n - Z.log2 d) in *.
  set (l := if (if 0 <=? l0 then n <? d * 2 ^ l0 else n * 2 ^ (- l0) <? d)
            then l0 - 1 else l0) in *.
  clearbody l. clear l0.
  set (e0 := Z.max (l - 52) (-1074)).
  set (num := if 0 <=? e0 then n else n * 2 ^ (- e0)).
  set (den := if 0 <=? e0 then d * 2 ^ e0 else d).
  assert (Hnum0 : 0 <= num).
  { subst num. destruct (0 <=? e0); [lia|].
    apply Z.mul_nonneg_nonneg; [lia|]. apply Z.pow_nonneg. lia. }
  assert (Hb : 0 < den /\ num < 2 ^ 53 * den
               /\ (-1074 < e0 -> 2 ^ 52 * den <= num)).
  { subst num den. change (2 ^ 53) with (2 * 2 ^ 52).
    assert (H52 : 0 < 2 ^ 52) by reflexivity.
    destruct (Z.leb_spec 0 e0) as [He|He].
    - (* e0 >= 0, so l = e0 + 52 *)
      assert (El : l = e0 + 52) by (subst e0; lia).
      rewrite (Z.max_r 0 l), (Z.max_l 0 (- l)) in Hl by lia.
      rewrite El, Z.pow_add_r in Hl by lia. change (2 ^ 0) with 1 in Hl.
      assert (Hp : 0 < 2 ^ e0) by (apply Z.pow_pos_nonneg; lia).
      nia.
    - destruct (Z.leb_spec 0 l) as [Hl0|Hl0].
      + (* l >= 0 > e0 = l - 52 *)
        assert (El : - e0 + l = 52) by (subst e0; lia).
        rewrite (Z.max_r 0 l), (Z.max_l 0 (- l)) in Hl by lia.
        change (2 ^ 0) with 1 in Hl.
        assert (Hp : 2 ^ (- e0) * 2 ^ l = 2 ^ 52)
          by (rewrite <- Z.pow_add_r by lia; now rewrite El).
        assert (Hp1 : 0 < 2 ^ (- e0)) by (apply Z.pow_pos_nonneg; lia).
        assert (Hp2 : 0 < 2 ^ l) by (apply Z.pow_pos_nonneg; lia).
        nia.
      + rewrite (Z.max_l 0 l), (Z.max_r 0 (- l)) in Hl by lia.
        change (2 ^ 0) with 1 in Hl.
        assert (Hp2 : 0 < 2 ^ (- l)) by (apply Z.pow_pos_nonneg; lia).
        destruct (Z.leb_spec (-1074) (l - 52)) as [Hn0|Hsub].
        * (* normal: e0 = l - 52 *)
          assert (El : - e0 = - l + 52) by (subst e0; lia).
          rewrite El, Z.pow_add_r by lia. nia.
        * (* subnormal: e0 = -1074 *)
          assert (El : e0 = -1074) by (subst e0; lia).
          rewrite El. split; [lia|]. split; [|lia].
          change (- -1074) with 1074.
          destruct (Z.leb_spec 1074 (- l)) as [Hbig|Hsmall].
          -- assert (Hp : 2 ^ (- l) = 2 ^ 1074 * 2 ^ (- l - 1074))
               by (rewrite <- Z.pow_add_r by lia; f_equal; lia).
             assert (Hp3 : 0 < 2 ^ (- l - 1074))
               by (apply Z.pow_pos_nonneg; lia).
             assert (Hp4 : 0 < 2 ^ 1074) by (apply Z.pow_pos_nonneg; lia).
             set (P := 2 ^ 1074) in *. clearbody P. nia.
          -- assert (Hp : 2 ^ 1074 = 2 ^ (- l) * 2 ^ (1074 + l))
               by (rewrite <- Z.pow_add_r by lia; f_equal; lia).
             assert (Hp3 : 2 ^ (1074 + l) <= 2 ^ 51)
               by (apply Z.pow_le_mono_r; lia).
             assert (Hp4 : 0 < 2 ^ (1074 + l))
               by (apply Z.pow_pos_nonneg; lia).
             rewrite Hp. change (2 ^ 52) with (2 * 2 ^ 51).
             set (P := 2 ^ (1074 + l)) in *. clearbody P.
             set (Q := 2 ^ 51) in *. clearbody Q. nia. }
  clearbody num den. destruct Hb as (Hdp & Hub & Hlb).
  assert (Hq0 : 0 <= num / den < 2 ^ 53).
  { split.
    - apply Z.div_pos; lia.
    - apply Z.div_lt_upper_bound; lia. }
  assert (Hq1 : -1074 < e0 -> 2 ^ 52 <= num / den).
  { intros He. apply Z.div_le_lower_bound; [lia|]. specialize (Hlb He). lia. }
  set (q0 := num / den) in *. clearbody q0.
  destruct ((den <? 2 * (num mod den)) || _)%bool;
    (destruct ((971 <? e0) || _)%bool; [discriminate|]);
    intros H; injection H as Hq He; subst q e; split; try lia;
    intros He; specialize (Hq1 He); lia.
Qed.

(** ** The size resolver *)

Lemma lookup_In (d : list (str * Z)) (key : str) (v : Z) :
  lookup d key = Some v -> In (key, v) d.
Proof.
  induction d as [|[k w] d IH]; simpl; [discriminate|].
  destruct (str_eqb k key) eqn:E.
  - intros H. inversion H; subst. apply str_eqb_eq in E. subst. now left.
  - intros H. right. now apply IH.
Qed.

Lemma split_at_dot_spec (s : str) :
  forall ip rest,
    split_at_dot s = (ip, rest) ->
    match rest with
    | None => s = ip
    | Some fp => s = ip ++ "." ++ fp
    end.
Proof.
  induction s as [|c s IH]; intros ip rest H; simpl in H.
  - now inversion H.
  - destruct (Ascii.eqb c ".") eqn:E.
    + inversion H; subst. apply Ascii.eqb_eq in E. now subst.
    + destruct (split_at_dot s) as [a b]. inversion H; subst.
      specialize (IH a rest eq_refl).
      destruct rest; simpl; now f_equal.
Qed.

(** A string that [float] accepts is a non-empty run of digits and dots. *)
Lemma float_of_str_chars (s : str) (x : float) :
  float_of_str s = Ok x -> s <> [] /\ forallb digit_or_dot s = true.
Proof.
  unfold float_of_str. destruct (split_at_dot s) as [ip rest] eqn:E.
  apply split_at_dot_spec in E.
  destruct (forallb digit ip) eqn:Hip; [|discriminate].
  set (fp := match rest with Some f => f | None => [] end).
  destruct (forallb digit fp) eqn:Hfp; [|discriminate].
  destruct (Nat.eqb (List.length ip + List.length fp) 0) eqn:Hn;
    [discriminate|]. intros _.
  apply Nat.eqb_neq in Hn.
  apply digit_is_digit_or_dot in Hip, Hfp.
  destruct rest as [f|]; subst s; subst fp.
  - split.
    + destruct ip; discriminate.
    + rewrite forallb_app, Hip. simpl. exact Hfp.
  - split; [|exact Hip].
    intros ->. simpl in Hn. lia.
Qed.

(** A property of characters that [lower] reflects and that the keys of
    the table have is had by every string [lower] sends to a key. *)
Lemma units_keys_chars (P : ascii -> bool) (u : str) (mult : Z) :
  (forall c, P (lower_char c) = true -> P c = true) ->
  forallb (fun kv => forallb P (fst kv)) units = true ->
  lookup units (lower u) = Some mult -> forallb P u = true.
Proof.
  intros Hlow Hkeys H. apply lookup_In in H.
  assert (Hl : forallb P (lower u) = true).
  { rewrite forallb_forall in Hkeys. exact (Hkeys _ H). }
  clear H. induction u as [|c u IH]; [reflexivity|].
  simpl in Hl. apply andb_true_iff in Hl as [H1 H2].
  simpl. now rewrite (Hlow c H1), IH.
Qed.

Lemma units_chars (u : str) (mult : Z) :
  lookup units (lower u) = Some mult -> forallb unit_char u = true.
Proof.
  apply units_keys_chars; [exact lower_char_unit|reflexivity].
Qed.

(** The pattern splits a number followed by a unit where the source means
    it to. *)
Lemma size_pattern_match (number u : str) :
  number <> [] ->
  forallb digit_or_dot number = true ->
  forallb unit_char u = true ->
  re_match size_pattern (number ++ u) = Some [("2", u); ("1", number)].
Proof.
  intros Hne Hnum Hu. unfold re_match, size_pattern. cbn [exec].
  rewrite Nat.eqb_refl.
  destruct number as [|c a]; [congruence|].
  simpl in Hnum. apply andb_true_iff in Hnum as [Hc Ha].
  cbn [app]. rewrite Hc.
  apply star_max; [exact Ha| |].
  - destruct u as [|c' u']; [exact I|].
    simpl in Hu. apply andb_true_iff in Hu as [Hu _].
    unfold unit_char in Hu. apply andb_true_iff in Hu as [_ Hu].
    now apply negb_true_iff in Hu.
  - apply star_all.
    + clear -Hu. induction u as [|c' u IH]; [reflexivity|].
      simpl in Hu. apply andb_true_iff in Hu as [H1 H2].
      unfold unit_char in H1. apply andb_true_iff in H1 as [H1 _].
      simpl. now rewrite H1, IH.
    + rewrite (captured_prefix u u []) by now rewrite app_nil_r.
      rewrite (captured_prefix (c :: a) (c :: a ++ u) u) by reflexivity.
      reflexivity.
Qed.

Lemma int_of_float_truncates (m e n : Z) :
  int_of_float (Finite m e) = Ok n ->
  n * 2 ^ Z.max 0 (- e) <= m * 2 ^ Z.max 0 e < (n + 1) * 2 ^ Z.max 0 (- e).
Proof.
  simpl. destruct (Z.leb_spec 0 e) as [He|He]; intros H; inversion H; subst.
  - rewrite (Z.max_l 0 (- e)), (Z.max_r 0 e) by lia. simpl. lia.
  - rewrite (Z.max_r 0 (- e)), (Z.max_l 0 e) by lia.
    assert (Hp : 0 < 2 ^ (- e)) by (apply Z.pow_pos_nonneg; lia).
    pose proof (Z.mul_div_le m _ Hp).
    pose proof (Z.mul_succ_div_gt m _ Hp).
    simpl (2 ^ 0). nia.
Qed.

(** C2, as the code has it.  For a token made of a number that [float]
    accepts (digits with at most one dot) and a unit of the table in any
    letter case, the resolver returns [int(float(number) * multiplier)]:
    the number is rounded to binary64, the product is rounded to binary64,
    and a finite product is truncated to the integer [n] with
    [n <= product < n + 1]. *)
Theorem parse_size_known_unit :
  forall (number u : str) (x : float) (mult : Z),
    float_of_str number = Ok x ->
    lookup units (lower u) = Some mult ->
    _parse_size (number ++ u) = int_of_float (float_mul x mult)
    /\ forall m e,
         float_mul x mult = Finite m e ->
         exists n,
           _parse_size (number ++ u) = Ok n
           /\ n * 2 ^ Z.max 0 (- e) <= m * 2 ^ Z.max 0 e
              < (n + 1) * 2 ^ Z.max 0 (- e).
Proof.
  intros number u x mult Hx Hu.
  assert (Hp : _parse_size (number ++ u) = int_of_float (float_mul x mult)).
  { destruct (float_of_str_chars number x Hx) as [Hne Hnum].
    unfold _parse_size.
    rewrite (size_pattern_match number u Hne Hnum (units_chars u mult Hu)).
    cbn [group String.eqb Ascii.eqb Bool.eqb fmt].
    simpl group. cbn [fmt]. rewrite Hx. cbn [bind]. now rewrite Hu. }
  split; [exact Hp|].
  intros m e Hf. rewrite Hp, Hf.
  eexists. split; [reflexivity|].
  now apply int_of_float_truncates.
Qed.

Lemma parse_size_known_unit_GiB : _parse_size "1.75GiB" = Ok 1879048192.
Proof.
  exact (proj1 (parse_size_known_unit "1.75" "GiB" _ _ eq_refl eq_refl)).
Defined.

(** The values of the tests of the source. *)
Lemma parse_size_tests :
  _parse_size "5.5" = Ok 5500000
  /\ _parse_size "100KB" = Ok 100000
  /\ _parse_size "1KiB" = Ok 1024
  /\ _parse_size "1MB" = Ok 1000000
  /\ _parse_size "1MiB" = Ok 1048576
  /\ _parse_size "1.5MiB" = Ok 1572864
  /\ _parse_size "1.75GiB" = Ok 1879048192.
Proof. repeat split; vm_compute; reflexivity. Qed.

(** Two tokens of a number and a known unit: on [1.001kb] the resolver
    returns 1000 where the exact product 1001 truncates to 1001; on a one
    followed by 309 zeros and [b] it raises [OverflowError]. *)
Lemma parse_size_is_not_exact_truncation :
  _parse_size "1.001kb" = Ok 1000
  /\ exact_truncation "1.001" 1000 = 1001
  /\ _parse_size (("1" : str) ++ repeat "0"%char 309 ++ ("b" : str))
     = Raise OverflowError.
Proof. repeat split; vm_compute; reflexivity. Qed.

(** C8. A token whose number has two dots passes the pattern and fails in
    [float]: the exception is [ValueError], not
    [PartitionSizeParseException]. *)
Theorem parse_size_malformed_number :
  _parse_size "1.2.3" = Raise ValueError
  /\ _parse_size "100%" = Raise (PartitionSizeParseException None).
Proof. split; vm_compute; reflexivity. Qed.

(** The resolver returns a byte count or raises one of three exceptions. *)
Lemma parse_size_failures (size : str) :
  (exists n, _parse_size size = Ok n)
  \/ _parse_size size = Raise (PartitionSizeParseException None)
  \/ _parse_size size = Raise ValueError
  \/ _parse_size size = Raise OverflowError.
Proof.
  unfold _parse_size.
  destruct (re_match size_pattern size) as [m|]; [|auto].
  unfold float_of_str.
  destruct (split_at_dot (fmt (group m "1"))) as [ip rest].
  destruct (_ && _ && _)%bool; cbn [bind]; [|auto].
  destruct (lookup units _) as [mult|]; [|auto].
  destruct (float_mul _ mult); simpl; eauto.
Qed.

(** A token that resolves to a byte count holds no [p]: it is digits and
    dots, then a unit of the table, then at most a newline. *)
Lemma parse_size_ok_chars (e : str) (n : Z) :
  _parse_size e = Ok n -> forallb not_p e = true.
Proof.
  unfold _parse_size.
  destruct (re_match size_pattern e) as [m|] eqn:Em; [|discriminate].
  apply re_match_sound in Em as (s' & H). unfold size_pattern in H.
  apply matches_seq in H as (s1 & g1 & H1 & H).
  inversion H1; subst; clear H1.
  apply matches_seq in H as (s2 & g2 & H2 & H).
  apply matches_token in H2 as (num & Hnum & Hne & Hdd & ->).
  apply matches_seq in H as (s3 & g3 & H3 & H).
  apply matches_star_group in H3 as (u & -> & Hu & ->).
  inversion H; subst; clear H.
  cbn [group String.eqb Ascii.eqb Bool.eqb fmt]. simpl group. cbn [fmt].
  destruct (float_of_str num) as [x|]; [|discriminate]. cbn [bind].
  destruct (lookup units (lower u)) as [mult|] eqn:El; [|discriminate].
  intros _.
  rewrite !forallb_app.
  rewrite (forallb_impl _ _ _ digit_or_dot_not_p Hdd).
  rewrite (units_keys_chars not_p u mult lower_char_not_p eq_refl El).
  match goal with
  | H : _ = [] \/ _ = [newline] |- _ => destruct H as [-> | ->]
  end; reflexivity.
Qed.

(** ** The short-format builder *)

(** The mandatory groups of the short format are bound by every match. *)
Lemma short_format_groups (f : str) (m : groups) :
  re_match short_format f = Some m ->
  exists e fs, group m "partition_end" = Some e
               /\ group m "fstype" = Some fs.
Proof.
  intros H. apply re_match_sound in H as (s' & H).
  unfold short_format, tar_suffix in H. inv_matches; simpl; eauto.
Qed.

(** The marker group is [msdos] and a separator whenever it is bound. *)
Lemma short_format_msdos (f : str) (m : groups) :
  re_match short_format f = Some m ->
  group m "msdos" = None
  \/ exists c, sep c = true /\ group m "msdos" = Some ("msdos" ++ [c]).
Proof.
  intros H. apply re_match_sound in H as (s' & H).
  unfold short_format, tar_suffix in H. inv_matches; simpl; auto; right;
    match goal with
    | |- context [captured (_ :: _ :: _ :: _ :: _ :: ?c :: ?s) ?s] =>
        exists c; split; [assumption|];
        now rewrite (captured_prefix ("msdos" ++ [c]) _ s)
    end.
Qed.

(** The shape of a file name that matches the short format. *)
Lemma short_format_shape (f : str) (m : groups) :
  re_match short_format f = Some m ->
  exists a d ds sp mk e sp' v,
    f = a ++ "partition" ++ d :: ds ++ sp :: mk ++ e ++ sp' :: v
    /\ forallb dot a = true
    /\ digit d = true /\ forallb digit ds = true /\ (List.length ds <= 1)%nat
    /\ sep sp = true
    /\ (mk = [] /\ group m "msdos" = None
        \/ group m "msdos" = Some mk /\ mk <> [])
    /\ e <> [] /\ forallb not_sep e = true
    /\ sep sp' = true
    /\ forallb not_sep v = true
    /\ group m "partition_end" = Some e.
Proof.
  intros H. apply re_match_sound in H as (s' & H).
  unfold short_format in H.
  apply matches_seq in H as (s1 & g1 & H1 & H).
  apply matches_star in H1 as (a & Hf & Ha & ->).
  apply matches_seq in H as (s2 & g2 & H2 & H).
  apply matches_lit in H2 as (-> & ->).
  apply matches_seq in H as (s3 & g3 & H3 & H).
  apply matches_index in H3 as (d & ds & -> & Hd & Hds & Hlen & ->).
  apply matches_seq in H as (s4 & g4 & H4 & H).
  apply matches_cls in H4 as (sp & -> & Hsp & ->).
  apply matches_seq in H as (s5 & g5 & H5 & H).
  apply matches_seq in H as (s6 & g6 & H6 & H).
  apply matches_token in H6 as (e & -> & Hne & He & ->).
  apply matches_seq in H as (s7 & g7 & H7 & H).
  apply matches_cls in H7 as (sp' & -> & Hsp' & ->).
  apply matches_fstype_tail in H as (Hv & fs & l & -> & Hl).
  apply matches_marker in H5 as [[-> ->] | (cm & Hcm & -> & ->)].
  - exists a, d, ds, sp, [], e, sp', s7.
    split; [exact Hf|]. repeat (split; [assumption|]).
    split; [left; split; [reflexivity|]|].
    + destruct Hl as [-> | (x & ->)]; reflexivity.
    + repeat (split; [assumption|]).
      destruct Hl as [-> | (x & ->)]; reflexivity.
  - exists a, d, ds, sp, ("msdos" ++ [cm]), e, sp', s7.
    split; [rewrite Hf; simpl; rewrite <- ?app_assoc; reflexivity|].
    repeat (split; [assumption|]).
    split; [right; split; [|discriminate]|].
    + destruct Hl as [-> | (x & ->)]; reflexivity.
    + repeat (split; [assumption|]).
      destruct Hl as [-> | (x & ->)]; reflexivity.
Qed.

Lemma table_type_truthy (f : str) (m : groups) :
  re_match short_format f = Some m ->
  (if truthy (group m "msdos") then "msdos" : str else "gpt" : str)
  = table_type m.
Proof.
  intros H. unfold table_type.
  destruct (short_format_msdos f m H) as [-> | (c & _ & ->)]; reflexivity.
Qed.

(** One turn of the loop, on the file at index [i]. *)
Lemma short_loop_step (files : list str) (ms : list groups) (i : nat)
      (f : str) (m : groups) (rest : list str) (acc : list Partition) :
  re_match short_format f = Some m ->
  nth i files [] = f ->
  nth i ms [] = m ->
  short_loop (Z.of_nat (List.length files) - 1) (Z.of_nat i) (f :: rest)
             (start_token ms i) acc
  = short_loop (Z.of_nat (List.length files) - 1) (Z.of_nat (S i)) rest
               (end_token (List.length files) ms i)
               (acc ++ [short_descriptor files ms i]).
Proof.
  intros Hf Hnf Hnm.
  cbn [short_loop]. rewrite Hf. cbv zeta.
  rewrite (table_type_truthy f m Hf).
  assert (Hlast :
    (Z.of_nat (List.length files) - 1 =? Z.of_nat i)
    = Nat.eqb (S i) (List.length files)).
  { destruct (Nat.eqb_spec (S i) (List.length files));
      [apply Z.eqb_eq|apply Z.eqb_neq]; lia. }
  replace (Z.of_nat i + 1) with (Z.of_nat (S i)) by lia.
  unfold short_descriptor, short_fragment, end_token.
  rewrite Hnf, Hnm, Hlast.
  destruct i; reflexivity.
Qed.

Lemma short_loop_spec :
  forall rest mrest done mdone,
    Forall2 (fun f m => re_match short_format f = Some m) rest mrest ->
    List.length done = List.length mdone ->
    short_loop (Z.of_nat (List.length (done ++ rest)) - 1)
               (Z.of_nat (List.length done)) rest
               (start_token (mdone ++ mrest) (List.length done))
               (map (short_descriptor (done ++ rest) (mdone ++ mrest))
                    (seq 0 (List.length done)))
    = Ok (map (short_descriptor (done ++ rest) (mdone ++ mrest))
              (seq 0 (List.length (done ++ rest)))).
Proof.
  intros rest mrest done mdone H. revert done mdone.
  induction H as [|f m rest mrest Hf Hrest IH]; intros done mdone Hlen.
  - simpl. now rewrite !app_nil_r.
  - assert (Hnf : nth (List.length done) (done ++ f :: rest) [] = f)
      by now rewrite nth_middle.
    assert (Hnm : nth (List.length done) (mdone ++ m :: mrest) [] = m)
      by now rewrite Hlen, nth_middle.
    rewrite (short_loop_step _ _ _ f m rest _ Hf Hnf Hnm).
    destruct rest as [|f' rest'].
    + cbn [short_loop]. f_equal.
      rewrite (length_app done [f]). simpl List.length.
      rewrite Nat.add_1_r, seq_S, map_app. reflexivity.
    + pose proof (IH (done ++ [f]) (mdone ++ [m])) as IH'.
      rewrite <- !app_assoc in IH'.
      change ([f] ++ f' :: rest') with (f :: f' :: rest') in IH'.
      change ([m] ++ mrest) with (m :: mrest) in IH'.
      rewrite !last_length in IH'.
      rewrite seq_S, map_app in IH'. cbn [map Nat.add] in IH'.
      unfold start_token at 1 in IH'. rewrite Hnm in IH'.
      unfold end_token at 1. rewrite Hnm.
      replace (Nat.eqb (S (List.length done))
                       (List.length (done ++ f :: f' :: rest')))
        with false.
      * apply IH'. lia.
      * symmetry. apply Nat.eqb_neq. rewrite length_app. simpl. lia.
Qed.

(** The builder in closed form, on files that all match. *)
Lemma short_builder_closed_form (files : list str) (ms : list groups) :
  files <> [] ->
  Forall2 (fun f m => re_match short_format f = Some m) files ms ->
  _try_get_partitions_short_format files
  = Ok (map (short_descriptor files ms) (seq 0 (List.length files))).
Proof.
  intros Hne HF. unfold _try_get_partitions_short_format.
  destruct files as [|f0 files']; [congruence|].
  inversion HF as [|? m0 ? ms' Hf0 HF']; subst.
  rewrite Hf0.
  apply (short_loop_spec (f0 :: files') (m0 :: ms') [] [] HF eq_refl).
Qed.

(** C1. For every non-empty list of file names that all match the short
    format, the short-format builder returns one descriptor per file, in
    order.  The first fragment is
    [unit s mklabel <gpt|msdos> mkpart primary <fstype> 1MiB <end> set 1 boot on],
    with [msdos] exactly when the marker group of the first name is bound;
    every later fragment is [mkpart primary <fstype> <start> <end>] with
    [<start>] the end token declared by the previous file name; [<end>] is
    the token declared by the file name, except for the last file, where
    it is [100%]. *)
Theorem short_format_builder :
  forall (files : list str) (ms : list groups),
    files <> [] ->
    Forall2 (fun f m => re_match short_format f = Some m) files ms ->
    exists ps,
      _try_get_partitions_short_format files = Ok ps
      /\ List.length ps = List.length files
      /\ forall i f m,
           nth_error files i = Some f ->
           nth_error ms i = Some m ->
           exists fs e,
             group m "fstype" = Some fs
             /\ group m "partition_end" = Some e
             /\ let end_i : str :=
                  if Nat.eqb (S i) (List.length files) then "100%" else e in
                let fragment : str :=
                  match i with
                  | O =>
                      "unit s mklabel "
                        ++ match group m "msdos" with
                           | Some _ => "msdos"
                           | None => "gpt"
                           end
                        ++ " mkpart primary " ++ fs ++ " " ++ "1MiB" ++ " "
                        ++ end_i ++ " set 1 boot on"
                  | S j =>
                      "mkpart primary " ++ fs ++ " "
                        ++ fmt (group (nth j ms []) "partition_end")
                        ++ " " ++ end_i
                  end in
                nth_error ps i = Some (mkPartition f fragment (Some fs)).
Proof.
  intros files ms Hne HF.
  exists (map (short_descriptor files ms) (seq 0 (List.length files))).
  split; [|split].
  - now apply short_builder_closed_form.
  - now rewrite length_map, length_seq.
  - intros i f m Hi Hm.
    assert (Hlt : (i < List.length files)%nat)
      by (apply nth_error_Some; congruence).
    assert (Hf : re_match short_format f = Some m).
    { clear Hlt. revert i Hi Hm.
      induction HF as [|f' m' fl ml Hfm HF IH]; intros [|i] Hi Hm;
        simpl in Hi, Hm; try discriminate.
      - inversion Hi; inversion Hm; subst; assumption.
      - eapply IH; eauto. intros ->. destruct i; discriminate. }
    destruct (short_format_groups f m Hf) as (e & fs & He & Hfs).
    exists fs, e. split; [exact Hfs|]. split; [exact He|].
    assert (Hnf : nth i files [] = f) by now apply nth_error_nth.
    assert (Hnm : nth i ms [] = m) by now apply nth_error_nth.
    cbv zeta. rewrite nth_error_map, nth_error_seq.
    apply Nat.ltb_lt in Hlt. rewrite Hlt. cbn [option_map Nat.add].
    unfold short_descriptor. rewrite Hnf, Hnm, Hfs. do 2 f_equal.
    unfold short_fragment, end_token, start_token, table_type.
    rewrite Hnm, Hfs, He.
    destruct i as [|j]; destruct (Nat.eqb _ _); destruct (group m "msdos");
      reflexivity.
Qed.

Lemma short_format_builder_readme :
  exists p1 p2,
    _try_get_partitions_short_format readme_short = Ok [p1; p2]
    /\ parted p1
       = "unit s mklabel gpt mkpart primary fat32 1MiB 8MiB set 1 boot on"
    /\ parted p2 = "mkpart primary ext4 8MiB 100%".
Proof.
  destruct (short_format_builder readme_short readme_short_matches)
    as (ps & Hps & Hlen & Hnth).
  - discriminate.
  - repeat constructor.
  - destruct (Hnth 0%nat _ _ eq_refl eq_refl) as (fs1 & e1 & F1 & E1 & N1).
    destruct (Hnth 1%nat _ _ eq_refl eq_refl) as (fs2 & e2 & F2 & E2 & N2).
    inversion F1; inversion E1; inversion F2; inversion E2; subst.
    destruct ps as [|p1 [|p2 [|p3 ps]]]; try discriminate.
    exists p1, p2. cbv zeta in N1, N2. simpl in N1, N2.
    inversion N1; inversion N2; subst.
    repeat split; assumption.
Defined.

Lemma short_loop_length (files : list str) :
  forall last i pe acc ps,
    short_loop last i files pe acc = Ok ps ->
    List.length ps = (List.length acc + List.length files)%nat.
Proof.
  induction files as [|f files IH]; intros last i pe acc ps H;
    cbn [short_loop] in H.
  - inversion H; subst. simpl. lia.
  - destruct (re_match short_format f) as [m|]; [|discriminate].
    apply IH in H. rewrite H, length_app. simpl. lia.
Qed.

Lemma short_loop_filenames (files : list str) :
  forall last i pe acc ps,
    short_loop last i files pe acc = Ok ps ->
    map filename ps = map filename acc ++ files.
Proof.
  induction files as [|f files IH]; intros last i pe acc ps H;
    cbn [short_loop] in H.
  - inversion H; subst. now rewrite app_nil_r.
  - destruct (re_match short_format f) as [m|]; [|discriminate].
    apply IH in H. rewrite H, map_app, <- app_assoc. reflexivity.
Qed.

Lemma short_loop_raise (pre : list str) (g : str) (post : list str) :
  Forall (parses ShortFormat) pre ->
  re_match short_format g = None ->
  forall last i pe acc,
    short_loop last i (pre ++ g :: post) pe acc
    = Raise (PartitionParseException g).
Proof.
  intros Hpre Hg.
  induction Hpre as [|f pre Hf Hpre IH]; intros last i pe acc;
    cbn [short_loop app].
  - now rewrite Hg.
  - destruct Hf as (m & ->). apply IH.
Qed.

Lemma short_loop_raise_any (g : str) (files : list str) :
  In g files ->
  re_match short_format g = None ->
  forall last i pe acc,
    exists h, In h files
              /\ short_loop last i files pe acc
                 = Raise (PartitionParseException h).
Proof.
  intros Hin Hg.
  induction files as [|f files IH]; intros last i pe acc; [easy|].
  cbn [short_loop].
  destruct (re_match short_format f) as [m|] eqn:Ef.
  - destruct Hin as [-> | Hin]; [congruence|].
    edestruct (IH Hin) as (h & Hh & ->).
    exists h. split; [now right|reflexivity].
  - exists f. split; [now left|reflexivity].
Qed.

(** ** The long-format builder *)

(** The group [parted] is bound by every match of the long format. *)
Lemma long_format_groups (f : str) (m : groups) :
  re_match long_format f = Some m -> exists p, group m "parted" = Some p.
Proof.
  intros H. apply re_match_sound in H as (s' & H).
  unfold long_format, tar_suffix in H. inv_matches; simpl; eauto.
Qed.

Lemma long_loop_length (files : list str) :
  forall acc ps,
    long_loop files acc = Ok ps ->
    List.length ps = (List.length acc + List.length files)%nat.
Proof.
  induction files as [|f files IH]; intros acc ps H; simpl in H.
  - inversion H; subst. simpl. lia.
  - destruct (re_match long_format f) as [m|]; [|discriminate].
    destruct (group m "parted") as [p|]; [|discriminate].
    destruct (re_match long_format_fstype p) as [m'|]; [|discriminate].
    apply IH in H. rewrite H, length_app. simpl. lia.
Qed.

Lemma long_loop_filenames (files : list str) :
  forall acc ps,
    long_loop files acc = Ok ps ->
    map filename ps = map filename acc ++ files.
Proof.
  induction files as [|f files IH]; intros acc ps H; simpl in H.
  - inversion H; subst. now rewrite app_nil_r.
  - destruct (re_match long_format f) as [m|]; [|discriminate].
    destruct (group m "parted") as [p|]; [|discriminate].
    destruct (re_match long_format_fstype p) as [m'|]; [|discriminate].
    apply IH in H. rewrite H, map_app, <- app_assoc. reflexivity.
Qed.

Lemma long_loop_raise (pre : list str) (g : str) (post : list str) :
  Forall (parses LongFormat) pre ->
  re_match long_format g = None ->
  forall acc,
    long_loop (pre ++ g :: post) acc = Raise (PartitionParseException g).
Proof.
  intros Hpre Hg. induction Hpre as [|f pre Hf Hpre IH]; intros acc; simpl.
  - now rewrite Hg.
  - destruct Hf as (m & p & m' & -> & -> & ->). apply IH.
Qed.

Lemma long_loop_raise_any (g : str) (files : list str) :
  In g files ->
  re_match long_format g = None ->
  forall acc,
    exists h, In h files
              /\ long_loop files acc = Raise (PartitionParseException h).
Proof.
  intros Hin Hg. induction files as [|f files IH]; intros acc; [easy|].
  simpl long_loop.
  destruct (re_match long_format f) as [m|] eqn:Ef.
  - destruct (long_format_groups f m Ef) as (p & ->).
    destruct (re_match long_format_fstype p) as [m'|].
    + destruct Hin as [-> | Hin]; [congruence|].
      destruct (IH Hin (acc ++ [mkPartition f p (group m' "fstype")]))
        as (h & Hh & ->).
      exists h. split; [now right|reflexivity].
    + exists f. split; [now left|reflexivity].
  - exists f. split; [now left|reflexivity].
Qed.

(** In every match of the long format the group [parted] runs to the end
    of the name (or to its final newline) and the suffix group is
    unbound. *)
Lemma long_format_parted_to_end (f : str) (m : groups) :
  re_match long_format f = Some m ->
  exists pre p tail,
    f = pre ++ "-- parted " ++ p ++ tail
    /\ (tail = [] \/ tail = [newline])
    /\ group m "parted" = Some p
    /\ group m "3" = None.
Proof.
  unfold re_match, long_format. intros H.
  apply exec_seq_inv in H as (s1 & g1 & H1 & H).
  apply matches_star in H1 as (a & Hf & _ & ->).
  apply exec_seq_inv in H as (s2 & g2 & H2 & H).
  apply matches_lit in H2 as (-> & ->).
  apply exec_seq_inv in H as (s3 & g3 & H3 & H).
  apply matches_index in H3 as (d & ds & -> & _ & _ & _ & ->).
  apply exec_seq_inv in H as (s4 & g4 & H4 & H).
  apply matches_star in H4 as (a' & -> & _ & ->).
  apply exec_seq_inv in H as (s5 & g5 & H5 & H).
  apply matches_lit in H5 as (-> & ->).
  change (star dot s5
            (fun s' => exec f (tar_suffix "3" +++ Eos) s'
                         [("parted", captured s5 s'); ("1", d :: ds)]
                         (fun _ g => Some g)) = Some m) in H.
  apply star_inv_greedy in H as (p & b & -> & _ & Hk & Hlater).
  rewrite captured_app in Hk.
  assert (Hend : forall tail g,
             tail = [] \/ tail = [newline] ->
             exec f (tar_suffix "3" +++ Eos) tail g (fun _ g => Some g)
             = Some g)
    by (intros tail g [-> | ->]; reflexivity).
  pose proof Hk as Hk'.
  apply exec_sound in Hk' as (s' & g' & Hm & Hg). inversion Hg; subst g'.
  apply matches_seq in Hm as (s6 & g6 & H6 & H7).
  inversion H7; subst; clear H7.
  unfold tar_suffix in H6. inv_matches.
  - (* the suffix group took [.tar]: a longer run was possible *)
    exfalso.
    specialize (Hlater ".tar" s' ltac:(discriminate) eq_refl eq_refl).
    rewrite Hend in Hlater by assumption. discriminate.
  - exfalso.
    specialize (Hlater ".tar.gz" s' ltac:(discriminate) eq_refl eq_refl).
    rewrite Hend in Hlater by assumption. discriminate.
  - exists (a ++ "partition" ++ d :: ds ++ a'), p, s'.
    split.
    + rewrite <- !app_assoc. simpl. rewrite <- !app_assoc.
      reflexivity.
    + repeat split; auto.
Qed.

(** C7. A long-format file name that ends in [.tar] keeps the suffix in
    its script fragment: the greedy group [parted] runs to the end of the
    name and the optional suffix group matches nothing. *)
Theorem long_format_keeps_tar_suffix :
  _try_get_partitions_long_format
    ["partition02 -- parted mkpart primary ext4 8MiB 100%.tar" : str]
  = Ok [mkPartition
          "partition02 -- parted mkpart primary ext4 8MiB 100%.tar"
          "mkpart primary ext4 8MiB 100%.tar"
          (Some ("ext4" : str))].
Proof. vm_compute. reflexivity. Qed.

(** ** The format of a set *)

(** The construction runs the loop of the selected format over all the
    files, and nothing else. *)
Lemma from_directory_selected (files : list str) (fm : format) :
  sorted files = files ->
  selected_format files = Some fm ->
  from_directory files
  = (ps <- builder_loop fm files ;; Ok (mkCollection ps)).
Proof.
  intros Hs Hsel. unfold from_directory. rewrite Hs.
  destruct files as [|f0 rest]; [discriminate|].
  unfold selected_format in Hsel.
  unfold _try_get_partitions_long_format, _try_get_partitions_short_format.
  destruct (re_match long_format f0) as [ml|] eqn:El.
  - inversion Hsel; subst fm. unfold builder_loop.
    destruct (long_loop (f0 :: rest) []) as [ps|e] eqn:E; [|reflexivity].
    apply long_loop_length in E. cbn [bind].
    destruct ps as [|p ps]; [discriminate|]. reflexivity.
  - destruct (re_match short_format f0) as [ms|] eqn:Es; [|discriminate].
    inversion Hsel; subst fm. unfold builder_loop. cbn [bind].
    destruct (short_loop _ _ _ _ _) as [ps|e] eqn:E; [|reflexivity].
    apply short_loop_length in E. cbn [bind].
    destruct ps as [|p ps]; [discriminate|]. reflexivity.
Qed.

(** C6. On a non-empty sorted list of file names the first file alone
    selects the format, long before short.  The result is that of the loop
    of the selected format over all the files, so the other format is
    never tried on a later file.  A file that the pattern of the selected
    format rejects makes the construction raise [PartitionParseException];
    the exception names that file when the files before it all pass. *)
Theorem format_selected_by_first_file :
  forall (files : list str) (fm : format),
    sorted files = files ->
    selected_format files = Some fm ->
    from_directory files
    = (ps <- builder_loop fm files ;; Ok (mkCollection ps))
    /\ (forall g,
          In g files ->
          re_match (pattern_of fm) g = None ->
          exists h, In h files
                    /\ from_directory files
                       = Raise (PartitionParseException h))
    /\ (forall pre g post,
          files = pre ++ g :: post ->
          Forall (parses fm) pre ->
          re_match (pattern_of fm) g = None ->
          from_directory files = Raise (PartitionParseException g)).
Proof.
  intros files fm Hs Hsel.
  pose proof (from_directory_selected _ fm Hs Hsel) as Hfd.
  split; [exact Hfd|]. split.
  - intros g Hin Hg. rewrite Hfd.
    destruct fm; unfold builder_loop; simpl pattern_of in Hg.
    + destruct (long_loop_raise_any g files Hin Hg []) as (h & Hh & ->).
      now exists h.
    + edestruct (short_loop_raise_any g files Hin Hg) as (h & Hh & ->).
      now exists h.
  - intros pre g post -> Hpre Hg. rewrite Hfd.
    destruct fm; unfold builder_loop; simpl pattern_of in Hg.
    + now rewrite long_loop_raise.
    + now rewrite short_loop_raise.
Qed.

Lemma format_selected_by_first_file_mixed :
  selected_format mixed_set = Some ShortFormat
  /\ from_directory mixed_set
     = Raise (PartitionParseException
                "partition02 -- parted mkpart primary ext4 8MiB 100%").
Proof.
  split; [reflexivity|].
  refine (proj2 (proj2 (format_selected_by_first_file mixed_set ShortFormat
                          eq_refl eq_refl))
                ["partition01_8MiB_fat32" : str] _ [] eq_refl _ eq_refl).
  constructor; [|constructor].
  eexists. vm_compute. reflexivity.
Defined.

(** C5. On an empty listing the construction does not reach its own
    check for an empty result: indexing the first file name raises
    [IndexError] inside the long-format builder. *)
Theorem from_directory_empty_listing :
  from_directory [] = Raise IndexError.
Proof. reflexivity. Qed.

(** [PartitionsNotFoundException] is what a listing gets whose first file
    name matches neither pattern. *)
Lemma from_directory_not_found (listing : list str) (f0 : str)
      (rest : list str) :
  sorted listing = f0 :: rest ->
  re_match long_format f0 = None ->
  re_match short_format f0 = None ->
  from_directory listing = Raise PartitionsNotFoundException.
Proof.
  intros Hs Hl Hsh. unfold from_directory. rewrite Hs.
  unfold _try_get_partitions_long_format, _try_get_partitions_short_format.
  now rewrite Hl, Hsh.
Qed.

(** ** The image size *)

(** The first and the last descriptor of a collection carry the first and
    the last file name. *)
Lemma first_of_filenames (ps : list Partition) (f0 : str) (rest : list str) :
  map filename ps = f0 :: rest ->
  exists p0, first_of ps = Ok p0 /\ filename p0 = f0.
Proof.
  destruct ps as [|p0 ps]; [discriminate|]. simpl. intros H.
  inversion H. now exists p0.
Qed.

Lemma last_of_filenames (ps : list Partition) (f0 : str) (rest : list str) :
  map filename ps = f0 :: rest ->
  exists pl, last_of ps = Ok pl /\ filename pl = last rest f0.
Proof.
  intros H. unfold last_of.
  assert (Hr : map filename (rev ps) = rev (f0 :: rest))
    by now rewrite map_rev, H.
  destruct (rev ps) as [|pl r] eqn:E.
  - apply (f_equal (@List.length _)) in Hr.
    rewrite length_rev in Hr. discriminate.
  - exists pl. split; [reflexivity|].
    simpl map in Hr.
    assert (Hl : last (rev (rev (f0 :: rest))) f0 = last rest f0).
    { rewrite rev_involutive. destruct rest; reflexivity. }
    rewrite <- Hl, <- Hr. simpl rev. now rewrite last_last.
Qed.

Lemma total_long_format_groups (f : str) (m : groups) :
  re_match total_long_format f = Some m ->
  exists size, group m "size_all" = Some size.
Proof.
  intros H. apply re_match_sound in H as (s' & H).
  unfold total_long_format in H. inv_matches; simpl; eauto.
Qed.

Lemma total_short_format_groups (f : str) (m : groups) :
  re_match total_short_format f = Some m ->
  exists e, group m "partition_end" = Some e.
Proof.
  intros H. apply re_match_sound in H as (s' & H).
  unfold total_short_format in H. inv_matches; simpl; eauto.
Qed.

(** [get_total_size] in terms of the first and the last file name. *)
Lemma get_total_size_filenames (ps : list Partition) (f0 : str)
      (rest : list str) :
  map filename ps = f0 :: rest ->
  get_total_size (mkCollection ps)
  = match re_match total_long_format f0 with
    | Some m => _parse_size_opt (group m "size_all")
    | None =>
        match re_match total_short_format (last rest f0) with
        | Some m => _parse_size_opt (group m "partition_end")
        | None => Raise (PartitionSizeParseException None)
        end
    end.
Proof.
  intros H. unfold get_total_size. cbn [_partitions].
  destruct (first_of_filenames ps f0 rest H) as (p0 & -> & <-).
  destruct (last_of_filenames ps (filename p0) rest H) as (pl & -> & <-).
  reflexivity.
Qed.

(** C4, as the code has it.  For a collection built by the long-format
    builder: when the first file name matches the pattern for
    [ -- dd <size>], the image size is what [_parse_size] makes of
    [<size>], whatever the other file names are; when it does not, the rule
    of the short format is applied to the last file name, and the result
    is an error only when that rule finds no end token or the token does
    not resolve. *)
Theorem long_format_total_size :
  forall (f0 : str) (rest : list str) (ps : list Partition),
    _try_get_partitions_long_format (f0 :: rest) = Ok ps ->
    ps <> [] ->
    (forall m, re_match total_long_format f0 = Some m ->
               exists size, group m "size_all" = Some size
                            /\ get_total_size (mkCollection ps)
                               = _parse_size size)
    /\ (re_match total_long_format f0 = None ->
        (forall m, re_match total_short_format (last rest f0) = Some m ->
                   exists e, group m "partition_end" = Some e
                             /\ get_total_size (mkCollection ps)
                                = _parse_size e)
        /\ (re_match total_short_format (last rest f0) = None ->
            get_total_size (mkCollection ps)
            = Raise (PartitionSizeParseException None))).
Proof.
  intros f0 rest ps Hb Hne.
  assert (Hnames : map filename ps = f0 :: rest).
  { unfold _try_get_partitions_long_format in Hb.
    destruct (re_match long_format f0).
    - now apply long_loop_filenames in Hb.
    - inversion Hb; subst. congruence. }
  pose proof (get_total_size_filenames ps f0 rest Hnames) as Ht.
  split.
  - intros m Hm. rewrite Hm in Ht.
    destruct (total_long_format_groups f0 m Hm) as (size & Hsz).
    exists size. split; [exact Hsz|]. now rewrite Ht, Hsz.
  - intros Hnone. rewrite Hnone in Ht. split.
    + intros m Hm. rewrite Hm in Ht.
      destruct (total_short_format_groups _ m Hm) as (e & He).
      exists e. split; [exact He|]. now rewrite Ht, He.
    + intros Hm. now rewrite Hm in Ht.
Qed.

Lemma long_format_total_size_readme :
  exists ps,
    _try_get_partitions_long_format readme_long = Ok ps
    /\ get_total_size (mkCollection ps) = Ok 268435456.
Proof.
  destruct (_try_get_partitions_long_format readme_long) as [ps|e] eqn:E;
    [|vm_compute in E; discriminate].
  exists ps. split; [reflexivity|].
  assert (Hne : ps <> [])
    by (intros ->; vm_compute in E; discriminate).
  destruct (long_format_total_size _ _ ps E Hne) as [Hdd _].
  destruct (re_match total_long_format
              "partition01 -- dd 256MiB -- parted mklabel msdos mkpart primary fat32 1 8MiB")
    as [m|] eqn:Em; [|vm_compute in Em; discriminate].
  destruct (Hdd m eq_refl) as (size & Hsz & ->).
  vm_compute in Em. inversion Em; subst m.
  vm_compute in Hsz. inversion Hsz; subst size.
  vm_compute. reflexivity.
Defined.

(** A long-format file name without [ -- dd ] whose image size resolves
    all the same, by the rule of the short format. *)
Lemma long_format_without_dd_resolves :
  exists ps,
    _try_get_partitions_long_format
      ["partition01_5MB -- parted mkpart primary ext4 1MiB 100%" : str]
    = Ok ps
    /\ ps <> []
    /\ re_match total_long_format
         "partition01_5MB -- parted mkpart primary ext4 1MiB 100%" = None
    /\ get_total_size (mkCollection ps) = Ok 5000000.
Proof.
  eexists. split; [vm_compute; reflexivity|].
  split; [discriminate|]. split; vm_compute; reflexivity.
Qed.

(** A name that the pattern of [get_total_size] accepts at its very start
    begins with [p] and holds a separator. *)
Lemma total_short_needs (w s : str) (o : groups) :
  exec w (Lit "partition" +++ Group "1" (Cls digit +++ Opt (Cls digit))
          +++ Cls sep +++ Group "partition_end" (Plus not_sep))
       s [] (fun _ g => Some g) = Some o ->
  (exists t, s = "p"%char :: t) /\ existsb sep s = true.
Proof.
  intros H. apply exec_sound in H as (s' & g' & H & _).
  apply matches_seq in H as (s1 & g1 & H1 & H).
  apply matches_lit in H1 as (-> & ->).
  apply matches_seq in H as (s2 & g2 & H2 & H).
  apply matches_index in H2 as (d & ds & -> & Hd & Hds & Hlen & ->).
  apply matches_seq in H as (s3 & g3 & H3 & H).
  apply matches_cls in H3 as (sp & -> & Hsp & ->).
  split; [simpl; eauto|].
  change (existsb sep (("partition" ++ d :: ds) ++ sp :: s3) = true).
  rewrite existsb_app. simpl existsb at 2. rewrite Hsp.
  now rewrite orb_true_r.
Qed.

(** On a name of the shape [a partition NN sep e sep' v], with no [p] in
    [e] and no separator in [v], the pattern of [get_total_size] finds the
    end token [e]: it matches at the same [partition] and at no later
    place. *)
Lemma total_short_on_shape (a : str) (d : ascii) (ds : str) (sp : ascii)
      (e : str) (sp' : ascii) (v : str) :
  forallb dot a = true ->
  digit d = true -> forallb digit ds = true -> (List.length ds <= 1)%nat ->
  sep sp = true ->
  e <> [] -> forallb not_sep e = true -> forallb not_p e = true ->
  sep sp' = true ->
  forallb not_sep v = true ->
  exists m',
    re_match total_short_format
      (a ++ "partition" ++ d :: ds ++ sp :: e ++ sp' :: v) = Some m'
    /\ group m' "partition_end" = Some e.
Proof.
  intros Ha Hd Hds Hlen Hsp Hne He Hpe Hsp' Hv.
  exists [("partition_end", e); ("1", d :: ds)].
  split; [|reflexivity].
  unfold re_match, total_short_format.
  change (exec ?w (Star dot +++ ?r) ?s ?g ?k)
    with (star dot s (fun s' => exec w r s' g k)).
  apply star_pick; [exact Ha| |].
  - (* the match at this [partition] *)
    destruct e as [|c e']; [congruence|].
    simpl in He. apply andb_true_iff in He as [Hc He'].
    assert (Hend :
      star not_sep (e' ++ sp' :: v)
        (fun s'' =>
           Some [("partition_end",
                  captured (c :: e' ++ sp' :: v) s'');
                 ("1", d :: ds)])
      = Some [("partition_end", c :: e'); ("1", d :: ds)]).
    { apply star_max; [exact He'|now apply sep_not_not_sep|].
      now rewrite (captured_prefix (c :: e') _ (sp' :: v)). }
    destruct ds as [|d2 [|d3 ds]]; [| |simpl in Hlen; lia].
    + cbn [exec app strip_prefix list_ascii_of_string].
      repeat rewrite Ascii.eqb_refl. cbn [app].
      rewrite Hd, (sep_not_digit sp Hsp), Hsp, Hc.
      rewrite (captured_prefix [d] _ (sp :: c :: e' ++ sp' :: v))
        by reflexivity.
      exact Hend.
    + simpl in Hds. rewrite andb_true_r in Hds.
      cbn [exec app strip_prefix list_ascii_of_string].
      repeat rewrite Ascii.eqb_refl. cbn [app].
      rewrite Hd, Hds, Hsp, Hc.
      rewrite (captured_prefix [d; d2] _ (sp :: c :: e' ++ sp' :: v))
        by reflexivity.
      match goal with
      | |- match ?t with Some _ => _ | None => _ end = _ =>
          assert (Ht : t = Some [("partition_end", c :: e');
                                 ("1", [d; d2])]) by exact Hend;
          now rewrite Ht
      end.
  - (* no match at a later place *)
    intros x b' Hx Hb _.
    match goal with
    | |- ?lhs = None => destruct lhs as [o|] eqn:E; [exfalso|reflexivity]
    end.
    apply total_short_needs in E as [(t & ->) Hex].
    destruct x as [|c0 x']; [congruence|].
    assert (Hb' : x' ++ "p"%char :: t
                  = ("artition" ++ d :: ds ++ sp :: e ++ [sp']) ++ v).
    { simpl in Hb. inversion Hb as [[Hc0 Hb']].
      simpl. rewrite <- app_assoc. simpl. rewrite <- app_assoc.
      reflexivity. }
    clear Hb.
    assert (Hu : forallb not_p ("artition" ++ d :: ds ++ sp :: e ++ [sp'])
                 = true).
    { rewrite forallb_app. apply andb_true_iff. split; [reflexivity|].
      cbn [forallb]. rewrite (digit_not_p d Hd). cbn [andb].
      rewrite forallb_app, (forallb_impl _ _ _ digit_not_p Hds).
      cbn [andb forallb]. rewrite (sep_not_p sp Hsp). cbn [andb].
      rewrite forallb_app, Hpe. cbn [andb forallb].
      now rewrite (sep_not_p sp' Hsp'). }
    apply app_eq_app in Hb' as (l & [[H1 H2] | [H1 H2]]).
    + (* the later place is inside [v] *)
      rewrite H2, forallb_app in Hv. apply andb_true_iff in Hv as [_ Hv].
      apply forallb_existsb_sep in Hv. congruence.
    + (* the later place is before [v] *)
      destruct l as [|c1 l'].
      * simpl in H2. subst v. apply forallb_existsb_sep in Hv. congruence.
      * simpl in H2. inversion H2; subst c1.
        rewrite H1, forallb_app in Hu.
        apply andb_true_iff in Hu as [_ Hu]. simpl in Hu. discriminate.
Qed.

(** On a short-format name without the marker whose end token resolves,
    the pattern of [get_total_size] finds that token. *)
Lemma total_short_agrees (f : str) (m : groups) (e : str) (n : Z) :
  re_match short_format f = Some m ->
  group m "msdos" = None ->
  group m "partition_end" = Some e ->
  _parse_size e = Ok n ->
  exists m', re_match total_short_format f = Some m'
             /\ group m' "partition_end" = Some e.
Proof.
  intros Hm Hmk He Hn.
  destruct (short_format_shape f m Hm)
    as (a & d & ds & sp & mk & e' & sp' & v & -> & Ha & Hd & Hds & Hlen
        & Hsp & Hmk' & Hne & He' & Hsp' & Hv & Hg).
  rewrite He in Hg. inversion Hg; subst e'. clear Hg.
  destruct Hmk' as [[-> _] | [Hmk' _]]; [|congruence].
  apply total_short_on_shape; auto.
  now apply parse_size_ok_chars with n.
Qed.

(** C3, as the code has it.  For a collection built by the short-format
    builder whose first file name has no [ -- dd <size>] in it and whose
    last file name carries no [msdos] marker: when the end token declared
    by the last file name resolves to a byte count, that count is the
    image size, not the [100%] of the last fragment. *)
Theorem short_format_total_size :
  forall (f0 : str) (rest : list str) (m0 : groups) (mrest : list groups)
         (e : str) (n : Z),
    Forall2 (fun f m => re_match short_format f = Some m)
            (f0 :: rest) (m0 :: mrest) ->
    re_match total_long_format f0 = None ->
    group (last mrest m0) "msdos" = None ->
    group (last mrest m0) "partition_end" = Some e ->
    _parse_size e = Ok n ->
    exists ps,
      _try_get_partitions_short_format (f0 :: rest) = Ok ps
      /\ get_total_size (mkCollection ps) = Ok n.
Proof.
  intros f0 rest m0 mrest e n HF Hdd Hmk He Hn.
  assert (Hne : f0 :: rest <> []) by discriminate.
  pose proof (short_builder_closed_form _ _ Hne HF) as Hb.
  eexists. split; [exact Hb|].
  assert (Hnames :
    map filename (map (short_descriptor (f0 :: rest) (m0 :: mrest))
                      (seq 0 (List.length (f0 :: rest)))) = f0 :: rest).
  { unfold _try_get_partitions_short_format in Hb.
    inversion HF as [|? ? ? ? Hf0 _]; subst. rewrite Hf0 in Hb.
    now apply short_loop_filenames in Hb. }
  rewrite (get_total_size_filenames _ f0 rest Hnames), Hdd.
  apply Forall2_last in HF.
  destruct (total_short_agrees _ _ e n HF Hmk He Hn) as (m' & -> & ->).
  exact Hn.
Qed.

Lemma short_format_total_size_readme :
  exists ps,
    _try_get_partitions_short_format readme_short = Ok ps
    /\ get_total_size (mkCollection ps) = Ok 17179869184.
Proof.
  apply (short_format_total_size
           "partition01_8MiB_fat32" ["partition02_16GiB_ext4" : str]
           (nth 0 readme_short_matches []) [nth 1 readme_short_matches []]
           "16GiB").
  - repeat constructor.
  - reflexivity.
  - reflexivity.
  - reflexivity.
  - vm_compute. reflexivity.
Defined.

Lemma dd_in_path_total_size :
  exists ps m,
    _try_get_partitions_short_format dd_in_path = Ok ps
    /\ from_directory dd_in_path = Ok (mkCollection ps)
    /\ re_match short_format "img -- dd 1GiB x/partition02_16GiB_ext4"
       = Some m
    /\ group m "msdos" = None
    /\ group m "partition_end" = Some ("16GiB" : str)
    /\ _parse_size "16GiB" = Ok 17179869184
    /\ get_total_size (mkCollection ps) = Ok 1073741824.
Proof.
  do 2 eexists.
  split; [vm_compute; reflexivity|].
  split; [vm_compute; reflexivity|].
  split; [vm_compute; reflexivity|].
  repeat split; vm_compute; reflexivity.
Qed.

(** A single short-format file without the marker is the first and the
    last partition, and its declared end token gives the image size. *)
Lemma single_file_without_marker (f : str) (m : groups) (e fs : str)
      (n : Z) :
  re_match short_format f = Some m ->
  group m "msdos" = None ->
  group m "partition_end" = Some e ->
  group m "fstype" = Some fs ->
  re_match total_long_format f = None ->
  _parse_size e = Ok n ->
  exists p,
    _try_get_partitions_short_format [f] = Ok [p]
    /\ filename p = f
    /\ parted p
       = "unit s mklabel gpt mkpart primary " ++ fs ++ " 1MiB 100%"
           ++ " set 1 boot on"
    /\ get_total_size (mkCollection [p]) = Ok n.
Proof.
  intros Hm Hmk He Hfs Hdd Hn.
  assert (HF : Forall2 (fun f m => re_match short_format f = Some m)
                       [f] [m]) by (repeat constructor; exact Hm).
  assert (Hne : [f] <> []) by discriminate.
  pose proof (short_builder_closed_form _ _ Hne HF) as Hb.
  exists (short_descriptor [f] [m] 0).
  split; [exact Hb|]. split; [reflexivity|]. split.
  - cbn [short_descriptor parted short_fragment nth start_token end_token
         List.length Nat.eqb fmt table_type].
    unfold table_type. rewrite Hmk, Hfs. cbn [fmt].
    unfold first_partition_start. simpl. reflexivity.
  - rewrite (get_total_size_filenames [short_descriptor [f] [m] 0] f []
               eq_refl), Hdd.
    destruct (total_short_agrees f m e n Hm Hmk He Hn) as (m' & Hm' & He').
    cbn [last]. now rewrite Hm', He'.
Qed.

(** C10. A single short-format file with the [msdos] marker gets the
    fragment of a first and last partition, but the image size is not
    resolved: the pattern of [get_total_size] has no marker group and
    takes [msdos] for the end token. *)
Theorem single_msdos_file_has_no_total_size :
  exists c,
    from_directory ["partition01_msdos_8MiB_fat32" : str] = Ok c
    /\ get_parted c
       = ["unit s mklabel msdos mkpart primary fat32 1MiB 100% set 1 boot on"
          : str]
    /\ (exists m, re_match short_format "partition01_msdos_8MiB_fat32"
                  = Some m
                  /\ group m "partition_end" = Some ("8MiB" : str))
    /\ _parse_size "8MiB" = Ok 8388608
    /\ get_total_size c = Raise (PartitionSizeParseException None).
Proof.
  eexists. split; [vm_compute; reflexivity|].
  split; [vm_compute; reflexivity|].
  split; [eexists; split; vm_compute; reflexivity|].
  split; vm_compute; reflexivity.
Qed.

(** ** Determinism *)

(** C9. Two constructions in a row, from listings of the same file names
    in any order and from any module state, return the same result (the
    same descriptors in the same order, or the same exception) and leave
    the module state as it was. *)
Theorem construction_is_deterministic :
  forall (listing listing' : list str) (g : Globals),
    Permutation listing listing' ->
    exists r,
      and_then (call_from_directory listing)
        (fun r1 => and_then (call_from_directory listing')
                     (fun r2 => ret (r1, r2))) g
      = ((r, r), g).
Proof.
  intros listing listing' g Hp.
  exists (from_directory listing).
  unfold and_then, call_from_directory, ret.
  unfold from_directory. now rewrite (sorted_permutation _ _ Hp).
Qed.

Lemma construction_is_deterministic_readme :
  exists r,
    and_then (call_from_directory readme_short)
      (fun r1 => and_then (call_from_directory (rev readme_short))
                   (fun r2 => ret (r1, r2))) (mkGlobals true)
    = ((r, r), mkGlobals true).
Proof.
  apply construction_is_deterministic.
  apply Permutation_rev.
Defined.

(** ** More on the size resolver *)


(** A token that does not begin with a digit or a dot is no size. *)
Lemma parse_size_without_number (size : str) :
  match size with [] => True | c :: _ => digit_or_dot c = false end ->
  _parse_size size = Raise (PartitionSizeParseException None).
Proof.
  intros H. unfold _parse_size, re_match, size_pattern. cbn [exec].
  rewrite Nat.eqb_refl.
  destruct size as [|c s]; [reflexivity|]. now rewrite H.
Qed.





Lemma digits_value_nonneg (s : str) :
  forallb digit s = true ->
  forall acc, 0 <= acc -> 0 <= digits_value acc s.
Proof.
  induction s as [|c s IH]; cbn [digits_value forallb]; intros H acc Hacc;
    [exact Hacc|].
  apply andb_true_iff in H as [Hc Hs]. apply IH; [exact Hs|].
  unfold digit, in_range in Hc. apply andb_true_iff in Hc as [H1 H2].
  apply Nat.leb_le in H1. apply Nat.leb_le in H2. unfold digit_value. lia.
Qed.

Lemma units_positive (key : str) (mult : Z) :
  lookup units key = Some mult -> 0 < mult.
Proof.
  intros H. apply lookup_In in H. unfold units in H. simpl in H.
  repeat (destruct H as [H|H]; [inversion H; reflexivity|]).
  contradiction.
Qed.

Lemma round_double_nonneg (n d q e : Z) :
  0 <= n -> 0 < d -> round_double n d = Finite q e -> 0 <= q.
Proof.
  intros Hn Hd H. destruct (Z.eq_dec n 0) as [->|Hn0].
  - unfold round_double in H. simpl in H. inversion H. lia.
  - apply round_double_precision in H; lia.
Qed.

Lemma float_of_str_nonneg (s : str) (m e : Z) :
  float_of_str s = Ok (Finite m e) -> 0 <= m.
Proof.
  unfold float_of_str. destruct (split_at_dot s) as [ip rest].
  set (fp := match rest with Some f => f | None => [] end).
  destruct (forallb digit ip) eqn:Hip; [|discriminate].
  destruct (forallb digit fp) eqn:Hfp; [|discriminate].
  destruct (negb _); [|discriminate]. simpl. intros H. inversion H as [H'].
  apply round_double_nonneg in H'; [exact H'| |].
  - apply digits_value_nonneg; [|lia]. now rewrite forallb_app, Hip, Hfp.
  - apply Z.pow_pos_nonneg; lia.
Qed.

Lemma parse_size_sign (size : str) (n : Z) :
  _parse_size size = Ok n -> 0 <= n.
Proof.
  unfold _parse_size.
  destruct (re_match size_pattern size) as [m|]; [|discriminate].
  destruct (float_of_str (fmt (group m "1"))) as [x|] eqn:Hx;
    [|discriminate]. cbn [bind].
  destruct (lookup units _) as [mult|] eqn:Hl; [|discriminate].
  apply units_positive in Hl.
  destruct x as [mx ex|]; [|discriminate].
  apply float_of_str_nonneg in Hx.
  unfold float_mul.
  assert (Hq : forall q e, (if 0 <=? ex
                            then round_double (mx * mult * 2 ^ ex) 1
                            else round_double (mx * mult) (2 ^ (- ex)))
                           = Finite q e -> 0 <= q).
  { intros q e. destruct (Z.leb_spec 0 ex) as [He|He]; intros H.
    - apply round_double_nonneg in H; [exact H| |lia].
      apply Z.mul_nonneg_nonneg; [nia|]. apply Z.pow_nonneg. lia.
    - apply round_double_nonneg in H; [exact H|nia|].
      apply Z.pow_pos_nonneg; lia. }
  destruct (if 0 <=? ex then _ else _) as [q e|] eqn:Hm; [|discriminate].
  specialize (Hq q e eq_refl). simpl. intros H. inversion H; subst n.
  destruct (Z.leb_spec 0 e).
  - apply Z.mul_nonneg_nonneg; [lia|]. apply Z.pow_nonneg. lia.
  - apply Z.div_pos; [lia|]. apply Z.pow_pos_nonneg; lia.
Qed.

(** X3. The resolver never returns a negative byte count. *)
Theorem parse_size_nonneg (size : str) (n : Z) :
  _parse_size size = Ok n -> 0 <= n.
Proof. apply parse_size_sign. Qed.

Lemma parse_size_nonneg_GiB :
  _parse_size "16GiB" = Ok 17179869184 /\ 0 <= 17179869184.
Proof.
  assert (H : _parse_size "16GiB" = Ok 17179869184)
    by (vm_compute; reflexivity).
  split; [exact H|]. exact (parse_size_nonneg "16GiB" _ H).
Defined.

(** [round_double] is exact on an integer below [2^53], however the
    fraction is scaled. *)
Lemma round_double_exact (M j : Z) :
  0 < M < 2 ^ 53 -> 0 <= j ->
  round_double (M * 2 ^ j) (2 ^ j)
  = Finite (M * 2 ^ (52 - Z.log2 M)) (Z.log2 M - 52).
Proof.
  intros HM Hj.
  assert (Hpj : 0 < 2 ^ j) by (apply Z.pow_pos_nonneg; lia).
  pose proof (Z.log2_spec M ltac:(lia)) as [HL1 HL2].
  pose proof (Z.log2_nonneg M) as HL0.
  assert (HL : Z.log2 M <= 52).
  { assert (Z.log2 M < 53); [|lia]. apply Z.log2_lt_pow2; lia. }
  unfold round_double.
  destruct (Z.eqb_spec (M * 2 ^ j) 0) as [E|_]; [nia|].
  rewrite Z.log2_mul_pow2, Z.log2_pow2 by lia.
  replace (j + Z.log2 M - j) with (Z.log2 M) by lia.
  set (L := Z.log2 M) in *.
  destruct (Z.leb_spec 0 L) as [_|?]; [|lia].
  assert (HpL : 0 < 2 ^ L) by (apply Z.pow_pos_nonneg; lia).
  destruct (Z.ltb_spec (M * 2 ^ j) (2 ^ j * 2 ^ L)) as [?|_]; [nia|].
  rewrite (Z.max_l (L - 52) (-1074)) by lia.
  assert (Hp52 : 0 < 2 ^ (52 - L)) by (apply Z.pow_pos_nonneg; lia).
  assert (Hq : forall num den q,
             0 < den -> num = q * den ->
             (if ((971 <? L - 52)
                  || ((L - 52 =? 971)
                      && (2 ^ 53 <=?
                          (if ((den <? 2 * (num mod den))
                               || ((2 * (num mod den) =? den)
                                   && Z.odd (num / den)))%bool
                           then num / den + 1 else num / den))))%bool
              then Inf
              else Finite
                     (if ((den <? 2 * (num mod den))
                          || ((2 * (num mod den) =? den)
                              && Z.odd (num / den)))%bool
                      then num / den + 1 else num / den) (L - 52))
             = Finite q (L - 52)).
  { intros num den q Hden ->.
    rewrite Z.mod_mul, Z.div_mul by lia.
    destruct (Z.ltb_spec den (2 * 0)) as [?|_]; [lia|].
    destruct (Z.eqb_spec (2 * 0) den) as [?|_]; [lia|].
    destruct (Z.ltb_spec 971 (L - 52)) as [?|_]; [lia|].
    destruct (Z.eqb_spec (L - 52) 971) as [?|_]; [lia|].
    reflexivity. }
  destruct (Z.leb_spec 0 (L - 52)) as [He|He].
  - assert (L = 52) by lia.
    apply Hq; [nia|].
    replace (L - 52) with 0 by lia. replace (52 - L) with 0 by lia.
    change (2 ^ 0) with 1. lia.
  - apply Hq; [lia|].
    replace (- (L - 52)) with (52 - L) by lia. lia.
Qed.

Lemma int_of_float_exact (M : Z) :
  0 < M < 2 ^ 53 ->
  int_of_float (Finite (M * 2 ^ (52 - Z.log2 M)) (Z.log2 M - 52)) = Ok M.
Proof.
  intros HM. pose proof (Z.log2_nonneg M) as HL0.
  assert (HL : Z.log2 M <= 52).
  { assert (Z.log2 M < 53); [|lia]. apply Z.log2_lt_pow2; lia. }
  unfold int_of_float. f_equal.
  destruct (Z.leb_spec 0 (Z.log2 M - 52)).
  - replace (Z.log2 M - 52) with 0 by lia.
    replace (52 - Z.log2 M) with 0 by lia. change (2 ^ 0) with 1. lia.
  - replace (- (Z.log2 M - 52)) with (52 - Z.log2 M) by lia.
    apply Z.div_mul. apply Z.pow_nonzero; lia.
Qed.

Lemma float_mul_exact (N k : Z) :
  0 < N -> 0 < k -> N * k < 2 ^ 53 ->
  float_mul (Finite (N * 2 ^ (52 - Z.log2 N)) (Z.log2 N - 52)) k
  = Finite (N * k * 2 ^ (52 - Z.log2 (N * k))) (Z.log2 (N * k) - 52).
Proof.
  intros HN Hk Hlt.
  assert (HN53 : N < 2 ^ 53) by nia.
  pose proof (Z.log2_nonneg N) as HL0.
  assert (HL : Z.log2 N <= 52).
  { assert (Z.log2 N < 53); [|lia]. apply Z.log2_lt_pow2; lia. }
  unfold float_mul. destruct (Z.leb_spec 0 (Z.log2 N - 52)).
  - replace (Z.log2 N - 52) with 0 by lia.
    replace (52 - Z.log2 N) with 0 by lia.
    match goal with
    | |- round_double ?n 1 = _ =>
        replace (round_double n 1)
          with (round_double (N * k * 2 ^ 0) (2 ^ 0))
          by (change (2 ^ 0) with 1; f_equal; lia)
    end.
    apply round_double_exact; nia.
  - replace (- (Z.log2 N - 52)) with (52 - Z.log2 N) by lia.
    replace (N * 2 ^ (52 - Z.log2 N) * k)
      with (N * k * 2 ^ (52 - Z.log2 N)) by lia.
    apply round_double_exact; nia.
Qed.

Lemma split_at_dot_digits (s : str) :
  forallb digit s = true -> split_at_dot s = (s, None).
Proof.
  induction s as [|c s IH]; simpl; [reflexivity|].
  intros H. apply andb_true_iff in H as [Hc Hs].
  destruct (Ascii.eqb c ".") eqn:E.
  - apply Ascii.eqb_eq in E. subst c. discriminate.
  - now rewrite IH.
Qed.

(** X4. A whole number of units below [2^53] bytes is resolved exactly. *)
Theorem parse_size_integer_exact (ds u : str) (mult : Z) :
  ds <> [] ->
  forallb digit ds = true ->
  lookup units (lower u) = Some mult ->
  digits_value 0 ds * mult < 2 ^ 53 ->
  _parse_size (ds ++ u) = Ok (digits_value 0 ds * mult).
Proof.
  intros Hne Hds Hu Hlt.
  pose proof (units_positive _ _ Hu) as Hm.
  pose proof (digits_value_nonneg ds Hds 0 ltac:(lia)) as HN.
  set (N := digits_value 0 ds) in *.
  assert (Hx : float_of_str ds = Ok (round_double N 1)).
  { unfold float_of_str. rewrite (split_at_dot_digits ds Hds).
    rewrite Hds, app_nil_r. cbn [forallb andb List.length].
    rewrite Nat.add_0_r.
    destruct ds; [congruence|]. reflexivity. }
  unfold _parse_size.
  rewrite (size_pattern_match ds u Hne (digit_is_digit_or_dot ds Hds)
             (units_chars u mult Hu)).
  simpl group. cbn [fmt]. rewrite Hx. cbn [bind]. rewrite Hu.
  destruct (Z.eq_dec N 0) as [E|E].
  - rewrite E. reflexivity.
  - replace (round_double N 1) with (round_double (N * 2 ^ 0) (2 ^ 0))
      by (change (2 ^ 0) with 1; f_equal; lia).
    rewrite round_double_exact by nia.
    rewrite float_mul_exact by nia.
    apply int_of_float_exact. nia.
Qed.

Lemma parse_size_integer_exact_GiB : _parse_size "16GiB" = Ok 17179869184.
Proof.
  exact (parse_size_integer_exact "16" "GiB" _ ltac:(discriminate)
           eq_refl eq_refl eq_refl).
Defined.

(** ** The size resolver without the pattern *)

Lemma span_spec (p : ascii -> bool) (s a b : str) :
  span p s = (a, b) ->
  s = a ++ b /\ forallb p a = true
  /\ match b with [] => True | c :: _ => p c = false end.
Proof.
  revert a b. induction s as [|c s IH]; simpl; intros a b H.
  - inversion H; subst. auto.
  - destruct (p c) eqn:Ec.
    + destruct (span p s) as [a' b']. inversion H; subst.
      destruct (IH a' b eq_refl) as (-> & Ha & Hb).
      simpl. rewrite Ec, Ha. auto.
    + inversion H; subst. simpl. rewrite Ec. auto.
Qed.

Lemma not_dot_newline (c : ascii) : dot c = false -> c = newline.
Proof.
  unfold dot. intros H. apply negb_false_iff in H. now apply Ascii.eqb_eq.
Qed.

(** The pattern on a number, a unit and at most a final newline. *)
Lemma size_pattern_split_line (number u tail : str) :
  number <> [] ->
  forallb digit_or_dot number = true ->
  match u ++ tail with [] => True | c :: _ => digit_or_dot c = false end ->
  forallb dot u = true ->
  tail = [] \/ tail = [newline] ->
  re_match size_pattern (number ++ u ++ tail)
  = Some [("2", u); ("1", number)].
Proof.
  intros Hne Hnum Hhd Hu Htail. unfold re_match, size_pattern. cbn [exec].
  rewrite Nat.eqb_refl.
  destruct number as [|c a]; [congruence|].
  simpl in Hnum. apply andb_true_iff in Hnum as [Hc Ha].
  cbn [app]. rewrite Hc.
  apply star_max; [exact Ha|exact Hhd|].
  apply star_max; [exact Hu| |].
  - destruct Htail as [-> | ->]; [exact I|reflexivity].
  - rewrite (captured_prefix u (u ++ tail) tail) by reflexivity.
    rewrite (captured_prefix (c :: a) (c :: a ++ u ++ tail) (u ++ tail))
      by reflexivity.
    destruct Htail as [-> | ->]; reflexivity.
Qed.

Lemma digit_or_dot_is_dot (c : ascii) : digit_or_dot c = true -> dot c = true.
Proof.
  intros H. unfold dot. destruct (Ascii.eqb c newline) eqn:E; [|reflexivity].
  apply Ascii.eqb_eq in E. subst c. discriminate.
Qed.

(** A run of the class [.] stops before a newline. *)
Lemma dot_run_before_newline (a b w r : str) :
  a ++ b = w ++ newline :: r ->
  forallb dot a = true ->
  exists x, b = x ++ newline :: r.
Proof.
  revert w. induction a as [|c a IH]; intros w H Ha.
  - exists w. exact H.
  - simpl in Ha. apply andb_true_iff in Ha as [Hc Ha].
    destruct w as [|c' w]; simpl in H; inversion H; subst.
    + discriminate.
    + now apply (IH w).
Qed.

(** With a newline before the last character the pattern fails. *)
Lemma size_pattern_inner_newline (s r : str) (c : ascii) :
  re_match size_pattern (s ++ newline :: c :: r) = None.
Proof.
  unfold re_match, size_pattern. cbn [exec]. rewrite Nat.eqb_refl.
  destruct (s ++ newline :: c :: r) as [|c0 s0] eqn:E; [reflexivity|].
  destruct (digit_or_dot c0) eqn:Ec0; [|reflexivity].
  assert (Hs0 : exists w, s0 = w ++ newline :: c :: r).
  { destruct s as [|c1 s1]; simpl in E; inversion E; subst.
    - discriminate.
    - eauto. }
  destruct Hs0 as (w & Hs0).
  apply star_none. intros a b Hab Ha.
  apply star_none. intros a' b' Hab' Ha'.
  subst b. rewrite Hs0 in Hab.
  assert (Hb' : exists x, b' = x ++ newline :: c :: r).
  { apply dot_run_before_newline with (a ++ a') w.
    - now rewrite <- app_assoc.
    - rewrite forallb_app, Ha'.
      rewrite (forallb_impl _ _ _ digit_or_dot_is_dot Ha). reflexivity. }
  destruct Hb' as (x & ->).
  destruct x as [|d [|d' x]]; reflexivity.
Qed.

(** X5. On every input [_parse_size] is the scanner [parse_size_by_spans]:
    the number is the longest leading run of digits and dots, the unit
    is the rest of the line, at most one final newline may follow, and
    any other input is a [PartitionSizeParseException]. *)
Theorem parse_size_is_scanner (size : str) :
  _parse_size size = parse_size_by_spans size.
Proof.
  unfold parse_size_by_spans.
  destruct (span digit_or_dot size) as [number rest] eqn:E1.
  destruct (span dot rest) as [u tail] eqn:E2.
  apply span_spec in E1 as (-> & Hnum & Hrest).
  apply span_spec in E2 as (-> & Hu & Htail).
  destruct number as [|c number].
  - simpl app. apply parse_size_without_number. exact Hrest.
  - destruct tail as [|t [|t' tail]].
    + unfold _parse_size.
      rewrite (size_pattern_split_line (c :: number) u [])
        by (auto; discriminate).
      simpl group. cbn [fmt]. reflexivity.
    + apply not_dot_newline in Htail. subst t. unfold _parse_size.
      rewrite (size_pattern_split_line (c :: number) u [newline])
        by (auto; discriminate).
      simpl group. cbn [fmt]. reflexivity.
    + apply not_dot_newline in Htail. subst t. unfold _parse_size.
      replace ((c :: number) ++ u ++ newline :: t' :: tail)
        with (((c :: number) ++ u) ++ newline :: t' :: tail)
        by now rewrite <- app_assoc.
      now rewrite size_pattern_inner_newline.
Qed.

(** ** The construction as a whole *)

Lemma long_loop_failure (files : list str) :
  forall acc e,
    long_loop files acc = Raise e ->
    exists f, In f files /\ e = PartitionParseException f.
Proof.
  induction files as [|f files IH]; intros acc e H; simpl in H;
    [discriminate|].
  destruct (re_match long_format f) as [m|] eqn:Ef.
  - destruct (long_format_groups f m Ef) as (p & Hp). rewrite Hp in H.
    destruct (re_match long_format_fstype p) as [m'|].
    + apply IH in H as (g & Hg & ->). exists g. split; [now right|easy].
    + inversion H. exists f. split; [now left|easy].
  - inversion H. exists f. split; [now left|easy].
Qed.

Lemma short_loop_failure (files : list str) :
  forall last i pe acc e,
    short_loop last i files pe acc = Raise e ->
    exists f, In f files /\ e = PartitionParseException f.
Proof.
  induction files as [|f files IH]; intros last i pe acc e H;
    cbn [short_loop] in H; [discriminate|].
  destruct (re_match short_format f) as [m|] eqn:Ef.
  - apply IH in H as (g & Hg & ->). exists g. split; [now right|easy].
  - inversion H. exists f. split; [now left|easy].
Qed.

Lemma sorted_nil (l : list str) : sorted l = [] -> l = [].
Proof.
  intros H. apply Permutation_nil. rewrite <- H.
  symmetry. apply sorted_perm.
Qed.

Lemma from_directory_names (listing : list str) (c : PartitionCollection) :
  from_directory listing = Ok c ->
  map filename (_partitions c) = sorted listing /\ listing <> [].
Proof.
  unfold from_directory. intros H.
  assert (Hne : listing <> []).
  { intros ->. discriminate. }
  split; [|exact Hne].
  destruct (sorted listing) as [|f0 rest] eqn:Es; [discriminate|].
  unfold _try_get_partitions_long_format, _try_get_partitions_short_format
    in H.
  destruct (re_match long_format f0) as [ml|].
  - destruct (long_loop (f0 :: rest) []) as [ps|e] eqn:E; [|discriminate].
    pose proof (long_loop_filenames _ _ _ E) as Hn.
    cbn [bind] in H. destruct ps as [|p ps]; [discriminate|].
    cbn [bind List.length Nat.eqb] in H. inversion H; subst c. exact Hn.
  - cbn [bind] in H.
    destruct (re_match short_format f0) as [ms|]; [|discriminate].
    destruct (short_loop _ _ _ _ _) as [ps|e] eqn:E; [|discriminate].
    pose proof (short_loop_filenames _ _ _ _ _ _ E) as Hn.
    cbn [bind] in H. destruct ps as [|p ps]; [discriminate|].
    cbn [List.length Nat.eqb] in H. inversion H; subst c. exact Hn.
Qed.

(** X6. A collection has one descriptor per listed name, in sorted order, and
    is never empty. *)
Theorem from_directory_filenames (listing : list str)
        (c : PartitionCollection) :
  from_directory listing = Ok c ->
  map filename (_partitions c) = sorted listing /\ listing <> [].
Proof. apply from_directory_names. Qed.

Lemma from_directory_filenames_readme :
  exists c, from_directory (rev readme_short) = Ok c
            /\ map filename (_partitions c) = readme_short.
Proof.
  destruct (from_directory (rev readme_short)) as [c|e] eqn:E;
    [|vm_compute in E; discriminate].
  exists c. split; [reflexivity|].
  exact (proj1 (from_directory_filenames _ c E)).
Defined.

Lemma from_directory_raises (listing : list str) (e : exn) :
  from_directory listing = Raise e ->
  (e = IndexError /\ listing = [])
  \/ (e = PartitionsNotFoundException /\ listing <> []
      /\ selected_format (sorted listing) = None)
  \/ (exists f, e = PartitionParseException f /\ In f listing).
Proof.
  unfold from_directory. intros H.
  destruct (sorted listing) as [|f0 rest] eqn:Es.
  - left. apply sorted_nil in Es. inversion H. auto.
  - right.
    assert (Hne : listing <> []) by (intros ->; discriminate).
    assert (Hin : forall f, In f (f0 :: rest) -> In f listing).
    { intros f Hf. apply (Permutation_in f (Permutation_sym (sorted_perm listing))).
      now rewrite Es. }
    unfold _try_get_partitions_long_format,
      _try_get_partitions_short_format, selected_format in *.
    destruct (re_match long_format f0) as [ml|].
    + destruct (long_loop (f0 :: rest) []) as [ps|e'] eqn:E.
      * apply long_loop_length in E. cbn [bind] in H.
        destruct ps as [|p ps]; [discriminate|]. discriminate.
      * apply long_loop_failure in E as (f & Hf & ->).
        inversion H. right. eauto.
    + cbn [bind] in H.
      destruct (re_match short_format f0) as [ms|].
      * destruct (short_loop _ _ _ _ _) as [ps|e'] eqn:E.
        -- apply short_loop_length in E. cbn [bind] in H.
           destruct ps as [|p ps]; [discriminate|]. discriminate.
        -- apply short_loop_failure in E as (f & Hf & ->).
           inversion H. right. eauto.
      * inversion H. left. auto.
Qed.

(** X7. The construction fails in three ways only: [IndexError] on an empty
    listing, [PartitionsNotFoundException] when the first sorted name
    selects no format, and [PartitionParseException] naming a listed
    file. *)
Theorem from_directory_failures (listing : list str) (e : exn) :
  from_directory listing = Raise e ->
  (e = IndexError /\ listing = [])
  \/ (e = PartitionsNotFoundException /\ listing <> []
      /\ selected_format (sorted listing) = None)
  \/ (exists f, e = PartitionParseException f /\ In f listing).
Proof. apply from_directory_raises. Qed.

Lemma from_directory_failures_mixed :
  exists f, In f mixed_set
            /\ from_directory mixed_set = Raise (PartitionParseException f).
Proof.
  destruct (from_directory mixed_set) as [c|e] eqn:E;
    [vm_compute in E; discriminate|].
  destruct (from_directory_failures mixed_set e E)
    as [[-> _] | [[-> _] | (f & -> & Hf)]];
    [vm_compute in E; discriminate|vm_compute in E; discriminate|].
  now exists f.
Defined.

Lemma constructed_total_size (listing : list str)
      (c : PartitionCollection) :
  from_directory listing = Ok c ->
  (exists n, get_total_size c = Ok n /\ 0 <= n)
  \/ get_total_size c = Raise (PartitionSizeParseException None)
  \/ get_total_size c = Raise ValueError
  \/ get_total_size c = Raise OverflowError.
Proof.
  intros H. apply from_directory_names in H as [Hn Hne].
  destruct c as [ps]. cbn [_partitions] in Hn.
  destruct (sorted listing) as [|f0 rest] eqn:Es.
  - apply sorted_nil in Es. congruence.
  - rewrite (get_total_size_filenames ps f0 rest Hn).
    assert (Hp : forall s,
               (exists n, _parse_size s = Ok n /\ 0 <= n)
               \/ _parse_size s = Raise (PartitionSizeParseException None)
               \/ _parse_size s = Raise ValueError
               \/ _parse_size s = Raise OverflowError).
    { intros s. destruct (parse_size_failures s) as [(n & Hs)|Hs]; [|auto].
      left. exists n. split; [exact Hs|]. now apply parse_size_sign with s. }
    destruct (re_match total_long_format f0) as [m|] eqn:Em.
    + destruct (total_long_format_groups f0 m Em) as (size & ->). apply Hp.
    + destruct (re_match total_short_format (last rest f0)) as [m|] eqn:Em'.
      * destruct (total_short_format_groups _ m Em') as (e & ->). apply Hp.
      * auto.
Qed.

(** X8. The image size of a constructed collection is a non-negative byte
    count or one of three exceptions; it is never an [IndexError] or a
    [TypeError]. *)
Theorem total_size_of_constructed (listing : list str)
        (c : PartitionCollection) :
  from_directory listing = Ok c ->
  (exists n, get_total_size c = Ok n /\ 0 <= n)
  \/ get_total_size c = Raise (PartitionSizeParseException None)
  \/ get_total_size c = Raise ValueError
  \/ get_total_size c = Raise OverflowError.
Proof. apply constructed_total_size. Qed.

Lemma total_size_of_constructed_readme :
  exists c, from_directory readme_short = Ok c
            /\ get_total_size c = Ok 17179869184.
Proof.
  destruct (from_directory readme_short) as [c|e] eqn:E;
    [|vm_compute in E; discriminate].
  exists c. split; [reflexivity|].
  destruct (total_size_of_constructed _ c E) as [(n & Hn & _)|H].
  - rewrite Hn. f_equal.
    vm_compute in E. inversion E; subst c. vm_compute in Hn.
    now inversion Hn.
  - vm_compute in E. inversion E; subst c.
    destruct H as [H|[H|H]]; vm_compute in H; discriminate.
Defined.

(** ** The descriptors of the long format *)

Lemma long_format_fstype_shape (p : str) (m : groups) :
  re_match long_format_fstype p = Some m ->
  exists pre fs st en,
    p = pre ++ " " ++ fs ++ " " ++ st ++ " " ++ en
    /\ fs <> [] /\ forallb not_space fs = true
    /\ st <> [] /\ forallb not_space st = true
    /\ en <> [] /\ forallb not_space en = true
    /\ group m "fstype" = Some fs.
Proof.
  intros H. apply re_match_sound in H as (s' & H).
  unfold long_format_fstype in H.
  apply matches_seq in H as (s1 & g1 & H1 & H).
  apply matches_star in H1 as (pre & Hp & _ & ->).
  apply matches_seq in H as (s2 & g2 & H2 & H).
  apply matches_lit in H2 as (-> & ->).
  apply matches_seq in H as (s3 & g3 & H3 & H).
  apply matches_token in H3 as (fs & -> & Hfs & Hfs' & ->).
  apply matches_seq in H as (s4 & g4 & H4 & H).
  apply matches_lit in H4 as (-> & ->).
  apply matches_seq in H as (s5 & g5 & H5 & H).
  apply matches_token in H5 as (st & -> & Hst & Hst' & ->).
  apply matches_seq in H as (s6 & g6 & H6 & H).
  apply matches_lit in H6 as (-> & ->).
  apply matches_seq in H as (s7 & g7 & H7 & H).
  apply matches_token in H7 as (en & -> & Hen & Hen' & ->).
  inversion H as [| | | | | | | | | | |? ? Hs']; subst.
  exists pre, fs, st, (en ++ s').
  split; [reflexivity|].
  repeat (split; [assumption|]).
  split; [destruct en; [congruence|discriminate]|].
  split; [|reflexivity].
  rewrite forallb_app, Hen'. destruct Hs' as [-> | ->]; reflexivity.
Qed.

Lemma long_loop_descriptors (files : list str) :
  forall acc ps,
    Forall long_descriptor acc ->
    long_loop files acc = Ok ps ->
    Forall long_descriptor ps.
Proof.
  induction files as [|f files IH]; intros acc ps Hacc H; simpl in H.
  - now inversion H; subst.
  - destruct (re_match long_format f) as [m|] eqn:Ef; [|discriminate].
    destruct (long_format_parted_to_end f m Ef)
      as (before & p & tail & Hf & Htail & Hp & _).
    rewrite Hp in H.
    destruct (re_match long_format_fstype p) as [m'|] eqn:Ep;
      [|discriminate].
    destruct (long_format_fstype_shape p m' Ep)
      as (pre & fs & st & en & Hpp & H1 & H2 & H3 & H4 & H5 & H6 & H7).
    apply IH in H; [exact H|].
    apply Forall_app. split; [exact Hacc|].
    constructor; [|constructor].
    exists before, tail, pre, fs, st, en. cbn [filename parted fstype].
    repeat (split; [assumption|]). exact H7.
Qed.

(** X9. Every descriptor the long-format builder returns has for fragment the
    text of its file name after [-- parted ], to the end of the name, and
    for file-system type the third token from the end of the fragment. *)
Theorem long_format_descriptors (files : list str) (ps : list Partition) :
  _try_get_partitions_long_format files = Ok ps ->
  Forall long_descriptor ps.
Proof.
  unfold _try_get_partitions_long_format.
  destruct files as [|f0 rest]; [discriminate|].
  destruct (re_match long_format f0).
  - apply long_loop_descriptors. constructor.
  - intros H. inversion H. constructor.
Qed.

Lemma long_format_descriptors_readme :
  exists ps, _try_get_partitions_long_format readme_long = Ok ps
             /\ Forall long_descriptor ps.
Proof.
  destruct (_try_get_partitions_long_format readme_long) as [ps|e] eqn:E;
    [|vm_compute in E; discriminate].
  exists ps. split; [reflexivity|].
  exact (long_format_descriptors _ ps E).
Defined.

(** ** Names the short format accepts *)
















(** ** Runs of the combinators *)

Lemma interp_bind (W : World) {A B} (p : io A) (f : A -> io B)
      (s : state W) :
  interp W (io_bind p f) s
  = (fst (fst (interp W (f (fst (fst (interp W p s)))) (snd (interp W p s)))),
     snd (fst (interp W p s))
       ++ snd (fst (interp W (f (fst (fst (interp W p s))))
                      (snd (interp W p s)))),
     snd (interp W (f (fst (fst (interp W p s)))) (snd (interp W p s)))).
Proof.
  revert s. induction p as [a|c k IH]; intros s.
  - simpl. now destruct (interp W (f a) s) as [[b t] s'].
  - simpl. rewrite IH. reflexivity.
Qed.

Lemma sat_weaken {A} (m : Proc A) (Q Q' : outcome A -> list event -> Prop) :
  sat m Q -> (forall o t, Q o t -> Q' o t) -> sat m Q'.
Proof. intros H HQ W gl s. apply HQ, H. Qed.

Lemma sat_and {A} (m : Proc A) (Q Q' : outcome A -> list event -> Prop) :
  sat m Q -> sat m Q' -> sat m (fun o t => Q o t /\ Q' o t).
Proof. intros H H' W gl s. split; [apply H|apply H']. Qed.

Lemma sat_pure {A} (a : A) (Q : outcome A -> list event -> Prop) :
  Q (Returned a) [] -> sat (pure a) Q.
Proof. intros H W gl s. exact H. Qed.

Lemma sat_raise {A} (e : exception) (Q : outcome A -> list event -> Prop) :
  Q (Raised e) [] -> sat (raise e) Q.
Proof. intros H W gl s. exact H. Qed.

Lemma sat_exit {A} (code : Z) (Q : outcome A -> list event -> Prop) :
  Q (Raised (SystemExit code)) [] -> sat (exit code) Q.
Proof. apply sat_raise. Qed.

Lemma sat_lift {A} (r : result A) (Q : outcome A -> list event -> Prop) :
  Q (match r with Ok a => Returned a | Raise e => Raised (Exn e) end) [] ->
  sat (lift r) Q.
Proof. intros H W gl s. destruct r; exact H. Qed.

Lemma sat_lift_py {A} (c : Py A) (Q : outcome A -> list event -> Prop) :
  (forall a, Q (Returned a) []) -> sat (lift_py c) Q.
Proof.
  intros H W gl s. unfold run, lift_py. destruct (c gl) as [a gl'].
  apply H.
Qed.

Lemma sat_then {A B} (m : Proc A) (f : A -> Proc B)
      (Q : outcome B -> list event -> Prop) :
  sat m (fun o t =>
           match o with
           | Returned a => sat (f a) (fun o' t' => Q o' (t ++ t'))
           | Raised e => Q (Raised e) t
           end) ->
  sat (then_ m f) Q.
Proof.
  intros H W gl s. specialize (H W gl s).
  unfold outcome_of, trace_of, run, then_ in *.
  rewrite interp_bind. cbn [fst snd].
  destruct (interp W (m gl) s) as [[[o gl1] t1] s1]. cbn [fst snd] in *.
  destruct o as [a|e].
  - apply (H W gl1 s1).
  - simpl. now rewrite app_nil_r.
Qed.

Lemma sat_try_except {A} (body : Proc A)
      (handler : exception -> option (Proc A))
      (Q : outcome A -> list event -> Prop) :
  sat body (fun o t =>
              match o with
              | Returned a => Q (Returned a) t
              | Raised e =>
                  match handler e with
                  | Some h => sat h (fun o' t' => Q o' (t ++ t'))
                  | None => Q (Raised e) t
                  end
              end) ->
  sat (try_except body handler) Q.
Proof.
  intros H W gl s. specialize (H W gl s).
  unfold outcome_of, trace_of, run, try_except in *.
  rewrite interp_bind. cbn [fst snd].
  destruct (interp W (body gl) s) as [[[o gl1] t1] s1]. cbn [fst snd] in *.
  destruct o as [a|e].
  - simpl. now rewrite app_nil_r.
  - destruct (handler e) as [h|].
    + apply (H W gl1 s1).
    + simpl. now rewrite app_nil_r.
Qed.

Lemma sat_with {S R A} (enter : Proc (S * R)) (leave : S -> Proc unit)
      (body : R -> Proc A) (Q : outcome A -> list event -> Prop) :
  sat enter
      (fun o t =>
         match o with
         | Raised e => Q (Raised e) t
         | Returned (self, v) =>
             sat (body v)
                 (fun ob tb =>
                    sat (leave self)
                        (fun ox tx =>
                           Q (match ox with
                              | Raised e => Raised e
                              | Returned _ => ob
                              end) (t ++ tb ++ tx)))
         end) ->
  sat (with_ enter leave body) Q.
Proof.
  intros H W gl s. specialize (H W gl s).
  unfold outcome_of, trace_of, run, with_ in *.
  rewrite interp_bind. cbn [fst snd].
  destruct (interp W (enter gl) s) as [[[o gl1] t1] s1]. cbn [fst snd] in *.
  destruct o as [[self v]|e].
  - rewrite interp_bind. cbn [fst snd].
    specialize (H W gl1 s1). unfold outcome_of, trace_of, run in H.
    destruct (interp W (body v gl1) s1) as [[[ob gl2] tb] s2].
    cbn [fst snd] in *.
    rewrite interp_bind. cbn [fst snd].
    specialize (H W gl2 s2). unfold outcome_of, trace_of, run in H.
    destruct (interp W (leave self gl2) s2) as [[[ox gl3] tx] s3].
    cbn [fst snd] in *.
    destruct ox as [u|e]; simpl; rewrite app_nil_r; exact H.
  - simpl. now rewrite app_nil_r.
Qed.

Lemma sat_call (c : os_call) (Q : outcome (answer c) -> list event -> Prop) :
  (forall a, Q (Returned a) [Ev c a]) -> sat (call c) Q.
Proof. intros H W gl s. apply H. Qed.

Lemma sat_call_or_raise {A} (c : os_call) (get : answer c -> option A)
      (Q : outcome A -> list event -> Prop) :
  (forall a, Q (match get a with
                | Some v => Returned v
                | None => Raised OSError
                end) [Ev c a]) ->
  sat (call_or_raise c get) Q.
Proof.
  intros H W gl s. specialize (H (fst (respond W c s))).
  unfold outcome_of, trace_of, run, call_or_raise. cbn [interp fst snd].
  destruct (get (fst (respond W c s))); exact H.
Qed.

Lemma sat_print_error (err : str) (Q : outcome unit -> list event -> Prop) :
  Q (Returned tt)
    [Ev (print stderr (CRED ++ "Error: " ++ err ++ CEND)) tt] ->
  sat (print_error err) Q.
Proof.
  intros H. apply sat_call. intros []. exact H.
Qed.

Lemma sat_print_ok (ok : str) (Q : outcome unit -> list event -> Prop) :
  Q (Returned tt) [] ->
  Q (Returned tt) [Ev (print stdout (CGREEN ++ ok ++ CEND)) tt] ->
  sat (print_ok ok) Q.
Proof.
  intros H0 H1 W gl s. unfold run, print_ok.
  destruct (VERBOSE gl).
  - unfold outcome_of, trace_of, write, call. cbn [interp fst snd].
    match goal with
    | |- context [fst (respond W ?c s)] =>
        destruct (fst (respond W c s))
    end.
    exact H1.
  - exact H0.
Qed.

Lemma sat_print_notice (notice : str)
      (Q : outcome unit -> list event -> Prop) :
  Q (Returned tt) [] ->
  Q (Returned tt) [Ev (print stdout (CBLUE2 ++ notice ++ CEND)) tt] ->
  sat (print_notice notice) Q.
Proof.
  intros H0 H1 W gl s. unfold run, print_notice.
  destruct (VERBOSE gl).
  - unfold outcome_of, trace_of, write, call. cbn [interp fst snd].
    match goal with
    | |- context [fst (respond W ?c s)] =>
        destruct (fst (respond W c s))
    end.
    exact H1.
  - exact H0.
Qed.

Lemma sat_for_each {X} (l : list X) (body : X -> Proc unit)
      (I : list event -> Prop) (Q : outcome unit -> list event -> Prop) :
  I [] ->
  (forall x, In x l ->
             sat (body x)
                 (fun o t =>
                    forall t0, I t0 ->
                               match o with
                               | Returned _ => I (t0 ++ t)
                               | Raised e => Q (Raised e) (t0 ++ t)
                               end)) ->
  (forall t, I t -> Q (Returned tt) t) ->
  sat (for_each l body) Q.
Proof.
  intros H0 Hbody Hend.
  assert (G : forall t0, I t0 ->
                sat (for_each l body) (fun o t => Q o (t0 ++ t))).
  { induction l as [|x l IH]; intros t0 Ht0.
    - apply sat_pure. rewrite app_nil_r. now apply Hend.
    - cbn [for_each]. apply sat_then.
      eapply sat_weaken; [apply (Hbody x); now left|].
      intros o t Ho. specialize (Ho t0 Ht0). destruct o as [u|e].
      + eapply sat_weaken.
        * apply IH; [|exact Ho].
          intros y Hy. apply Hbody. now right.
        * intros o' t' HQ. now rewrite app_assoc.
      + exact Ho. }
  apply (G [] H0).
Qed.


(** ** Runs of the calls *)

Lemma sat_run_check (args : list str)
      (Q : outcome unit -> list event -> Prop) :
  (forall a : option CompletedProcess,
      Q (match a with
         | None => Raised OSError
         | Some done =>
             if returncode done =? 0 then Returned tt
             else Raised (CalledProcessError (returncode done) args)
         end) [Ev (subprocess_run args None false) a]) ->
  sat (subprocess_run_check args) Q.
Proof.
  intros H. unfold subprocess_run_check. apply sat_then.
  apply sat_call_or_raise. intros [done|]; cbn beta iota.
  - specialize (H (Some done)). cbn beta iota in H.
    destruct (returncode done =? 0).
    + apply sat_pure. exact H.
    + apply sat_raise. exact H.
  - exact (H None).
Qed.

(** One step of a run: the rule of the procedure at the head. *)
Ltac sat_step :=
  lazymatch goal with
  | |- sat (then_ _ _) _ => apply sat_then
  | |- sat (try_except _ _) _ => apply sat_try_except
  | |- sat (with_ _ _ _) _ => apply sat_with
  | |- sat (pure _) _ => apply sat_pure
  | |- sat (raise _) _ => apply sat_raise
  | |- sat (exit _) _ => apply sat_exit
  | |- sat (lift _) _ => apply sat_lift
  | |- sat (lift_py _) _ => apply sat_lift_py; intros ?
  | |- sat (path_exists _) _ => apply sat_call; intros [|]
  | |- sat (path_isdir _) _ => apply sat_call; intros [|]
  | |- sat (glob _) _ => apply sat_call; intros ?
  | |- sat (write _ _) _ => apply sat_call; intros []
  | |- sat uuid4 _ => apply sat_call; intros ?
  | |- sat (mkdir _) _ => apply sat_call_or_raise; intros [[]|]
  | |- sat (rmdir _) _ => apply sat_call_or_raise; intros [[]|]
  | |- sat (listdir _) _ => apply sat_call_or_raise; intros [?|]
  | |- sat (subprocess_run_capture _) _ =>
      apply sat_call_or_raise; intros [?|]
  | |- sat (subprocess_run_check _) _ =>
      apply sat_run_check;
      let done := fresh "done" in
      let E := fresh "Ecode" in
      intros [done|]; [destruct (returncode done =? 0) eqn:E|]
  | |- sat (print_error _) _ => apply sat_print_error
  | |- sat (print_ok _) _ => apply sat_print_ok
  | |- sat (print_notice _) _ => apply sat_print_notice
  | |- sat (if ?b then _ else _) _ =>
      let E := fresh "Eb" in destruct b eqn:E
  | |- sat (match ?x with _ => _ end) _ =>
      let E := fresh "Ex" in destruct x eqn:E
  end;
  cbn beta iota; unfold except_CalledProcessError; cbn beta iota;
  cbn [negb andb].

Ltac sat_steps := repeat sat_step.

(** The rule of a procedure with a lemma of its own. *)
Ltac sat_use lemma :=
  lazymatch goal with
  | |- sat (then_ _ _) _ => apply sat_then
  | |- sat (try_except _ _) _ => apply sat_try_except
  | |- sat (with_ _ _ _) _ => apply sat_with
  | _ => idtac
  end;
  eapply sat_weaken; [apply lemma|];
  let o := fresh "o" in
  let t := fresh "t" in
  let H := fresh "H" in
  intros o t H; destruct o; unfold raises_only in *; cbn beta iota in *;
  repeat match goal with
         | H : True |- _ => clear H
         end.

Lemma code_nonzero (done : CompletedProcess) :
  (returncode done =? 0) = false -> returncode done <> 0.
Proof. apply Z.eqb_neq. Qed.

Create HintDb runs.

#[local] Hint Resolve code_nonzero : runs.

#[local] Hint Extern 1 (system_failure _) => simpl : runs.

#[local] Hint Extern 1 (raises_only _ _) => simpl : runs.

Ltac envelope := sat_steps; simpl; auto with runs.

(** ** The exceptions of each procedure *)

Lemma Partfs_init_raises (diskimage mountdir : str) :
  sat (Partfs_init diskimage mountdir)
      (fun o _ =>
         raises_only (fun e => e = OSError
                               \/ e = PartfsMountInUseException mountdir) o).
Proof. unfold Partfs_init. envelope. Qed.

Lemma Partfs_enter_raises (self : Partfs) :
  sat (Partfs_enter self) (fun o _ => raises_only system_failure o).
Proof. unfold Partfs_enter. envelope. Qed.

Lemma Partfs_exit_raises (self : Partfs) :
  sat (Partfs_exit self) (fun o _ => raises_only system_failure o).
Proof. unfold Partfs_exit. envelope. Qed.

Lemma Losetup_enter_raises (self : Losetup) :
  sat (Losetup_enter self) (fun o _ => raises_only system_failure o).
Proof. unfold Losetup_enter. envelope. Qed.

Lemma Losetup_exit_raises (self : Losetup) :
  sat (Losetup_exit self) (fun o _ => raises_only system_failure o).
Proof. unfold Losetup_exit. envelope. Qed.

Lemma Mount_enter_raises (self : Mount) :
  sat (Mount_enter self) (fun o _ => raises_only system_failure o).
Proof. unfold Mount_enter. envelope. Qed.

Lemma Mount_exit_raises (self : Mount) :
  sat (Mount_exit self) (fun o _ => raises_only system_failure o).
Proof. unfold Mount_exit. envelope. Qed.

Lemma try_copy_to_raises (self : Partition) (to_dir : str) :
  sat (try_copy_to self to_dir) (fun o _ => raises_only system_failure o).
Proof. unfold try_copy_to. envelope. Qed.

Lemma try_dd_raises (imagefile : str) (size : Z) (ovewrite : bool) :
  sat (_try_dd imagefile size ovewrite)
      (fun o _ =>
         raises_only
           (fun e => system_failure e
                     \/ (e = ImageFileExistsException imagefile
                         /\ ovewrite = false)) o).
Proof.
  unfold _try_dd. destruct ovewrite; envelope; discriminate.
Qed.

Lemma try_parted_raises (imagefile : str) (parted : list str) :
  sat (_try_parted imagefile parted)
      (fun o _ => raises_only system_failure o).
Proof. unfold _try_parted. envelope. Qed.

Lemma dict_get_cmds_any (d d' : str) (fstype : option str) :
  dict_get (cmds d) fstype = None -> dict_get (cmds d') fstype = None.
Proof.
  unfold cmds. cbn [dict_get].
  repeat match goal with
         | |- context [option_str_eqb fstype ?k] =>
             destruct (option_str_eqb fstype k)
         end; try discriminate; reflexivity.
Qed.

Lemma try_mkfs_raises (dirname : str) (fstype : option str) :
  sat (_try_mkfs dirname fstype)
      (fun o _ =>
         raises_only
           (fun e => system_failure e
                     \/ (e = UnknownFilesystemException fstype
                         /\ dict_get (cmds []) fstype = None)) o).
Proof.
  unfold _try_mkfs.
  destruct (dict_get (cmds dirname) fstype) as [cmd|] eqn:E.
  - envelope.
  - apply sat_raise. simpl. right. split; [reflexivity|].
    now apply dict_get_cmds_any with dirname.
Qed.

Lemma with_Mount_raises {A} (source target : str) (body : str -> Proc A) :
  (forall mntdir, sat (body mntdir)
                      (fun o _ => raises_only system_failure o)) ->
  sat (with_Mount source target body)
      (fun o _ => raises_only system_failure o).
Proof.
  intros Hbody. unfold with_Mount. apply sat_with.
  sat_use Mount_enter_raises; [|exact H].
  sat_step.
  sat_use Hbody; (sat_use Mount_exit_raises; (exact I || assumption)).
Qed.

Lemma create_partition_raises (mount_root_dir : str)
      (pd : Partition * str) :
  sat (create_partition mount_root_dir pd)
      (fun o _ =>
         raises_only
           (fun e => system_failure e
                     \/ exists fstype,
                          e = UnknownFilesystemException fstype
                          /\ dict_get (cmds []) fstype = None) o).
Proof.
  unfold create_partition.
  sat_use try_mkfs_raises.
  - destruct (is_mountable (fst pd)).
    + eapply sat_weaken.
      * apply with_Mount_raises. intros mntdir. apply try_copy_to_raises.
      * intros [u|e] _ He; simpl in *; auto.
    + now apply sat_pure.
  - destruct H as [H|[-> H]]; eauto.
Qed.

Lemma from_directory_of_run (from_dir : str) :
  sat (from_directory_of from_dir)
      (fun o t =>
         exists listing,
           t = [Ev (glob_glob (os_path_join from_dir "partition[0-9][0-9]?*"))
                   listing]
           /\ o = match from_directory listing with
                  | Ok c => Returned c
                  | Raise e => Raised (Exn e)
                  end).
Proof.
  unfold from_directory_of. sat_step. sat_step. sat_step.
  exists a. now destruct (from_directory a).
Qed.

Lemma ImagefileMounted_enter_raises (self : ImagefileMounted) :
  sat (ImagefileMounted_enter self)
      (fun o _ =>
         raises_only
           (fun e => system_failure e
                     \/ (e = PartfsMountInUseException
                               (Mounted_partfs_mount_dir self)
                         /\ Mounted_use_partfs self = true)) o).
Proof.
  unfold ImagefileMounted_enter.
  destruct (Mounted_use_partfs self).
  - sat_use Partfs_init_raises.
    + sat_use Partfs_enter_raises; [|now left].
      now apply sat_pure.
    + destruct H as [-> | ->]; [left; exact I|right; auto].
  - sat_use Losetup_enter_raises; [|now left].
    now apply sat_pure.
Qed.

Lemma ImagefileMounted_exit_raises (m : mount_object) :
  sat (ImagefileMounted_exit m) (fun o _ => raises_only system_failure o).
Proof.
  destruct m; [apply Partfs_exit_raises|apply Losetup_exit_raises].
Qed.

Lemma system_failure_creation (imagefilename : str) (overwrite : bool)
      (use_partfs : bool) (partfs_mount_dir : str) (e : exception) :
  system_failure e ->
  creation_failure imagefilename overwrite use_partfs partfs_mount_dir e.
Proof. destruct e; simpl; tauto. Qed.

Lemma try_create_image_raises (rootdir imagefilename : str)
      (overwrite use_partfs : bool) (partfs_mount_dir mount_root_dir : str) :
  sat (try_create_image rootdir imagefilename overwrite use_partfs
         partfs_mount_dir mount_root_dir)
      (fun o _ =>
         raises_only (creation_failure imagefilename overwrite use_partfs
                        partfs_mount_dir) o).
Proof.
  unfold try_create_image. sat_step. sat_step. sat_step. sat_step.
  sat_use from_directory_of_run.
  - destruct H as (listing & _ & Ho).
    destruct (from_directory listing) as [c|e] eqn:Ec; [|discriminate].
    injection Ho as ->.
    pose proof (constructed_total_size listing c Ec) as Hsize.
    sat_step.
    destruct (get_total_size c) as [n|e] eqn:En.
    + sat_step. unfold make_empty, Imagefile_partition.
      cbn [Imagefile_filename].
      sat_use try_dd_raises.
      2:{ destruct H as [H|[-> ->]];
          [now apply system_failure_creation|simpl; auto]. }
      sat_use try_parted_raises; [|now apply system_failure_creation].
      apply sat_with.
      sat_use ImagefileMounted_enter_raises.
      2:{ destruct H as [H|[-> H]];
          [now apply system_failure_creation|simpl; auto]. }
      match goal with
      | |- match ?x with _ => _ end => destruct x as [self partition_dirs]
      end.
      change (sat (for_each partition_dirs (create_partition mount_root_dir))
                  (fun ob tb =>
                     sat (ImagefileMounted_exit self)
                         (fun ox tx =>
                            raises_only
                              (creation_failure imagefilename overwrite
                                 use_partfs partfs_mount_dir)
                              match ox with
                              | Returned _ => ob
                              | Raised e => Raised e
                              end))).
      apply sat_for_each with (I := fun _ => True); [exact I| |].
      * intros pd _. sat_use create_partition_raises; intros ? _; [exact I|].
        sat_use ImagefileMounted_exit_raises.
        -- destruct H as [H|(f & -> & H)];
             [now apply system_failure_creation|exact H].
        -- now apply system_failure_creation.
      * intros ? _. sat_use ImagefileMounted_exit_raises; [exact I|].
        now apply system_failure_creation.
    + sat_step.
      destruct Hsize as [(n & Hn & _)|[H|[H|H]]];
        try discriminate; injection H as ->; exact I.
  - destruct H as (listing & _ & Ho).
    destruct (from_directory listing) as [c|e'] eqn:Ec; [discriminate|].
    injection Ho as ->.
    destruct (from_directory_raises listing e' Ec)
      as [[-> _]|[[-> _]|(f & -> & _)]]; exact I.
Qed.

Lemma written_app (file : stream) (t t' : list event) :
  written file (t ++ t') = written file t ++ written file t'.
Proof.
  induction t as [|[c a] t IH]; [reflexivity|].
  destruct c; cbn [written app]; try exact IH.
  destruct file0, file; cbn [app]; now rewrite ?IH.
Qed.

Lemma written_In (t : list event) (text : str) :
  In (Ev (print stderr text) tt) t -> written stderr t <> [].
Proof.
  intros H. apply in_split in H as (t1 & t2 & ->).
  rewrite written_app. cbn [written].
  destruct (written stderr t1); discriminate.
Qed.

Ltac find_in :=
  solve [ apply in_eq
        | apply in_cons; find_in
        | apply in_or_app; right; find_in
        | apply in_or_app; left; find_in ].

Ltac announced :=
  intros;
  match goal with
  | |- written stderr ?t <> [] =>
      match t with
      | context [Ev (print stderr ?text) tt] =>
          apply written_In with text; cbn [app]; find_in
      end
  end.

(** X11. [main] after the command line is read: it returns, or ends with exit
    status 1 after a line on the standard error stream, or lets through
    one of the exceptions no [except] clause names. *)
Theorem main_outcomes (args : Namespace) :
  sat (main args)
      (fun o t =>
         match o with
         | Returned _ => True
         | Raised e =>
             main_failure e
             /\ (forall code, e = SystemExit code -> written stderr t <> [])
         end).
Proof.
  unfold main. sat_step. sat_step. sat_step. sat_step.
  - (* the directory is there *)
    sat_step. sat_step. sat_step. sat_step. sat_step.
    sat_use try_create_image_raises; [exact I|].
    destruct e as [[size| |filename| | | |] |fstype|imagefile|mountdir
                   |code cmd| |code]; cbn beta iota; simpl in H;
      try contradiction;
      try (split; [exact I || exact H|intros; discriminate]).
    + destruct size; [contradiction|].
      sat_steps. split; [reflexivity|announced].
    + sat_steps. split; [reflexivity|announced].
    + sat_steps. split; [reflexivity|announced].
    + sat_steps. exact I.
    + sat_steps. split; [reflexivity|announced].
  - (* the directory is missing *)
    sat_steps. split; [reflexivity|announced].
Qed.

(** ** What is run, and when *)

Lemma commands_app (t t' : list event) :
  commands (t ++ t') = commands t ++ commands t'.
Proof.
  induction t as [|e t IH]; [reflexivity|].
  cbn [commands app]. destruct (argv e); cbn [app]; now rewrite IH.
Qed.

Lemma first_glob_app (t t' : list event) :
  first_glob (t ++ t')
  = match first_glob t with
    | Some found => Some found
    | None => first_glob t'
    end.
Proof.
  induction t as [|[c a] t IH]; [reflexivity|].
  destruct c; cbn [first_glob app]; try exact IH. reflexivity.
Qed.

Lemma first_exists_app (t t' : list event) :
  first_exists (t ++ t')
  = match first_exists t with
    | Some there => Some there
    | None => first_exists t'
    end.
Proof.
  induction t as [|[c a] t IH]; [reflexivity|].
  destruct c; cbn [first_exists app]; try exact IH. reflexivity.
Qed.

Lemma sat_any {A} (m : Proc A) : sat m (fun _ _ => True).
Proof. intros W gl s. exact I. Qed.

(** [_try_dd]: the test of the file, then nothing, or the one command. *)
Lemma try_dd_run (imagefile : str) (size : Z) (ovewrite : bool) :
  sat (_try_dd imagefile size ovewrite)
      (fun o t =>
         first_glob t = None
         /\ exists there,
              first_exists t = Some there
              /\ if (there && negb ovewrite)%bool
                 then o = Raised (ImageFileExistsException imagefile)
                      /\ commands t = []
                 else commands t = [dd_command imagefile size]
                      /\ (o = Returned tt -> all_succeeded t)).
Proof.
  unfold _try_dd. sat_step. sat_step.
  - destruct ovewrite; cbn [negb andb].
    + sat_steps; (split; [reflexivity|]); exists true;
        (split; [reflexivity|]); cbn [andb negb];
        (split; [reflexivity|]); intros Ho; try discriminate;
        repeat constructor; simpl; auto.
    + sat_step. split; [reflexivity|]. exists true. now repeat split.
  - cbn [andb]. sat_steps; (split; [reflexivity|]); exists false;
      (split; [reflexivity|]); cbn [andb];
      (split; [reflexivity|]); intros Ho; try discriminate;
      repeat constructor; simpl; auto.
Qed.

Lemma try_create_image_start (rootdir imagefilename : str)
      (overwrite use_partfs : bool)
      (partfs_mount_dir mount_root_dir : str) :
  sat (try_create_image rootdir imagefilename overwrite use_partfs
         partfs_mount_dir mount_root_dir)
      (fun o t =>
         exists listing,
           first_glob t = Some listing
           /\ match resolved_size listing with
              | Raise e =>
                  o = Raised (Exn e) /\ commands t = []
                  /\ first_exists t = None
              | Ok size =>
                  exists there,
                    first_exists t = Some there
                    /\ if (there && negb overwrite)%bool
                       then o = Raised (ImageFileExistsException
                                          imagefilename)
                            /\ commands t = []
                       else exists rest,
                              commands t
                              = dd_command imagefilename size :: rest
              end).
Proof.
  unfold try_create_image. sat_step. sat_step. sat_step. sat_step.
  sat_use from_directory_of_run;
    destruct H as (listing & -> & Ho); cbn [app];
    destruct (from_directory listing) as [c|e'] eqn:Ec;
    try discriminate; injection Ho as ->.
  - sat_step. sat_step.
    destruct (get_total_size c) as [n|e'] eqn:En; cbn beta iota.
    + unfold make_empty. cbn [Imagefile_filename].
      sat_use try_dd_run;
        destruct H as (Hg & there & Hx & Hdd);
        [eapply sat_weaken; [apply sat_any|]; intros o' t' _|];
        (exists listing; split; [reflexivity|]);
        unfold resolved_size; rewrite Ec; cbn [bind]; rewrite En; exists there;
        cbn [first_exists app]; rewrite ?app_nil_r, ?first_exists_app, Hx;
        (split; [reflexivity|]);
        destruct (there && negb overwrite)%bool;
        destruct Hdd as [Hdd Hc]; try discriminate;
        cbn [commands argv app]; rewrite ?commands_app, ?Hdd, ?Hc;
        cbn [app]; eauto.
    + exists listing. split; [reflexivity|].
      unfold resolved_size. rewrite Ec. cbn [bind]. rewrite En.
      repeat split; reflexivity.
  - exists listing. split; [reflexivity|].
    unfold resolved_size. rewrite Ec. repeat split; reflexivity.
Qed.

(** X12. Nothing is run before the names are parsed and the size is resolved:
    a failure there ends the run with no command and no test of the
    image file; otherwise the file is tested, and either it exists and
    may not be overwritten, and nothing is run, or the first command
    allocates the resolved size. *)
Theorem create_image_first_command (rootdir imagefilename : str)
        (overwrite use_partfs : bool)
        (partfs_mount_dir mount_root_dir : str) :
  sat (try_create_image rootdir imagefilename overwrite use_partfs
         partfs_mount_dir mount_root_dir)
      (fun o t =>
         exists listing,
           first_glob t = Some listing
           /\ match resolved_size listing with
              | Raise e =>
                  o = Raised (Exn e) /\ commands t = []
                  /\ first_exists t = None
              | Ok size =>
                  exists there,
                    first_exists t = Some there
                    /\ if (there && negb overwrite)%bool
                       then o = Raised (ImageFileExistsException
                                          imagefilename)
                            /\ commands t = []
                       else exists rest,
                              commands t
                              = dd_command imagefilename size :: rest
              end).
Proof. apply try_create_image_start. Qed.

(** ** The commands of a run that returns *)





















Lemma try_create_image_parts (rootdir imagefilename : str)
      (overwrite use_partfs : bool)
      (partfs_mount_dir mount_root_dir : str) :
  try_create_image rootdir imagefilename overwrite use_partfs
    partfs_mount_dir mount_root_dir
  = (write stdout ("Partitions directory: " ++ rootdir) ;;
     write stdout ("Image file to create: " ++ imagefilename) ;;
     partitions <- from_directory_of rootdir ;;
     total_size <- lift (get_total_size partitions) ;;
     _try_dd imagefilename total_size overwrite ;;
     _try_parted imagefilename (get_parted partitions) ;;
     fill_image (mkImagefile imagefilename) partitions use_partfs
       partfs_mount_dir mount_root_dir)%proc.
Proof. reflexivity. Qed.




(** ** What is attached is released *)

Lemma released_in_app (later : list (list str)) (t t' : list event) :
  released_in (commands t' ++ later) t ->
  released_in later t' ->
  released_in later (t ++ t').
Proof.
  intros H H'. induction t as [|e t IH]; [exact H'|].
  cbn [app released_in] in *. destruct H as [He Ht]. split.
  - destruct (release_of e); [|exact I].
    now rewrite commands_app, <- app_assoc.
  - now apply IH.
Qed.

Lemma released_in_more (later later' : list (list str)) (t : list event) :
  incl later later' -> released_in later t -> released_in later' t.
Proof.
  intros Hi. induction t as [|e t IH]; [auto|].
  cbn [released_in]. intros [He Ht]. split; [|now apply IH].
  destruct (release_of e); [|exact I].
  apply in_app_or in He as [He|He]; apply in_or_app; auto.
Qed.

Lemma quiet_released (later : list (list str)) (t : list event) :
  quiet t -> released_in later t.
Proof.
  induction 1 as [|e t He Ht IH]; [exact I|].
  cbn [released_in]. rewrite He. auto.
Qed.

Lemma quiet_app (t t' : list event) : quiet (t ++ t') <-> quiet t /\ quiet t'.
Proof. apply Forall_app. Qed.

Lemma quiet_cons (e : event) (t : list event) :
  quiet (e :: t) <-> release_of e = None /\ quiet t.
Proof. apply Forall_cons_iff. Qed.

Lemma quiet_nil : quiet [].
Proof. constructor. Qed.

Ltac quietly :=
  sat_steps; cbn [app];
  repeat (rewrite quiet_cons || rewrite quiet_app);
  repeat split; auto using quiet_nil.

Lemma try_dd_quiet (imagefile : str) (size : Z) (ovewrite : bool) :
  sat (_try_dd imagefile size ovewrite) (fun _ t => quiet t).
Proof. unfold _try_dd. quietly. Qed.

Lemma parted_not_attaching (imagefile : str) (parted : list str)
      (a : option CompletedProcess) :
  release_of (Ev (subprocess_run
                    (["parted" : str; "--script" : str; imagefile;
                      "--" : str] ++ parted ++ ["print" : str])
                    None false) a) = None.
Proof. destruct parted; reflexivity. Qed.

Lemma try_parted_quiet (imagefile : str) (parted : list str) :
  sat (_try_parted imagefile parted) (fun _ t => quiet t).
Proof.
  unfold _try_parted. quietly; apply parted_not_attaching.
Qed.

Lemma try_mkfs_quiet (dirname : str) (fstype : option str) :
  sat (_try_mkfs dirname fstype) (fun _ t => quiet t).
Proof.
  unfold _try_mkfs, cmds. cbn [dict_get].
  repeat match goal with
         | |- context [option_str_eqb fstype ?k] =>
             destruct (option_str_eqb fstype k)
         end; quietly.
Qed.

Lemma try_copy_to_quiet (self : Partition) (to_dir : str) :
  sat (try_copy_to self to_dir) (fun _ t => quiet t).
Proof. unfold try_copy_to. quietly. Qed.

Lemma from_directory_of_quiet (from_dir : str) :
  sat (from_directory_of from_dir) (fun _ t => quiet t).
Proof. unfold from_directory_of. quietly. Qed.

Lemma Partfs_init_quiet (diskimage mountdir : str) :
  sat (Partfs_init diskimage mountdir) (fun _ t => quiet t).
Proof. unfold Partfs_init. quietly. Qed.

(** [__exit__] of each mount: it attaches nothing, and its first call is
    the command that releases. *)
Lemma Mount_exit_releases (self : Mount) :
  sat (Mount_exit self)
      (fun _ t => quiet t
                  /\ In ["umount" : str; Mount_target self] (commands t)).
Proof.
  unfold Mount_exit. quietly; cbn [commands argv app]; now left.
Qed.

Lemma Partfs_exit_releases (self : Partfs) :
  sat (Partfs_exit self)
      (fun _ t => quiet t
                  /\ In ["fusermount" : str; "-u" : str; Partfs_mountdir self]
                        (commands t)).
Proof.
  unfold Partfs_exit. quietly; cbn [commands argv app]; now left.
Qed.

Lemma Losetup_exit_releases (self : Losetup) :
  sat (Losetup_exit self)
      (fun _ t => quiet t
                  /\ match device self with
                     | Some (c :: dev) =>
                         In ["losetup" : str; "-d" : str; c :: dev]
                            (commands t)
                     | _ => True
                     end).
Proof.
  unfold Losetup_exit. destruct (device self) as [[|c dev]|];
    cbn [truthy fmt]; quietly; cbn [commands argv app]; now left.
Qed.

(** [__enter__] of each mount: what it attached waits for the command
    that releases when it returns, and for nothing when it raises. *)
Lemma Mount_enter_attaches (self : Mount) :
  sat (Mount_enter self)
      (fun o t =>
         released_in match o with
                     | Returned _ => [["umount" : str; Mount_target self]]
                     | Raised _ => []
                     end t).
Proof.
  unfold Mount_enter. sat_steps; cbn [app released_in release_of own_argv];
    cbn; rewrite ?Ecode; cbn; auto 10.
Qed.

Lemma Partfs_enter_attaches (self : Partfs) :
  sat (Partfs_enter self)
      (fun o t =>
         released_in match o with
                     | Returned _ =>
                         [["fusermount" : str; "-u" : str;
                           Partfs_mountdir self]]
                     | Raised _ => []
                     end t).
Proof.
  unfold Partfs_enter. sat_steps; cbn [app released_in release_of own_argv];
    cbn; rewrite ?Ecode; cbn; auto 10.
Qed.

Lemma Losetup_enter_attaches (self : Losetup) :
  sat (Losetup_enter self)
      (fun o t =>
         released_in match o with
                     | Returned entered =>
                         detach_commands (a_Losetup (fst entered))
                     | Raised _ => []
                     end t).
Proof.
  unfold Losetup_enter.
  sat_steps; cbn [app released_in release_of own_argv fst detach_commands device];
    cbn; rewrite ?Ecode, ?Ecode0; cbn; auto 10;
    match goal with
    | |- context [strip (stdout_text ?x)] =>
        destruct (strip (stdout_text x)); cbn; auto 10
    end.
Qed.

Lemma with_Mount_released {A} (source target : str) (body : str -> Proc A) :
  (forall mntdir, sat (body mntdir) (fun _ t => released t)) ->
  sat (with_Mount source target body) (fun _ t => released t).
Proof.
  intros Hbody. unfold with_Mount. apply sat_with. sat_step.
  sat_use Mount_enter_attaches.
  - sat_step.
    eapply sat_weaken; [apply Hbody|]. intros ob tb Hb.
    eapply sat_weaken; [apply Mount_exit_releases|]. intros ox tx [Hq Hin].
    cbn [Mount_target] in *. rewrite app_nil_r. unfold released.
    apply released_in_app.
    + eapply released_in_more; [|exact H]. intros c [<-|[]].
      rewrite commands_app, app_nil_r. apply in_or_app. now right.
    + apply released_in_app; [|now apply quiet_released].
      eapply released_in_more; [|exact Hb]. intros c [].
  - rewrite ?app_nil_r. exact H.
Qed.

Lemma create_partition_released (mount_root_dir : str)
      (pd : Partition * str) :
  sat (create_partition mount_root_dir pd) (fun _ t => released t).
Proof.
  unfold create_partition.
  sat_use try_mkfs_quiet; [|now apply quiet_released].
  destruct (is_mountable (fst pd)).
  - eapply sat_weaken.
    + apply with_Mount_released. intros mntdir.
      eapply sat_weaken; [apply try_copy_to_quiet|].
      intros o t' Hq. now apply quiet_released.
    + intros o t' Hr. unfold released. apply released_in_app; [|exact Hr].
      now apply quiet_released.
  - sat_step. rewrite app_nil_r. now apply quiet_released.
Qed.

Lemma ImagefileMounted_enter_attaches (self : ImagefileMounted) :
  sat (ImagefileMounted_enter self)
      (fun o t =>
         released_in match o with
                     | Returned entered => detach_commands (fst entered)
                     | Raised _ => []
                     end t).
Proof.
  unfold ImagefileMounted_enter. destruct (Mounted_use_partfs self).
  - sat_use Partfs_init_quiet; [|now apply quiet_released].
    sat_use Partfs_enter_attaches.
    + sat_step. cbn [fst detach_commands]. rewrite app_nil_r.
      apply released_in_app; [now apply quiet_released|exact H0].
    + apply released_in_app; [now apply quiet_released|exact H0].
  - sat_use Losetup_enter_attaches.
    + sat_step. cbn [fst]. now rewrite app_nil_r.
    + exact H.
Qed.

Lemma ImagefileMounted_exit_releases (m : mount_object) :
  sat (ImagefileMounted_exit m)
      (fun _ t => quiet t /\ incl (detach_commands m) (commands t)).
Proof.
  destruct m as [m|m]; cbn [ImagefileMounted_exit detach_commands].
  - eapply sat_weaken; [apply Partfs_exit_releases|].
    intros o t [Hq Hin]. split; [exact Hq|]. intros c [<-|[]]. exact Hin.
  - eapply sat_weaken; [apply Losetup_exit_releases|].
    intros o t [Hq Hin]. split; [exact Hq|].
    destruct (device m) as [[|c dev]|]; intros x Hx;
      [destruct Hx|destruct Hx as [<-|[]]; exact Hin|destruct Hx].
Qed.

Lemma fill_image_released (imagefile : Imagefile)
      (partitions : PartitionCollection) (use_partfs : bool)
      (partfs_mount_dir mount_root_dir : str) :
  sat (fill_image imagefile partitions use_partfs partfs_mount_dir
         mount_root_dir)
      (fun _ t => released t).
Proof.
  unfold fill_image. apply sat_with.
  sat_use ImagefileMounted_enter_attaches; [|exact H].
  destruct a as [self partition_dirs]. cbn [fst] in H.
  assert (Hexit : forall tb,
             released tb ->
             sat (ImagefileMounted_exit self)
                 (fun ox tx =>
                    released (t ++ tb ++ tx))).
  { intros tb Hb.
    eapply sat_weaken; [apply ImagefileMounted_exit_releases|].
    intros ox tx [Hq Hin]. unfold released.
    apply released_in_app.
    - eapply released_in_more; [|exact H].
      intros c Hc. rewrite app_nil_r, commands_app.
      apply in_or_app. right. now apply Hin.
    - apply released_in_app; [|now apply quiet_released].
      eapply released_in_more; [|exact Hb]. intros c []. }
  apply sat_for_each with (I := released).
  - exact I.
  - intros pd _. sat_use create_partition_released; intros t1 Ht1.
    + unfold released. apply released_in_app; [|exact H0].
      eapply released_in_more; [|exact Ht1]. intros c [].
    + apply Hexit. unfold released.
      apply released_in_app; [|exact H0].
      eapply released_in_more; [|exact Ht1]. intros c [].
  - intros tb Hb. apply Hexit. exact Hb.
Qed.

(** X14. In every run of [try_create_image], however it ends, a [mount], a
    [partfs] or a [losetup -P] (on a device with a name) that succeeded
    is followed by the [umount], the [fusermount -u] or the [losetup -d]
    on the same target. *)
Theorem create_image_releases (rootdir imagefilename : str)
        (overwrite use_partfs : bool)
        (partfs_mount_dir mount_root_dir : str) :
  sat (try_create_image rootdir imagefilename overwrite use_partfs
         partfs_mount_dir mount_root_dir)
      (fun _ t => released t).
Proof.
  assert (Hq : forall later t t', quiet t -> released_in later t' ->
                                  released_in later (t ++ t')).
  { intros later t t' Ht Ht'. apply released_in_app; [|exact Ht'].
    now apply quiet_released. }
  rewrite try_create_image_parts. sat_step. sat_step. sat_step. sat_step.
  cbn [app].
  sat_use from_directory_of_quiet;
    [|cbn [released released_in release_of own_argv]; repeat split;
      now apply quiet_released].
  sat_step.
  destruct (get_total_size a) as [size|e'] eqn:En; sat_step;
    [|cbn [released released_in release_of own_argv]; repeat split;
      rewrite app_nil_r; now apply quiet_released].
  assert (Hpre : forall t', released t' ->
                   released
                     (Ev (print stdout ("Partitions directory: " ++ rootdir))
                         tt
                      :: Ev (print stdout
                               ("Image file to create: " ++ imagefilename))
                            tt :: t ++ [] ++ t')).
  { intros t' Ht'. cbn [released released_in release_of own_argv].
    repeat split. now apply Hq. }
  sat_use try_dd_quiet; [|apply Hpre; now apply quiet_released].
  sat_use try_parted_quiet;
    [|apply Hpre; apply Hq; [assumption|now apply quiet_released]].
  sat_use fill_image_released; apply Hpre; repeat apply Hq; assumption.
Qed.

Lemma release_of_mount (source target : str) (done : CompletedProcess) :
  returncode done = 0 ->
  release_of (Ev (subprocess_run ["mount" : str; source; target] None false)
                 (Some done))
  = Some ["umount" : str; target].
Proof.
  intros H. unfold release_of. cbn [own_argv succeeded]. rewrite H. reflexivity.
Qed.

(** ** The command line *)

(** X15. With a directory that holds no partition name, [main] ends with the
    [IndexError] of the empty listing, which no [except] clause names,
    and has run nothing. *)
Theorem main_on_empty_directory (args : Namespace) :
  sat (main args)
      (fun o t =>
         first_glob t = Some [] ->
         o = Raised (Exn IndexError) /\ commands t = []).
Proof.
  unfold main. sat_step. sat_step. sat_step. sat_step.
  - sat_step. sat_step. sat_step. sat_step. sat_step.
    sat_use try_create_image_start;
      destruct H as (listing & Hg & H); cbn [app first_glob commands argv];
      rewrite ?first_glob_app, ?Hg.
    + intros Hl. injection Hl as ->. cbn in H. destruct H. discriminate.
    + assert (Hcase : listing = [] ->
                      e = Exn IndexError /\ commands t = []).
      { intros ->. cbn in H. destruct H as (H & Hc & _). now injection H as ->. }
      destruct e as [[size| |filename| | | |] |fstype|imagefile|mountdir
                     |code cmd| |code]; cbn beta iota;
        try (intros Hl; injection Hl as Hl;
             destruct (Hcase Hl) as [He Hc]; try discriminate;
             rewrite ?commands_app, Hc; auto; fail);
        sat_steps; rewrite ?first_glob_app, ?Hg;
        intros Hl; injection Hl as Hl;
        destruct (Hcase Hl); discriminate.
  - sat_steps. discriminate.
Qed.

Lemma main_on_empty_directory_example :
  outcome_of (run (example_world [] false) (main example_args)
                (mkGlobals false) tt)
  = Raised (Exn IndexError)
  /\ commands (trace_of (run (example_world [] false) (main example_args)
                           (mkGlobals false) tt)) = [].
Proof.
  apply (main_on_empty_directory example_args (example_world [] false)
           (mkGlobals false) tt).
  vm_compute. reflexivity.
Defined.

(** X16. Without [-f], when the image file is found to exist, [main] writes
    its hint on the standard error stream and returns: nothing is run,
    and the exit status is not 1. *)
Theorem main_keeps_existing_image (args : Namespace) :
  sat (main args)
      (fun o t =>
         args_force args = false ->
         first_exists t = Some true ->
         o = Returned tt /\ commands t = [] /\ written stderr t <> []).
Proof.
  unfold main. sat_step. sat_step. sat_step. sat_step.
  - sat_step. sat_step. sat_step. sat_step. sat_step.
    sat_use try_create_image_start;
      destruct H as (listing & Hg & H).
    + cbn [app first_exists commands argv]. rewrite ?first_exists_app.
      intros Hf Hx.
      destruct (resolved_size listing); [|destruct H; discriminate].
      destruct H as (there & Hthere & H). rewrite Hthere in Hx.
      injection Hx as ->. rewrite Hf in H. destruct H. discriminate.
    + assert (Hcase : args_force args = false ->
                      first_exists t = Some true ->
                      e = ImageFileExistsException (args_imagefile args)
                      /\ commands t = []).
      { intros Hf Hx.
        destruct (resolved_size listing).
        - destruct H as (there & Hthere & H). rewrite Hthere in Hx.
          injection Hx as ->. rewrite Hf in H. destruct H as [H Hc].
          injection H as ->. auto.
        - destruct H as (_ & _ & H). congruence. }
      destruct e as [[size| |filename| | | |] |fstype|imagefile|mountdir
                     |code cmd| |code]; cbn beta iota;
        try (cbn [app first_exists]; rewrite ?first_exists_app;
             intros Hf Hx;
             destruct (first_exists t) as [there|] eqn:Et;
             [|discriminate];
             injection Hx as ->;
             destruct (Hcase Hf eq_refl); discriminate);
        sat_steps; cbn [app first_exists]; rewrite ?first_exists_app;
        intros Hf Hx;
        (destruct (first_exists t) as [there|] eqn:Et;
         [|cbn [first_exists] in Hx; discriminate]);
        injection Hx as ->;
        destruct (Hcase Hf eq_refl) as [He Hc]; try discriminate.
      split; [reflexivity|]. split.
      * cbn [commands argv app]. rewrite !commands_app, Hc. reflexivity.
      * announced.
  - sat_steps. discriminate.
Qed.

Lemma main_keeps_existing_image_example :
  outcome_of (run (example_world readme_short true) (main example_args)
                (mkGlobals false) tt)
  = Returned tt
  /\ commands (trace_of (run (example_world readme_short true)
                           (main example_args) (mkGlobals false) tt)) = []
  /\ written stderr
       (trace_of (run (example_world readme_short true) (main example_args)
                    (mkGlobals false) tt)) <> [].
Proof.
  apply (main_keeps_existing_image example_args
           (example_world readme_short true) (mkGlobals false) tt).
  - reflexivity.
  - vm_compute. reflexivity.
Defined.

(** ** The mounter *)

Lemma sat_run_check_cwd (args : list str) (cwd : str)
      (Q : outcome unit -> list event -> Prop) :
  (forall a : option CompletedProcess,
      Q (match a with
         | None => Raised OSError
         | Some done =>
             if returncode done =? 0 then Returned tt
             else Raised (CalledProcessError (returncode done) args)
         end) [Ev (subprocess_run args (Some cwd) false) a]) ->
  sat (subprocess_run_check_cwd args cwd) Q.
Proof.
  intros H. unfold subprocess_run_check_cwd. apply sat_then.
  apply sat_call_or_raise. intros [done|]; cbn beta iota.
  - specialize (H (Some done)). cbn beta iota in H.
    destruct (returncode done =? 0).
    + apply sat_pure. exact H.
    + apply sat_raise. exact H.
  - exact (H None).
Qed.

Lemma user_command_raises (args : diskimgmounter.Namespace) :
  sat (user_command args) (fun o _ => raises_only system_failure o).
Proof.
  unfold user_command. apply sat_try_except. apply sat_run_check_cwd.
  intros [done|]; [destruct (returncode done =? 0) eqn:Ecode|];
    cbn beta iota; unfold except_CalledProcessError; cbn beta iota;
    envelope.
Qed.


Lemma user_command_quiet (args : diskimgmounter.Namespace) :
  sat (user_command args) (fun _ t => quiet t).
Proof.
  unfold user_command. apply sat_try_except. apply sat_run_check_cwd.
  intros [done|]; [destruct (returncode done =? 0) eqn:Ecode|];
    cbn beta iota; unfold except_CalledProcessError; cbn beta iota;
    quietly.
Qed.

(** *** The exceptions *)

Lemma mount_each_raises {A} (partfs : list str) (root : str)
      (partitions : list Z) (block : Proc A) :
  sat block (fun o _ => raises_only system_failure o) ->
  sat (diskimgmounter.mount_each partfs root partitions block)
      (fun o _ => raises_only system_failure o).
Proof.
  intros Hblock. induction partitions as [|pindex rest IH];
    cbn [diskimgmounter.mount_each]; [exact Hblock|].
  destruct (py_index partfs (pindex - 1)) as [part|]; [|exact IH].
  cbv zeta. sat_step. sat_step; sat_step; sat_step;
    try (simpl; exact I);
    (eapply sat_weaken;
     [apply with_Mount_raises; intros; exact IH|];
     intros o t H; exact H).
Qed.

Lemma enter_image_raises (imagefilename : str) (use_partfs : bool)
      (partfs_mount_dir : str) :
  sat (diskimgmounter.enter_image imagefilename use_partfs partfs_mount_dir)
      (fun o _ =>
         raises_only
           (fun e => system_failure e
                     \/ e = PartfsMountInUseException partfs_mount_dir) o).
Proof.
  unfold diskimgmounter.enter_image. destruct use_partfs.
  - sat_use Partfs_init_raises.
    + sat_use Partfs_enter_raises; [|now left].
      now apply sat_pure.
    + destruct H as [-> | ->]; [left; exact I|now right].
  - sat_use Losetup_enter_raises; [|now left].
    now apply sat_pure.
Qed.

Lemma try_mount_image_raises {A} (imagefilename : str) (partitions : list Z)
      (root : str) (use_partfs : bool) (partfs_mount_dir : str)
      (block : Proc A) :
  sat block (fun o _ => raises_only system_failure o) ->
  sat (diskimgmounter.try_mount_image imagefilename partitions root
         use_partfs partfs_mount_dir block)
      (fun o _ =>
         raises_only
           (fun e => system_failure e
                     \/ e = PartfsMountInUseException partfs_mount_dir) o).
Proof.
  intros Hblock. unfold diskimgmounter.try_mount_image.
  assert (Hrest :
    sat (with_ (diskimgmounter.enter_image imagefilename use_partfs
                  partfs_mount_dir)
               mount_object_exit
               (fun partfs =>
                  diskimgmounter.mount_each partfs root
                    match partitions with
                    | [] => range (List.length partfs)
                    | _ :: _ => partitions
                    end block))
        (fun o _ =>
           raises_only
             (fun e => system_failure e
                       \/ e = PartfsMountInUseException partfs_mount_dir)
             o)).
  { apply sat_with. sat_use enter_image_raises; [|exact H].
    destruct a as [self partfs].
    pose proof (mount_each_raises partfs root
                  match partitions with
                  | [] => range (List.length partfs)
                  | _ :: _ => partitions
                  end block Hblock) as Heach.
    sat_use Heach; (sat_use ImagefileMounted_exit_raises; auto). }
  sat_step. sat_step; sat_step; sat_step;
    try (simpl; now left);
    (eapply sat_weaken; [apply Hrest|]; intros o t H; exact H).
Qed.

(** X17. The mounter, after the command line is read: it returns, or ends
    with exit status 1 when a command failed, or lets through the
    [OSError] of a call the system refused or the
    [PartfsMountInUseException]. *)
Theorem mounter_outcomes (args : diskimgmounter.Namespace) :
  sat (diskimgmounter.main args)
      (fun o _ =>
         raises_only
           (fun e => e = SystemExit 1 \/ e = OSError
                     \/ exists mountdir,
                          e = PartfsMountInUseException mountdir) o).
Proof.
  unfold diskimgmounter.main. sat_step. sat_step. sat_step. sat_step.
  sat_step.
  eapply sat_weaken.
  - apply try_mount_image_raises. apply user_command_raises.
  - intros [u|e] t H; cbn beta iota; [exact I|].
    unfold raises_only in H.
    destruct e; simpl in H; unfold except_CalledProcessError;
      cbn beta iota;
      try (destruct H as [H|H]; try contradiction; try discriminate);
      try (sat_steps; simpl; auto; fail);
      simpl; eauto.
Qed.

(** *** The commands of a run that returns *)








(** *** What is attached is released *)

Lemma mount_each_released {A} (partfs : list str) (root : str)
      (partitions : list Z) (block : Proc A) :
  sat block (fun _ t => released t) ->
  sat (diskimgmounter.mount_each partfs root partitions block)
      (fun _ t => released t).
Proof.
  intros Hblock. induction partitions as [|pindex rest IH];
    cbn [diskimgmounter.mount_each]; [exact Hblock|].
  destruct (py_index partfs (pindex - 1)) as [part|]; [|exact IH].
  cbv zeta.
  pose proof (with_Mount_released part (root ++ "/p" ++ str_of_int pindex)
                (fun _ => diskimgmounter.mount_each partfs root rest block)
                (fun _ => IH)) as Hw.
  sat_step. sat_step; sat_step; sat_step;
    try (cbn [app released released_in release_of own_argv]; auto; fail);
    (eapply sat_weaken; [apply Hw|]); intros o t Ht;
    cbn [app released released_in release_of own_argv]; auto.
Qed.

Lemma enter_image_attaches (imagefilename : str) (use_partfs : bool)
      (partfs_mount_dir : str) :
  sat (diskimgmounter.enter_image imagefilename use_partfs partfs_mount_dir)
      (fun o t =>
         released_in match o with
                     | Returned entered => detach_commands (fst entered)
                     | Raised _ => []
                     end t).
Proof.
  unfold diskimgmounter.enter_image. destruct use_partfs.
  - sat_use Partfs_init_quiet; [|now apply quiet_released].
    sat_use Partfs_enter_attaches.
    + sat_step. cbn [fst detach_commands]. rewrite app_nil_r.
      apply released_in_app; [now apply quiet_released|exact H0].
    + apply released_in_app; [now apply quiet_released|exact H0].
  - sat_use Losetup_enter_attaches.
    + sat_step. cbn [fst]. now rewrite app_nil_r.
    + exact H.
Qed.

Lemma try_mount_image_released {A} (imagefilename : str)
      (partitions : list Z) (root : str) (use_partfs : bool)
      (partfs_mount_dir : str) (block : Proc A) :
  sat block (fun _ t => released t) ->
  sat (diskimgmounter.try_mount_image imagefilename partitions root
         use_partfs partfs_mount_dir block)
      (fun _ t => released t).
Proof.
  intros Hblock. unfold diskimgmounter.try_mount_image.
  assert (Hrest :
    sat (with_ (diskimgmounter.enter_image imagefilename use_partfs
                  partfs_mount_dir)
               mount_object_exit
               (fun partfs =>
                  diskimgmounter.mount_each partfs root
                    (effective partitions partfs) block))
        (fun _ t => released t)).
  { apply sat_with. sat_use enter_image_attaches; [|exact H].
    destruct a as [self partfs]. cbn [fst] in H.
    eapply sat_weaken;
      [apply (mount_each_released partfs root
                (effective partitions partfs) block Hblock)|].
    intros ob tb Hb.
    eapply sat_weaken; [apply ImagefileMounted_exit_releases|].
    intros ox tx [Hq Hin]. unfold released.
    apply released_in_app.
    - eapply released_in_more; [|exact H].
      intros c Hc. rewrite app_nil_r, commands_app.
      apply in_or_app. right. now apply Hin.
    - apply released_in_app; [|now apply quiet_released].
      eapply released_in_more; [|exact Hb]. intros c []. }
  sat_step. sat_step; sat_step; sat_step;
    try (cbn [app released released_in release_of own_argv]; auto; fail);
    (eapply sat_weaken; [apply Hrest|]); intros o t Ht;
    cbn [app released released_in release_of own_argv]; auto.
Qed.

(** X19. In every run of the mounter, however it ends, a [mount], a [partfs]
    or a [losetup -P] (on a device with a name) of its own that
    succeeded is followed by the [umount], the [fusermount -u] or the
    [losetup -d] on the same target. *)
Theorem mounter_releases (args : diskimgmounter.Namespace) :
  sat (diskimgmounter.main args) (fun _ t => released t).
Proof.
  unfold diskimgmounter.main. sat_step. sat_step. sat_step. sat_step.
  sat_step.
  eapply sat_weaken.
  - apply try_mount_image_released.
    eapply sat_weaken; [apply user_command_quiet|].
    intros o t Hq. now apply quiet_released.
  - intros [u|e] t H; cbn beta iota;
      [cbn [app released released_in release_of own_argv];
       rewrite ?app_nil_r; auto|].
    destruct e; unfold except_CalledProcessError; cbn beta iota;
      try (cbn [app released released_in release_of own_argv];
           rewrite ?app_nil_r; auto; fail).
    sat_steps. cbn [app released released_in release_of own_argv].
    rewrite ?app_nil_r. auto.
Qed.

(** *** The numbers of the partitions *)








